(** * ImageTrend mapping extension: schema extraction and structural fingerprint

    A shallow embedding of the extraction engine of
    [src/background/api-client.ts] ([imagetrendExtractor]) and of the
    fingerprint generator of [src/services/hash-generator.ts]
    ([FormHashGenerator]), with the properties of the specification stated
    and settled on it.  The second half covers what surrounds them: the
    API client of the same file with the company cache
    ([src/unnamed/part_005]) it reads and writes, the token storage
    ([SecureTokenStorage]) and the company session ([src/background/auth.ts])
    behind it, the PKCE code challenge ([src/utils/pkce.ts]) and the retry
    loop ([src/unnamed/part_007]).

    Conventions of the embedding.
    - A JavaScript string is represented by the [string] of its UTF-8
      bytes (well-formed strings; this is what [TextEncoder.encode]
      produces, and JSON quoting only rewrites code units below 0x80).
    - A property that may be missing is an [option]; [None] stands for
      [undefined] or [null] wherever the source treats them alike (by a
      truthiness test or [||]).  Where the source tells them apart (the
      operator codes of rule expressions) the three-valued [jsopt] is used.
    - An exception is a value: a function that can throw returns a
      [Completion].
    - Code that reads the clock, the network or a storage area takes what
      it reads as an argument and returns what it writes; the storage
      areas themselves are taken to answer every call. *)

From Stdlib Require Import ZArith List String Ascii Bool Lia Arith.
From Stdlib Require Import Permutation Sorted DecimalString OrderedTypeEx.
Import ListNotations.

Local Open Scope string_scope.
Local Open Scope list_scope.
Set Warnings "-register-all".

(* ================================================================== *)
(** ** JavaScript prelude                                               *)
(* ================================================================== *)

Module Js.

(** Exceptions the modelled code can raise. *)
Inductive Exn : Type :=
| TypeError (msg : string)
| RangeError (msg : string)
| Error (msg : string).

(** The outcome of evaluating a call: a value, or a thrown exception. *)
Inductive Completion (A : Type) : Type :=
| Returned (a : A)
| Threw (e : Exn).
Arguments Returned {A} a.
Arguments Threw {A} e.

(** The messages of the engine's type errors. *)
Definition notAFunction (what : string) : Exn :=
  TypeError (what ++ " is not a function").

Definition cannotRead (prop : string) : Exn :=
  TypeError ("Cannot read properties of undefined (reading '" ++ prop ++ "')").

Definition cannotReadNull (prop : string) : Exn :=
  TypeError ("Cannot read properties of null (reading '" ++ prop ++ "')").

Definition bind {A B : Type} (c : Completion A) (k : A -> Completion B) : Completion B :=
  match c with
  | Returned a => k a
  | Threw e => Threw e
  end.

Notation "x <- c ;; k" := (bind c (fun x => k))
  (at level 61, c at next level, right associativity).

(** [try { body } catch (error) { handler }]. *)
Definition try_catch {A : Type} (body : Completion A) (handler : Exn -> Completion A) : Completion A :=
  match body with
  | Returned a => Returned a
  | Threw e => handler e
  end.

(** [xs.map(f)] and [xs.forEach(...)] with a callback that may throw: the
    first exception ends the loop.  Both are written with a local [fix] so
    that they can be used in recursive calls over nested data. *)
Definition mapM {A B : Type} (f : A -> Completion B) : list A -> Completion (list B) :=
  fix go (l : list A) : Completion (list B) :=
    match l with
    | [] => Returned []
    | x :: l' => y <- f x ;; ys <- go l' ;; Returned (y :: ys)
    end.

Definition foldM {A S : Type} (f : A -> S -> Completion S) : list A -> S -> Completion S :=
  fix go (l : list A) (s : S) : Completion S :=
    match l with
    | [] => Returned s
    | x :: l' => s' <- f x s ;; go l' s'
    end.

(** How the promise of an [async] function settles. *)
Inductive Settled : Type :=
| Resolved (value : string)
| Rejected (reason : Exn).

(** A property whose [undefined], [null] and proper values the source
    distinguishes. *)
Inductive jsopt (A : Type) : Type :=
| Undefined
| Null
| Val (a : A).
Arguments Undefined {A}.
Arguments Null {A}.
Arguments Val {A} a.

(** Truthiness of optional strings, numbers and booleans. *)
Definition truthyS (o : option string) : bool :=
  match o with
  | Some s => negb (s =? "")
  | None => false
  end.

Definition truthyZ (o : option Z) : bool :=
  match o with
  | Some n => negb (n =? 0)%Z
  | None => false
  end.

Definition truthyB (o : option bool) : bool :=
  match o with
  | Some b => b
  | None => false
  end.

(** [a || b] on optional strings and numbers. *)
Definition orS (a b : option string) : option string :=
  if truthyS a then a else b.

Definition orZ (a b : option Z) : option Z :=
  if truthyZ a then a else b.

(** [String(v)] and string concatenation of a possibly missing string. *)
Definition toStr (o : option string) : string :=
  match o with
  | Some s => s
  | None => "undefined"
  end.

(** [s.includes(pat)]. *)
Fixpoint includes (pat s : string) : bool :=
  if prefix pat s then true
  else match s with
       | EmptyString => false
       | String _ s' => includes pat s'
       end.

(** [s.toLowerCase()]; the letters A-Z are mapped, every other byte is
    kept. *)
Definition lower_ascii (c : ascii) : ascii :=
  let n := nat_of_ascii c in
  if (65 <=? n)%nat && (n <=? 90)%nat then ascii_of_nat (n + 32) else c.

Fixpoint toLowerCase (s : string) : string :=
  match s with
  | EmptyString => EmptyString
  | String c s' => String (lower_ascii c) (toLowerCase s')
  end.

(** [Array.prototype.sort(cmp)]: the sort is stable, so for a consistent
    comparator its result is the one of a stable insertion sort.  [x] is
    placed before the first [y] with [cmp x y <= 0]. *)
Section Sort.
Context {A : Type} (cmp : A -> A -> Z).

Fixpoint insert (x : A) (l : list A) : list A :=
  match l with
  | [] => [x]
  | y :: l' => if (cmp x y <=? 0)%Z then x :: l else y :: insert x l'
  end.

Fixpoint sort (l : list A) : list A :=
  match l with
  | [] => []
  | x :: l' => insert x (sort l')
  end.

End Sort.

(** Code-unit comparison of two strings as a number: the order of the
    default [sort()] (on the UTF-8 bytes, which orders strings as their
    UTF-16 code units do unless astral characters are involved), and the
    comparator used for concrete runs. *)
Definition compareCodeUnits (a b : string) : Z :=
  match String.compare a b with
  | Lt => (-1)%Z
  | Eq => 0%Z
  | Gt => 1%Z
  end.

(** *** JSON.stringify on the values that are serialised *)

Definition hexDigit (n : nat) : ascii :=
  match n with
  | 0 => "0" | 1 => "1" | 2 => "2" | 3 => "3" | 4 => "4" | 5 => "5"
  | 6 => "6" | 7 => "7" | 8 => "8" | 9 => "9" | 10 => "a" | 11 => "b"
  | 12 => "c" | 13 => "d" | 14 => "e" | _ => "f"
  end%char.

Definition isLowerHex (c : ascii) : bool :=
  existsb (Ascii.eqb c) (list_ascii_of_string "0123456789abcdef").

Definition allLowerHex (s : string) : bool :=
  forallb isLowerHex (list_ascii_of_string s).

(** [b.toString(16).padStart(2, '0')] for a byte. *)
Definition hexByte (b : nat) : string :=
  String (hexDigit (b / 16)) (String (hexDigit (b mod 16)) EmptyString).

Definition quoteChar (c : ascii) : string :=
  let n := nat_of_ascii c in
  if (n =? 8)%nat then "\b"
  else if (n =? 9)%nat then "\t"
  else if (n =? 10)%nat then "\n"
  else if (n =? 12)%nat then "\f"
  else if (n =? 13)%nat then "\r"
  else if (n =? 34)%nat then String "\" (String c EmptyString)
  else if (n =? 92)%nat then "\\"
  else if (n <? 32)%nat then "\u00" ++ hexByte n
  else String c EmptyString.

Fixpoint quoteBody (s : string) : string :=
  match s with
  | EmptyString => EmptyString
  | String c s' => quoteChar c ++ quoteBody s'
  end.

Definition dquote : string := String (ascii_of_nat 34) EmptyString.

Definition jsonString (s : string) : string := dquote ++ quoteBody s ++ dquote.

Definition jsonNat (n : nat) : string := NilEmpty.string_of_uint (Nat.to_uint n).

(** A string or [null]. *)
Definition jsonStringOrNull (o : option string) : string :=
  match o with
  | Some s => jsonString s
  | None => "null"
  end.

Definition jsonArray (items : list string) : string :=
  "[" ++ String.concat "," items ++ "]".

End Js.

(* ================================================================== *)
(** ** SHA-256 (the digest of [crypto.subtle.digest('SHA-256', data)])  *)
(* ================================================================== *)

Module Sha256.

Local Open Scope Z_scope.

Definition w32 (x : Z) : Z := x mod 4294967296.

Definition rotr (n x : Z) : Z := w32 (Z.lor (Z.shiftr x n) (Z.shiftl x (32 - n))).

Definition Ch (x y z : Z) : Z := Z.lxor (Z.land x y) (Z.land (w32 (Z.lnot x)) z).
Definition Maj (x y z : Z) : Z := Z.lxor (Z.lxor (Z.land x y) (Z.land x z)) (Z.land y z).
Definition Sigma0 (x : Z) : Z := Z.lxor (Z.lxor (rotr 2 x) (rotr 13 x)) (rotr 22 x).
Definition Sigma1 (x : Z) : Z := Z.lxor (Z.lxor (rotr 6 x) (rotr 11 x)) (rotr 25 x).
Definition sigma0 (x : Z) : Z := Z.lxor (Z.lxor (rotr 7 x) (rotr 18 x)) (Z.shiftr x 3).
Definition sigma1 (x : Z) : Z := Z.lxor (Z.lxor (rotr 17 x) (rotr 19 x)) (Z.shiftr x 10).

(** The round constants and the initial hash value are the first 32 bits
    of the fractional parts of the cube roots of the first 64 primes and of
    the square roots of the first 8 primes. *)
Definition is_prime (n : nat) : bool :=
  forallb (fun d => negb (n mod d =? 0)%nat) (seq 2 (n - 2)).

Definition primes : list Z := map Z.of_nat (filter is_prime (seq 2 310)).

(** The integer cube root of a number below 2^105, bit by bit. *)
Definition cube_root (n : Z) : Z :=
  fold_left (fun r b => let r' := r + Z.shiftl 1 (Z.of_nat b) in
                        if r' * r' * r' <=? n then r' else r)
            (rev (seq 0 35)) 0.

Definition K : list Z :=
  Eval vm_compute in map (fun p => w32 (cube_root (Z.shiftl p 96))) primes.

Definition H0 : list Z :=
  Eval vm_compute in map (fun p => w32 (Z.sqrt (Z.shiftl p 64))) (firstn 8 primes).

(** Padding: the bit 1, zero bytes up to 56 modulo 64, and the bit length
    on eight bytes, most significant first. *)
Definition be_bytes (count : nat) (x : Z) : list Z :=
  map (fun i => (Z.shiftr x (8 * Z.of_nat i)) mod 256) (rev (seq 0 count)).

Definition pad (msg : list Z) : list Z :=
  let len := Z.of_nat (List.length msg) in
  let zeros := Z.to_nat ((55 - len) mod 64) in
  msg ++ [128] ++ repeat 0 zeros ++ be_bytes 8 (8 * len).

Definition be_word (b3 b2 b1 b0 : Z) : Z :=
  Z.lor (Z.shiftl b3 24) (Z.lor (Z.shiftl b2 16) (Z.lor (Z.shiftl b1 8) b0)).

Fixpoint words (fuel : nat) (bytes : list Z) : list Z :=
  match fuel, bytes with
  | S fuel', b3 :: b2 :: b1 :: b0 :: rest => be_word b3 b2 b1 b0 :: words fuel' rest
  | _, _ => []
  end.

Fixpoint chunks (fuel : nat) (ws : list Z) : list (list Z) :=
  match fuel, ws with
  | _, [] => []
  | 0%nat, _ => []
  | S fuel', _ => firstn 16 ws :: chunks fuel' (skipn 16 ws)
  end.

(** The message schedule, kept most recent word first. *)
Fixpoint schedule (count : nat) (recent : list Z) : list Z :=
  match count with
  | 0%nat => recent
  | S count' =>
      let w := w32 (sigma1 (nth 1 recent 0) + nth 6 recent 0
                    + sigma0 (nth 14 recent 0) + nth 15 recent 0) in
      schedule count' (w :: recent)
  end.

Record regs : Type := mkRegs { ra : Z; rb : Z; rc : Z; rd : Z; re : Z; rf : Z; rg : Z; rh : Z }.

Definition round (r : regs) (kw : Z * Z) : regs :=
  let t1 := rh r + Sigma1 (re r) + Ch (re r) (rf r) (rg r) + fst kw + snd kw in
  let t2 := Sigma0 (ra r) + Maj (ra r) (rb r) (rc r) in
  mkRegs (w32 (t1 + t2)) (ra r) (rb r) (rc r) (w32 (rd r + t1)) (re r) (rf r) (rg r).

Definition regs_of (h : list Z) : regs :=
  mkRegs (nth 0 h 0) (nth 1 h 0) (nth 2 h 0) (nth 3 h 0)
         (nth 4 h 0) (nth 5 h 0) (nth 6 h 0) (nth 7 h 0).

Definition compress (h : list Z) (block : list Z) : list Z :=
  let w := rev (schedule 48 (rev block)) in
  let r := fold_left round (combine K w) (regs_of h) in
  map (fun p => w32 (fst p + snd p))
      (combine h [ra r; rb r; rc r; rd r; re r; rf r; rg r; rh r]).

(** The 32 bytes of the digest. *)
Definition digest (msg : list Z) : list Z :=
  let padded := pad msg in
  let ws := words (List.length padded) padded in
  let h := fold_left compress (chunks (List.length ws) ws) H0 in
  flat_map (be_bytes 4) h.

End Sha256.

(* ================================================================== *)
(** ** The extracted schema (the objects the extractor builds)          *)
(* ================================================================== *)

Module Schema.

(** [{id, value, text, order}] of a selectable value. *)
Record PossibleValue : Type := mkPossibleValue {
  pv_id : option string;
  pv_value : option string;
  pv_text : option string;
  pv_order : Z
}.

Record Constraints : Type := mkConstraints {
  minLength : option Z;
  maxLength : option Z;
  min : option Z;
  max : option Z;
  pattern : option string;
  mask : option string;
  defaultValue : option string;
  minOccurs : Z;
  maxOccurs : Z;
  nillable : bool
}.

Record Metadata : Type := mkMetadata {
  isRepeating : option bool;
  isCollection : option bool;
  displayOrder : option Z;
  columnSpan : option Z
}.

(** A value of [fieldMap]: the union of the properties written by the
    dictionary pass and by the layout pass of [extractFields]. *)
Record FieldDescriptor : Type := mkFieldDescriptor {
  id : option string;
  key : option string;
  label : option string;
  type : option string;
  formId : option string;
  panelId : option string;
  sectionId : option string;
  location : option string;
  formManagerNodeId : option string;
  presetValueDefinitionId : option string;
  resourceId : option string;
  possibleValues : option (list PossibleValue);
  bindingPath : option string;
  path : option string;
  controlType : option string;
  required : option bool;
  resourceGroupId : option string;
  constraints : option Constraints;
  metadata : option Metadata
}.

(** [{id, name, elements}] built by [extractResourceGroups]. *)
Record ResourceGroup : Type := mkResourceGroup {
  rg_id : string;
  rg_name : string;
  rg_elements : option (list PossibleValue)
}.

End Schema.

(* ================================================================== *)
(** ** FormHashGenerator ([src/services/hash-generator.ts])             *)
(* ================================================================== *)

Module HashGenerator.
Import Js Schema.

(** The value found under [formData.fields] or [formData.resourceGroups]:
    nothing ([undefined] or [null]), another falsy value (0, the empty
    string, [false]), a truthy value that is no array (it has no [map]),
    or an array. *)
Inductive Slot (A : Type) : Type :=
| Missing
| Falsy
| NotArray
| ArrayOf (items : list A).
Arguments Missing {A}.
Arguments Falsy {A}.
Arguments NotArray {A}.
Arguments ArrayOf {A} items.

(** An object among [formData.fields]: its [id] as the generator finds it
    ([undefined], [null] or a string, which the two digests do not treat
    alike) and its other properties (the [id] of [f_descriptor] is not
    read). *)
Record Field : Type := mkField {
  f_id : jsopt string;
  f_descriptor : FieldDescriptor
}.

(** An object among [formData.resourceGroups], in the same way. *)
Record Group : Type := mkGroup {
  g_id : jsopt string;
  g_group : ResourceGroup
}.

(** The objects that the extractor builds. *)
Definition fieldOf (d : FieldDescriptor) : Field :=
  {| f_id := match id d with
             | Some s => Val s
             | None => Undefined
             end;
     f_descriptor := d |}.

Definition groupOf (g : ResourceGroup) : Group :=
  {| g_id := Val (rg_id g); g_group := g |}.

(** The part of [formData] the generator reads.  An array element that is
    [null] or [undefined] is [None]. *)
Record FormData : Type := mkFormData {
  formHierarchyCollectionId : option string;
  fields : Slot (option Field);
  resourceGroups : Slot (option Group)
}.

(** [{id, bindingPath}] and [{id, count}] of the simplified structure. *)
Record HashedField : Type := mkHashedField {
  hf_id : string;
  hf_bindingPath : option string
}.

Record HashedGroup : Type := mkHashedGroup {
  hg_id : string;
  hg_count : nat
}.

(** [(slot || [])] followed by a call of [map]. *)
Definition orEmptyArray {A : Type} (what : string) (s : Slot A) : Completion (list A) :=
  match s with
  | Missing | Falsy => Returned []
  | NotArray => Threw (notAFunction what)
  | ArrayOf items => Returned items
  end.

(** [String(x.id || '')]. *)
Definition idText (x : jsopt string) : string :=
  match x with
  | Val s => s
  | _ => ""
  end.

(** A callback that reads properties of the array element it is given:
    [null] and [undefined] have none. *)
Definition readElement {A B : Type} (project : A -> B) (x : option A) : Completion B :=
  match x with
  | None => Threw (cannotRead "id")
  | Some a => Returned (project a)
  end.

(** [f => ({ id: String(f.id || ''), bindingPath: f.bindingPath || null })]. *)
Definition projectField (f : Field) : HashedField :=
  {| hf_id := idText (f_id f);
     hf_bindingPath := orS (bindingPath (f_descriptor f)) None |}.

Definition hashedField : option Field -> Completion HashedField :=
  readElement projectField.

(** [g => ({ id: String(g.id || ''), count: g.elements?.length || 0 })]. *)
Definition projectGroup (g : Group) : HashedGroup :=
  {| hg_id := idText (g_id g);
     hg_count := match rg_elements (g_group g) with
                 | Some es => List.length es
                 | None => 0
                 end |}.

Definition hashedGroup : option Group -> Completion HashedGroup :=
  readElement projectGroup.

Definition jsonHashedField (f : HashedField) : string :=
  "{" ++ jsonString "id" ++ ":" ++ jsonString (hf_id f) ++ ","
      ++ jsonString "bindingPath" ++ ":" ++ jsonStringOrNull (hf_bindingPath f) ++ "}".

Definition jsonHashedGroup (g : HashedGroup) : string :=
  "{" ++ jsonString "id" ++ ":" ++ jsonString (hg_id g) ++ ","
      ++ jsonString "count" ++ ":" ++ jsonNat (hg_count g) ++ "}".

(** [JSON.stringify(structureHash)]. *)
Definition jsonStructure (fs : list HashedField) (gs : list HashedGroup) : string :=
  "{" ++ jsonString "fields" ++ ":" ++ jsonArray (map jsonHashedField fs) ++ ","
      ++ jsonString "resourceGroups" ++ ":" ++ jsonArray (map jsonHashedGroup gs) ++ "}".

(** [new TextEncoder().encode(s)]. *)
Definition encode (s : string) : list Z :=
  map (fun c => Z.of_nat (nat_of_ascii c)) (list_ascii_of_string s).

(** [hashArray.map(b => b.toString(16).padStart(2, '0')).join('')]. *)
Definition toHex (bytes : list Z) : string :=
  String.concat "" (map (fun b => hexByte (Z.to_nat b)) bytes).

Definition sha256Hex (s : string) : string := toHex (Sha256.digest (encode s)).

Section WithLocale.

(** [a.localeCompare(b)], which depends on the host's locale data. *)
Variable localeCompare : string -> string -> Z.

(** [(slot || []).map(callback).sort((a, b) => a.id.localeCompare(b.id))]. *)
Definition sortedById {A B : Type} (what : string) (callback : option A -> Completion B)
  (ident : B -> string) (s : Slot (option A)) : Completion (list B) :=
  xs <- orEmptyArray what s ;;
  hs <- mapM callback xs ;;
  Returned (sort (fun a b => localeCompare (ident a) (ident b)) hs).

(** The sorted simplified structure of [generateHash]. *)
Definition structureHash (formData : option FormData)
  : Completion (list HashedField * list HashedGroup) :=
  match formData with
  | None => Threw (cannotRead "fields")
  | Some fd =>
      hfs <- sortedById "(formData.fields || []).map" hashedField hf_id (fields fd) ;;
      hgs <- sortedById "(formData.resourceGroups || []).map" hashedGroup hg_id
               (resourceGroups fd) ;;
      Returned (hfs, hgs)
  end.

(** The [try] block of [generateHash]. *)
Definition generateHash_body (formData : option FormData) : Completion string :=
  sh <- structureHash formData ;;
  Returned (sha256Hex (jsonStructure (fst sh) (snd sh))).

(** [generateHash]: the [catch] block rethrows a fixed error. *)
Definition generateHash (formData : option FormData) : Settled :=
  match generateHash_body formData with
  | Returned hashHex => Resolved hashHex
  | Threw _ => Rejected (Error "Failed to generate form hash")
  end.

(** Two values of a slot that hold the same elements in some order. *)
Inductive SameElements {A : Type} : Slot A -> Slot A -> Prop :=
| same_missing : SameElements Missing Missing
| same_falsy : SameElements Falsy Falsy
| same_not_array : SameElements NotArray NotArray
| same_array (l1 l2 : list A) : Permutation l1 l2 -> SameElements (ArrayOf l1) (ArrayOf l2).

(** No tie is visible in the digest: two elements whose ids the comparator
    does not separate are hashed alike. *)
Definition tiesAgree {A B : Type} (project : A -> B) (ident : B -> string)
  (s : Slot (option A)) : Prop :=
  forall l x y, s = ArrayOf l -> In (Some x) l -> In (Some y) l ->
    (localeCompare (ident (project x)) (ident (project y)) <= 0)%Z ->
    (localeCompare (ident (project y)) (ident (project x)) <= 0)%Z ->
    project x = project y.

End WithLocale.

(** [ids.sort()] without comparator: the [undefined] elements go last,
    the other ones are ordered by their texts, which for [null] is the
    text null; the sort is stable. *)
Definition isUndefined (x : jsopt string) : bool :=
  match x with
  | Undefined => true
  | _ => false
  end.

Definition sortText (x : jsopt string) : string :=
  match x with
  | Val s => s
  | Null => "null"
  | Undefined => "undefined"
  end.

Definition defaultSort (l : list (jsopt string)) : list (jsopt string) :=
  sort (fun a b => compareCodeUnits (sortText a) (sortText b))
       (filter (fun x => negb (isUndefined x)) l)
  ++ filter isUndefined l.

(** [slot?.map(project).sort() || []]: the chain ends at [?.] for
    [undefined] and [null] only. *)
Definition sortedIds {A : Type} (what : string) (project : A -> jsopt string)
  (s : Slot (option A)) : Completion (list (jsopt string)) :=
  match s with
  | Missing => Returned []
  | Falsy | NotArray => Threw (notAFunction what)
  | ArrayOf items =>
      ids <- mapM (readElement project) items ;;
      Returned (defaultSort ids)
  end.

(** [formData.fields?.length || 0]; where the value is no array and has a
    length, the call of [map] that follows throws. *)
Definition fieldCount {A : Type} (s : Slot A) : nat :=
  match s with
  | ArrayOf items => List.length items
  | _ => 0
  end.

(** An array element in [JSON.stringify]: [undefined] and [null] are both
    written null. *)
Definition jsonId (x : jsopt string) : string :=
  match x with
  | Val s => jsonString s
  | _ => "null"
  end.

(** [JSON.stringify(quickData)]; an [undefined] formId is left out. *)
Definition jsonQuick (formId : option string) (count : nat)
  (fieldIds resourceGroupIds : list (jsopt string)) : string :=
  "{" ++ match formId with
         | Some s => jsonString "formId" ++ ":" ++ jsonString s ++ ","
         | None => ""
         end
      ++ jsonString "fieldCount" ++ ":" ++ jsonNat count ++ ","
      ++ jsonString "fieldIds" ++ ":" ++ jsonArray (map jsonId fieldIds) ++ ","
      ++ jsonString "resourceGroupIds" ++ ":" ++ jsonArray (map jsonId resourceGroupIds)
      ++ "}".

(** The [try] block of [generateQuickHash]. *)
Definition generateQuickHash_body (formData : option FormData) : Completion string :=
  match formData with
  | None => Threw (cannotRead "formHierarchyCollectionId")
  | Some fd =>
      fieldIds <- sortedIds "formData.fields?.map" f_id (fields fd) ;;
      groupIds <- sortedIds "formData.resourceGroups?.map" g_id (resourceGroups fd) ;;
      Returned (sha256Hex (jsonQuick (formHierarchyCollectionId fd)
                                     (fieldCount (fields fd)) fieldIds groupIds))
  end.

(** [generateQuickHash]: the [catch] block returns the empty string. *)
Definition generateQuickHash (formData : option FormData) : Settled :=
  match generateQuickHash_body formData with
  | Returned hashHex => Resolved hashHex
  | Threw _ => Resolved ""
  end.

End HashGenerator.

(* ================================================================== *)
(** ** The extractor ([imagetrendExtractor], src/background/api-client.ts) *)
(* ================================================================== *)

Module Extractor.
Import Js Schema.

(** *** The source graph *)

(** An entry of [formComposer.formFieldDictionary]. *)
Record DictField : Type := mkDictField {
  bpID : option string;
  bindingPathEntryId : option string;
  d_key : option string;
  d_type : option string;
  d_controlType : option string;
  formID : option string;
  panelID : option string;
  sectionID : option string;
  locationName : option string;
  formManagerNoDataNodeID : option string;
  presetValueDefinitionID : option string
}.

(** An element of a resource group's [Elements]. *)
Record Element : Type := mkElement {
  Id : option string;
  e_ID : option string;
  Value : option string;
  OriginalDisplayMember : option string;
  SortOrder : option Z;
  Order : option Z;
  e_ResourceGroupID : option string
}.

(** A truthy value found inside a top-level value of the resource table:
    its [Elements] array when it has one. *)
Record NestedGroup : Type := mkNestedGroup {
  n_Elements : option (list Element)
}.

(** A truthy top-level value of the resource table: its [Elements] array
    when it has one, and its other properties in enumeration order ([None]
    for a property holding a falsy value).  The property name Elements is
    reserved to the first component.  A truthy value that is not an object
    has no [Elements]: a number or [true] has no property at all, and the
    properties of a string (its characters and its length) are values
    without [Elements].  [extractResourceGroups] skips such a value, which
    is what it computes for an object whose properties hold no
    [Elements]. *)
Record TopLevel : Type := mkTopLevel {
  Elements : option (list Element);
  children : list (string * option NestedGroup)
}.

(** The resource table: its keys in enumeration order (the keys of an
    object are pairwise different), [None] for a falsy value ([null],
    [undefined], 0, the empty string, [false]) and [Some] for a truthy
    one. *)
Definition ResourceTable : Type := list (string * option TopLevel).

(** Controls live in a heap and refer to their children by reference, so
    that a control tree may share nodes or refer back to itself. *)
Definition ref : Type := nat.

Record Control : Type := mkControl {
  ID : option string;
  Name : option string;
  Label : option string;
  BindingPathEntryID : option string;
  BindingPath : option string;
  ControlType : option string;
  Required : option bool;
  ResourceGroupID : option string;
  IsRepeating : option bool;
  IsCollection : option bool;
  IsRequired : option bool;
  MaxCardinality : option Z;
  MinLength : option Z;
  MaxLength : option Z;
  MinValue : option Z;
  MaxValue : option Z;
  Pattern : option string;
  Mask : option string;
  DefaultValue : option string;
  FormManagerNoDataNodeID : option string;
  DisplayOrder : option Z;
  ColumnSpan : option Z;
  Controls : option (list ref)
}.

Record Panel : Type := mkPanel {
  p_Name : option string;
  p_Controls : option (list ref)
}.

Record Form : Type := mkForm {
  f_Name : option string;
  f_Panels : option (list Panel);
  f_Controls : option (list ref)
}.

(** A layout object: its forms and panels, and the properties that
    [findRepeaters] reads when it treats the layout as a node. *)
Record Layout : Type := mkLayout {
  Forms : option (list Form);
  Panels : option (list Panel);
  asNode : Control
}.

(** [formComposer.agencyLayouts]: missing, an array (whose elements may be
    [null]), or a single layout object. *)
Inductive Layouts : Type :=
| NoLayouts
| LayoutArray (layouts : list (option Layout))
| SingleLayout (layout : Layout).

(** Raw rule expressions. *)
Record Term : Type := mkTerm {
  t_BindingPathEntryID : option string;
  PathFromParentList : option string;
  t_Value : option string
}.

Record TermGroup : Type := mkTermGroup {
  Terms : option (list Term);
  CalculationOperatorID : jsopt Z
}.

Record RawExpression : Type := mkRawExpression {
  LeftTermGroup : option TermGroup;
  RightTermGroup : option TermGroup;
  ExpressionOperatorID : jsopt Z
}.

(** An expression group; an element of [Expressions] or of
    [ChildExpressionGroups] may be [null]. *)
Inductive RawGroup : Type :=
| mkRawGroup (BooleanOperatorID : jsopt Z)
             (Expressions : option (list (option RawExpression)))
             (ChildExpressionGroups : option (list (option RawGroup))).

(** An action of the logic engine or of [vmObservable.FormActions]. *)
Record Action : Type := mkAction {
  ActionType : option string;
  ActionID : option string;
  a_Name : option string;
  AffectedBindingPathEntryID : option string;
  ErrorMessage : option string;
  Points : option Z;
  FieldNodeID : option string;
  AffectedFormHierarchyId : option string;
  ComponentType : option string;
  ExpressionGroup : option RawGroup
}.

(** [vmObservable.FormActions]: the actions of each path. *)
Definition FormActionTable : Type := list (string * list Action).

(** *** The extracted rule objects *)

Record LeftTerm : Type := mkLeftTerm {
  lt_fieldId : option string;
  lt_path : option string;
  lt_value : option string
}.

Record RightTerm : Type := mkRightTerm {
  rt_values : list (option string);
  rt_operator : jsopt Z
}.

Record Comparison : Type := mkComparison {
  leftTerm : option LeftTerm;
  rightTerm : option RightTerm;
  operator : jsopt Z
}.

(** The result of [normalizeExpression] on a group: [expressions] and
    [childGroups] are [None] when the property holds [undefined]. *)
Inductive RuleExpression : Type :=
| mkRuleExpression (booleanOperator : jsopt Z)
                   (expressions : option (list Comparison))
                   (childGroups : option (list (option RuleExpression))).

Record Rule : Type := mkRule {
  r_type : string;
  r_id : option string;
  r_name : option string;
  r_targetField : option string;
  r_errorMessage : option string;
  r_points : option Z;
  r_componentType : option string;
  r_expression : option RuleExpression
}.

Record Repeater : Type := mkRepeater {
  rep_id : option string;
  rep_path : string;
  childBindings : option (list (option string))
}.

(** An element of a [Set<number>] of operators: the calculation set can
    also receive [null]. *)
Inductive SetElem : Type :=
| ElNull
| ElNum (n : Z).

Record OperatorAnalysis : Type := mkOperatorAnalysis {
  oa_expression : list SetElem;
  oa_boolean : list SetElem;
  oa_calculation : list SetElem
}.

(** *** Objects used as maps *)

(** [fieldMap]: the keys in insertion order.  (Keys are taken not to be
    property names of [Object.prototype].) *)
Definition FieldMap : Type := list (string * FieldDescriptor).

Fixpoint get {A : Type} (k : string) (m : list (string * A)) : option A :=
  match m with
  | [] => None
  | (k', v) :: m' => if k' =? k then Some v else get k m'
  end.

(** [m[k] = v]: an existing key keeps its place. *)
Fixpoint set {A : Type} (k : string) (v : A) (m : list (string * A)) : list (string * A) :=
  match m with
  | [] => [(k, v)]
  | (k', v') :: m' => if k' =? k then (k, v) :: m' else (k', v') :: set k v m'
  end.

(** The order in which an object lists its own properties: the keys that
    are array indices (the decimal form, without leading zero, of a number
    below 2^32 - 1) come first, by ascending number, and the other keys
    follow in insertion order. *)
Definition digitOf (c : ascii) : option N :=
  let n := nat_of_ascii c in
  if ((48 <=? n) && (n <=? 57))%nat then Some (N.of_nat (n - 48)) else None.

Fixpoint decimal (s : string) (acc : N) : option N :=
  match s with
  | EmptyString => Some acc
  | String c s' =>
      match digitOf c with
      | Some d => decimal s' (10 * acc + d)%N
      | None => None
      end
  end.

Definition arrayIndex (key : string) : option N :=
  match key with
  | EmptyString => None
  | String c rest =>
      if Ascii.eqb c "0" && negb (rest =? "") then None
      else match decimal key 0 with
           | Some n => if (n <? 4294967295)%N then Some n else None
           | None => None
           end
  end.

Definition isIndex {A : Type} (kv : string * A) : bool :=
  match arrayIndex (fst kv) with
  | Some _ => true
  | None => false
  end.

Definition byIndex {A : Type} (a b : string * A) : Z :=
  match arrayIndex (fst a), arrayIndex (fst b) with
  | Some i, Some j => (Z.of_N i - Z.of_N j)%Z
  | _, _ => 0%Z
  end.

Definition enumerated {A : Type} (m : list (string * A)) : list (string * A) :=
  sort byIndex (filter isIndex m) ++ filter (fun kv => negb (isIndex kv)) m.

(** [Object.values(m)]. *)
Definition values {A : Type} (m : list (string * A)) : list A := map snd (enumerated m).

(** *** extractFields: the dictionary pass *)

Definition numberOr0 (o : option Z) : Z :=
  match o with
  | Some n => n
  | None => 0%Z
  end.

(** [elem => ({ id: elem.Id, value: elem.Value,
                text: elem.OriginalDisplayMember || elem.Value,
                order: elem.SortOrder || 0 })]. *)
Definition possibleValue (elem : Element) : PossibleValue :=
  {| pv_id := Id elem;
     pv_value := Value elem;
     pv_text := orS (OriginalDisplayMember elem) (Value elem);
     pv_order := numberOr0 (SortOrder elem) |}.

(** [top[k]] when it is truthy: [Some es] gives the [Elements] of the
    object found ([None] when it has none; the [Elements] array itself has
    none). *)
Definition getProp (top : TopLevel) (k : string) : option (option (list Element)) :=
  if k =? "Elements" then
    match Elements top with
    | Some _ => Some None
    | None => None
    end
  else
    match get k (children top) with
    | Some (Some g) => Some (n_Elements g)
    | _ => None
    end.

(** The loop [for (const topKey in resources)] of the nested lookup, up to
    its [break]. *)
Fixpoint findNested (resourceId : string) (resources : ResourceTable)
  : option (option (list Element)) :=
  match resources with
  | [] => None
  | (_, None) :: rest => findNested resourceId rest
  | (_, Some top) :: rest =>
      match getProp top resourceId with
      | Some hit => Some hit
      | None => findNested resourceId rest
      end
  end.

(** The object literal assigned to [fieldMap[fieldId]]. *)
Definition baseDescriptor (field : DictField) : FieldDescriptor :=
  {| id := orS (bpID field) (bindingPathEntryId field);
     key := d_key field;
     label := d_key field;
     type := orS (d_type field) (d_controlType field);
     formId := formID field;
     panelId := panelID field;
     sectionId := sectionID field;
     location := locationName field;
     formManagerNodeId := formManagerNoDataNodeID field;
     presetValueDefinitionId := presetValueDefinitionID field;
     resourceId := None;
     possibleValues := Some [];
     bindingPath := None;
     path := None;
     controlType := None;
     required := None;
     resourceGroupId := None;
     constraints := None;
     metadata := None |}.

Definition withResource (d : FieldDescriptor) (resourceId : string)
  (elements : option (list Element)) : FieldDescriptor :=
  {| id := id d; key := key d; label := label d; type := type d;
     formId := formId d; panelId := panelId d; sectionId := sectionId d;
     location := location d; formManagerNodeId := formManagerNodeId d;
     presetValueDefinitionId := presetValueDefinitionId d;
     resourceId := Some resourceId;
     possibleValues := match elements with
                       | Some es => Some (map possibleValue es)
                       | None => possibleValues d
                       end;
     bindingPath := bindingPath d; path := path d;
     controlType := controlType d; required := required d;
     resourceGroupId := resourceGroupId d;
     constraints := constraints d; metadata := metadata d |}.

Definition isSelect (t : option string) : bool :=
  match t with
  | Some s => (s =? "SingleSelect") || (s =? "MultiSelect")
  | None => false
  end.

(** The resource lookup of a dictionary field: the direct entry first
    ([if (resources[resourceId])], a test for a truthy value), else the
    first truthy top-level value holding a truthy value under the id. *)
Definition resolveResource (resources : option ResourceTable) (field : DictField)
  (d : FieldDescriptor) : FieldDescriptor :=
  if isSelect (d_type field) then
    let resourceId := orS (bpID field) (bindingPathEntryId field) in
    match resourceId, resources with
    | Some rid, Some res =>
        if truthyS resourceId then
          match get rid res with
          | Some (Some top) => withResource d rid (Elements top)
          | _ =>
              match findNested rid res with
              | Some elements => withResource d rid elements
              | None => d
              end
          end
        else d
    | _, _ => d
    end
  else d.

(** The body of [dictionary.forEach]. *)
Definition addDictField (resources : option ResourceTable) (fieldMap : FieldMap)
  (field : DictField) : FieldMap :=
  let fieldId := orS (bpID field) (bindingPathEntryId field) in
  set (toStr fieldId) (resolveResource resources field (baseDescriptor field)) fieldMap.

Definition dictionaryPass (dictionary : option (list DictField))
  (resources : option ResourceTable) : FieldMap :=
  match dictionary with
  | Some entries => fold_left (addDictField resources) entries []
  | None => []
  end.

(** *** extractFields: the layout pass *)

Definition isString (o : option string) (s : string) : bool :=
  match o with
  | Some s' => s' =? s
  | None => false
  end.

(** The condition [isCollectionField] of [traverseControls] (the same in
    both branches). *)
Definition isCollectionField (control : Control) : bool :=
  (truthyS (ControlType control)
   && includes "grid" (toLowerCase (toStr (ControlType control))))
  || isString (ControlType control) "MultiSelect"
  || (truthyS (BindingPath control) && includes "[]" (toStr (BindingPath control)))
  || truthyB (IsRepeating control)
  || truthyB (IsCollection control)
  || (truthyZ (MaxCardinality control) && (numberOr0 (MaxCardinality control) >? 1)%Z).

(** The five signals of a multi-valued control as the specification words
    them: a control-type name containing the grid marker (in any case), the
    explicit multi-select type, array notation in the binding path, a
    repeating or collection flag, and a cardinality bound above 1. *)
Definition Contains (pat s : string) : Prop :=
  exists before after : string, s = (before ++ pat ++ after)%string.

(** A letter in either case. *)
Definition EitherCase (small capital c : ascii) : Prop := c = small \/ c = capital.

Definition GridMarker (control : Control) : Prop :=
  exists (before after : string) (g r i d : ascii),
    ControlType control = Some (before ++ String g (String r (String i (String d after))))%string
    /\ EitherCase "g" "G" g /\ EitherCase "r" "R" r
    /\ EitherCase "i" "I" i /\ EitherCase "d" "D" d.

Definition ExplicitMultiSelect (control : Control) : Prop :=
  ControlType control = Some "MultiSelect".

Definition ArrayNotation (control : Control) : Prop :=
  exists bp, BindingPath control = Some bp /\ Contains "[]" bp.

Definition RepeatingFlag (control : Control) : Prop :=
  IsRepeating control = Some true \/ IsCollection control = Some true.

Definition CardinalityAboveOne (control : Control) : Prop :=
  exists n, MaxCardinality control = Some n /\ (1 < n)%Z.

Definition MultiValued (control : Control) : Prop :=
  GridMarker control \/ ExplicitMultiSelect control \/ ArrayNotation control
  \/ RepeatingFlag control \/ CardinalityAboveOne control.

Definition controlConstraints (control : Control) : Constraints :=
  {| minLength := MinLength control;
     maxLength := MaxLength control;
     min := MinValue control;
     max := MaxValue control;
     pattern := Pattern control;
     mask := Mask control;
     defaultValue := DefaultValue control;
     minOccurs := if truthyB (IsRequired control) then 1%Z else 0%Z;
     maxOccurs := if isCollectionField control then (-1)%Z else 1%Z;
     nillable := truthyS (FormManagerNoDataNodeID control) |}.

Definition controlMetadata (control : Control) : Metadata :=
  {| isRepeating := IsRepeating control;
     isCollection := IsCollection control;
     displayOrder := DisplayOrder control;
     columnSpan := ColumnSpan control |}.

(** The branch [if (fieldMap[fieldId])]: the descriptor is updated in
    place. *)
Definition updateDescriptor (d : FieldDescriptor) (control : Control) : FieldDescriptor :=
  {| id := id d; key := key d; label := label d; type := type d;
     formId := formId d; panelId := panelId d; sectionId := sectionId d;
     location := location d; formManagerNodeId := formManagerNodeId d;
     presetValueDefinitionId := presetValueDefinitionId d;
     resourceId := resourceId d;
     possibleValues := possibleValues d;
     bindingPath := BindingPath control;
     path := path d;
     controlType := ControlType control;
     required := Required control;
     resourceGroupId := ResourceGroupID control;
     constraints := Some (controlConstraints control);
     metadata := Some (controlMetadata control) |}.

(** The branch for a field that is not in the dictionary. *)
Definition newDescriptor (fieldId : string) (control : Control) (path : string)
  : FieldDescriptor :=
  {| id := Some fieldId; key := None;
     label := Label control;
     type := ControlType control;
     formId := None; panelId := None; sectionId := None; location := None;
     formManagerNodeId := None; presetValueDefinitionId := None;
     resourceId := None;
     possibleValues := None;
     bindingPath := BindingPath control;
     path := Some (path ++ "/" ++ toStr (orS (orS (Name control) (Label control))
                                             (Some "field")))%string;
     controlType := None;
     required := Required control;
     resourceGroupId := ResourceGroupID control;
     constraints := Some (controlConstraints control);
     metadata := Some (controlMetadata control) |}.

(** [d] has the attributes that the layout pass takes from [control]. *)
Definition LayoutSourced (d : FieldDescriptor) (control : Control) : Prop :=
  bindingPath d = BindingPath control
  /\ controlType d = ControlType control
  /\ required d = Required control
  /\ resourceGroupId d = ResourceGroupID control
  /\ constraints d = Some (controlConstraints control)
  /\ metadata d = Some (controlMetadata control).

(** [d] has the attributes that the dictionary pass gave to [d0]. *)
Definition DictionarySourced (d d0 : FieldDescriptor) : Prop :=
  id d = id d0 /\ key d = key d0 /\ label d = label d0 /\ type d = type d0
  /\ formId d = formId d0 /\ panelId d = panelId d0 /\ sectionId d = sectionId d0
  /\ resourceId d = resourceId d0 /\ possibleValues d = possibleValues d0.

(** What the callback of [controls.forEach] does with the control itself. *)
Definition visit (control : Control) (path : string) (fieldMap : FieldMap) : FieldMap :=
  if truthyS (BindingPathEntryID control) then
    let fieldId := toStr (BindingPathEntryID control) in
    match get fieldId fieldMap with
    | Some d => set fieldId (updateDescriptor d control) fieldMap
    | None => set fieldId (newDescriptor fieldId control path) fieldMap
    end
  else fieldMap.

Section WithHeap.

Variable heap : ref -> Control.

(** [traverseControls], by recursion on the number [left] of levels that
    remain below the ceiling: [left = 11 - depth], so that the guard
    [depth > 10] is [left = 0]. *)
Fixpoint traverseLevels (left : nat) (controls : list ref) (path : string)
  (fieldMap : FieldMap) : FieldMap :=
  match left with
  | 0 => fieldMap
  | S left' =>
      fold_left
        (fun fm r =>
           let control := heap r in
           let fm' := visit control path fm in
           match Controls control with
           | Some cs =>
               traverseLevels left' cs
                 (path ++ "/" ++ toStr (orS (Name control) (Some "group")))%string fm'
           | None => fm'
           end)
        controls fieldMap
  end.

Definition traverseControls (controls : option (list ref)) (path : string)
  (depth : nat) (fieldMap : FieldMap) : FieldMap :=
  match controls with
  | Some cs => traverseLevels (11 - depth) cs path fieldMap
  | None => fieldMap
  end.

Definition traversePanels (prefix : string) (panels : list Panel) (fieldMap : FieldMap)
  : FieldMap :=
  fold_left
    (fun fm panel =>
       traverseControls (p_Controls panel)
         (prefix ++ "Panel[" ++ toStr (p_Name panel) ++ "]")%string 0 fm)
    panels fieldMap.

(** The callback of [layout.Forms.forEach]. *)
Definition traverseForm (formIndex : nat) (form : Form) (fieldMap : FieldMap) : FieldMap :=
  let here := ("Form[" ++ jsonNat formIndex ++ "]")%string in
  let fm :=
    match f_Panels form with
    | Some panels => traversePanels (here ++ "/")%string panels fieldMap
    | None => fieldMap
    end in
  match f_Controls form with
  | Some cs => traverseControls (Some cs) here 0 fm
  | None => fm
  end.

Fixpoint traverseFormsFrom (formIndex : nat) (forms : list Form) (fieldMap : FieldMap)
  : FieldMap :=
  match forms with
  | [] => fieldMap
  | form :: rest => traverseFormsFrom (S formIndex) rest (traverseForm formIndex form fieldMap)
  end.

Definition traverseForms (layout : option Layout) (fieldMap : FieldMap) : FieldMap :=
  match layout with
  | None => fieldMap
  | Some layout =>
      let fm :=
        match Forms layout with
        | Some forms => traverseFormsFrom 0 forms fieldMap
        | None => fieldMap
        end in
      match Panels layout with
      | Some panels => traversePanels "" panels fm
      | None => fm
      end
  end.

Definition extractFields (layouts : Layouts) (dictionary : option (list DictField))
  (resources : option ResourceTable) : list FieldDescriptor :=
  let fieldMap := dictionaryPass dictionary resources in
  match layouts with
  | NoLayouts => values fieldMap
  | LayoutArray ls => values (fold_left (fun fm layout => traverseForms layout fm) ls fieldMap)
  | SingleLayout layout => values (traverseForms (Some layout) fieldMap)
  end.

(** The controls that the layout pass reaches: [Below left cs c] when the
    traversal of [cs] with [left] levels left below the ceiling visits
    [c]. *)
Inductive Below : nat -> list ref -> Control -> Prop :=
| below_here (left : nat) (r : ref) (cs : list ref) :
    In r cs -> Below (S left) cs (heap r)
| below_child (left : nat) (r : ref) (cs cs' : list ref) (c : Control) :
    In r cs -> Controls (heap r) = Some cs' -> Below left cs' c -> Below (S left) cs c.

(** The controls of the tree under [cs], at any depth. *)
Inductive Descendant : list ref -> Control -> Prop :=
| descendant_here (r : ref) (cs : list ref) :
    In r cs -> Descendant cs (heap r)
| descendant_child (r : ref) (cs cs' : list ref) (c : Control) :
    In r cs -> Controls (heap r) = Some cs' -> Descendant cs' c -> Descendant cs c.

Inductive InPanels (panels : list Panel) (c : Control) : Prop :=
| in_panel (panel : Panel) (cs : list ref) :
    In panel panels -> p_Controls panel = Some cs -> Below 11 cs c -> InPanels panels c.

Definition InForm (form : Form) (c : Control) : Prop :=
  (exists panels, f_Panels form = Some panels /\ InPanels panels c)
  \/ (exists cs, f_Controls form = Some cs /\ Below 11 cs c).

Inductive InLayout (layout : Layout) (c : Control) : Prop :=
| in_form_panels (forms : list Form) (form : Form) (panels : list Panel) :
    Forms layout = Some forms -> In form forms -> f_Panels form = Some panels ->
    InPanels panels c -> InLayout layout c
| in_form_controls (forms : list Form) (form : Form) (cs : list ref) :
    Forms layout = Some forms -> In form forms -> f_Controls form = Some cs ->
    Below 11 cs c -> InLayout layout c
| in_layout_panels (panels : list Panel) :
    Panels layout = Some panels -> InPanels panels c -> InLayout layout c.

Inductive InLayouts : Layouts -> Control -> Prop :=
| in_layout_array (ls : list (option Layout)) (layout : Layout) (c : Control) :
    In (Some layout) ls -> InLayout layout c -> InLayouts (LayoutArray ls) c
| in_single_layout (layout : Layout) (c : Control) :
    InLayout layout c -> InLayouts (SingleLayout layout) c.

(** *** The order of the visits

    The controls at which the layout pass runs the callback of
    [controls.forEach], in the order of the calls and each with the path of
    its call: a control comes before its children and these before the
    next control of the list; in a form the panels come before the direct
    controls, in a layout the forms before the direct panels, and the
    layouts of an array in the order of the array.  Below the ceiling
    nothing is visited. *)
Fixpoint visitsLevels (left : nat) (controls : list ref) (path : string)
  : list (Control * string) :=
  match left with
  | 0 => []
  | S left' =>
      flat_map
        (fun r =>
           (heap r, path)
           :: match Controls (heap r) with
              | Some cs =>
                  visitsLevels left' cs
                    (path ++ "/" ++ toStr (orS (Name (heap r)) (Some "group")))%string
              | None => []
              end)
        controls
  end.

Definition visitsPanels (prefix : string) (panels : list Panel) : list (Control * string) :=
  flat_map
    (fun panel =>
       match p_Controls panel with
       | Some cs =>
           visitsLevels 11 cs (prefix ++ "Panel[" ++ toStr (p_Name panel) ++ "]")%string
       | None => []
       end)
    panels.

Definition visitsForm (formIndex : nat) (form : Form) : list (Control * string) :=
  let here := ("Form[" ++ jsonNat formIndex ++ "]")%string in
  match f_Panels form with
  | Some panels => visitsPanels (here ++ "/")%string panels
  | None => []
  end
  ++ match f_Controls form with
     | Some cs => visitsLevels 11 cs here
     | None => []
     end.

Fixpoint visitsFormsFrom (formIndex : nat) (forms : list Form) : list (Control * string) :=
  match forms with
  | [] => []
  | form :: rest => visitsForm formIndex form ++ visitsFormsFrom (S formIndex) rest
  end.

Definition visitsLayout (layout : option Layout) : list (Control * string) :=
  match layout with
  | None => []
  | Some layout =>
      match Forms layout with
      | Some forms => visitsFormsFrom 0 forms
      | None => []
      end
      ++ match Panels layout with
         | Some panels => visitsPanels "" panels
         | None => []
         end
  end.

Definition visits (layouts : Layouts) : list (Control * string) :=
  match layouts with
  | NoLayouts => []
  | LayoutArray ls => flat_map visitsLayout ls
  | SingleLayout layout => visitsLayout (Some layout)
  end.

(** *** extractRepeaters *)

Definition repeaterOf (node : Control) (path : string) : Repeater :=
  {| rep_id := ID node;
     rep_path := (path ++ "/" ++ toStr (Name node))%string;
     childBindings :=
       option_map (map (fun c => BindingPathEntryID (heap c))) (Controls node) |}.

(** [findRepeaters]: the recursion has no guard of its own, so it ends when
    the children run out or when the call stack does.  [stack] is the
    number of nested calls the engine still has room for. *)
Fixpoint findRepeaters (stack : nat) (node : Control) (path : string)
  (repeaters : list Repeater) : Completion (list Repeater) :=
  match stack with
  | 0 => Threw (RangeError "Maximum call stack size exceeded")
  | S stack' =>
      let found :=
        if truthyB (IsRepeating node) || isString (ControlType node) "Repeater"
        then repeaters ++ [repeaterOf node path]
        else repeaters in
      match Controls node with
      | Some cs =>
          foldM (fun child acc =>
                   findRepeaters stack' (heap child)
                     (path ++ "/" ++ toStr (Name node))%string acc)
                cs found
      | None => Returned found
      end
  end.

(** [layouts?.forEach(layout => findRepeaters(layout))]: a single layout
    object has no [forEach]. *)
Definition extractRepeaters (stack : nat) (layouts : Layouts) : Completion (list Repeater) :=
  match layouts with
  | NoLayouts => Returned []
  | SingleLayout _ => Threw (notAFunction "layouts?.forEach")
  | LayoutArray ls =>
      foldM (fun layout acc =>
               match layout with
               | Some l => findRepeaters stack (asNode l) "" acc
               | None => Returned acc
               end)
            ls []
  end.

End WithHeap.

(** The callback run at each control of a list of visits, in order. *)
Definition replay (calls : list (Control * string)) (fieldMap : FieldMap) : FieldMap :=
  fold_left (fun fm call => visit (fst call) (snd call) fm) calls fieldMap.

(** Among the visits [calls], [c] is the last control that carries the
    field id [k]. *)
Definition LastVisited (k : string) (c : Control) (calls : list (Control * string)) : Prop :=
  exists earlier path later,
    calls = earlier ++ (c, path) :: later
    /\ BindingPathEntryID c = Some k
    /\ Forall (fun call => BindingPathEntryID (fst call) <> Some k) later.

(** *** Invariant of the layout pass

    For a field id [k] whose descriptor the dictionary pass made as [d0]:
    the descriptor of [k] still has its dictionary attributes. *)
Definition Seeded (k : string) (d0 : FieldDescriptor) (fm : FieldMap) : Prop :=
  exists d, get k fm = Some d /\ DictionarySourced d d0.

(** *** extractResourceGroups *)

(** [elem => ({ id: elem.Id || elem.ID, value: elem.Value,
                text: elem.OriginalDisplayMember || elem.Value,
                order: elem.SortOrder || elem.Order || 0 })]. *)
Definition groupElement (elem : Element) : PossibleValue :=
  {| pv_id := orS (Id elem) (e_ID elem);
     pv_value := Value elem;
     pv_text := orS (OriginalDisplayMember elem) (Value elem);
     pv_order := numberOr0 (orZ (SortOrder elem) (Order elem)) |}.

Definition resourceGroup (groupKey : string) (elements : list Element) : ResourceGroup :=
  {| rg_id := groupKey;
     rg_name := toStr (orS (match elements with
                            | e :: _ => e_ResourceGroupID e
                            | [] => None
                            end) (Some groupKey));
     rg_elements := Some (map groupElement elements) |}.

Definition nestedGroups (top : TopLevel) : list ResourceGroup :=
  flat_map (fun entry =>
              match snd entry with
              | Some g =>
                  match n_Elements g with
                  | Some es => [resourceGroup (fst entry) es]
                  | None => []
                  end
              | None => []
              end)
           (children top).

Definition extractResourceGroups (resources : option ResourceTable) : list ResourceGroup :=
  match resources with
  | None => []
  | Some res =>
      flat_map (fun entry =>
                  match snd entry with
                  | None => []
                  | Some top =>
                      match Elements top with
                      | Some es => [resourceGroup (fst entry) es]
                      | None => nestedGroups top
                      end
                  end)
               res
  end.

(** *** normalizeExpression and extractRules *)

(** The callback of [expr.Expressions?.map]. *)
Definition normalizeComparison (exp : option RawExpression) : Completion Comparison :=
  match exp with
  | None => Threw (cannotReadNull "LeftTermGroup")
  | Some exp =>
      Returned
        {| leftTerm :=
             match LeftTermGroup exp with
             | Some tg =>
                 match Terms tg with
                 | Some (t :: _) =>
                     Some {| lt_fieldId := t_BindingPathEntryID t;
                             lt_path := PathFromParentList t;
                             lt_value := t_Value t |}
                 | _ => None
                 end
             | None => None
             end;
           rightTerm :=
             match RightTermGroup exp with
             | Some tg =>
                 match Terms tg with
                 | Some ts => Some {| rt_values := map t_Value ts;
                                      rt_operator := CalculationOperatorID tg |}
                 | None => None
                 end
             | None => None
             end;
           operator := ExpressionOperatorID exp |}
  end.

(** [list?.map(f)]: [undefined] when the list is missing. *)
Definition optionalMap {A B : Type} (f : A -> Completion B) (l : option (list A))
  : Completion (option (list B)) :=
  match l with
  | Some xs => ys <- mapM f xs ;; Returned (Some ys)
  | None => Returned None
  end.

(** [normalizeExpression] on a group that is present. *)
Fixpoint normalizeGroup (expr : RawGroup) : Completion RuleExpression :=
  match expr with
  | mkRawGroup boolOp exps groups =>
      es <- optionalMap normalizeComparison exps ;;
      gs <- optionalMap (fun group =>
                           match group with
                           | Some g => r <- normalizeGroup g ;; Returned (Some r)
                           | None => Returned None
                           end) groups ;;
      Returned (mkRuleExpression boolOp es gs)
  end.

Definition normalizeExpression (expr : option RawGroup) : Completion (option RuleExpression) :=
  match expr with
  | None => Returned None
  | Some g => r <- normalizeGroup g ;; Returned (Some r)
  end.

(** Two optional values that are both missing or both present and
    related. *)
Inductive bothOrNeither {A B : Type} (rel : A -> B -> Prop) : option A -> option B -> Prop :=
| neither : bothOrNeither rel None None
| both (a : A) (b : B) : rel a b -> bothOrNeither rel (Some a) (Some b).

(** The normalised expression follows the raw one at every level: [null]
    for a missing group, a missing list for a missing list, and otherwise
    a list of the same length whose groups follow the raw child groups. *)
Inductive Mirrors : option RawGroup -> option RuleExpression -> Prop :=
| mirrors_null : Mirrors None None
| mirrors_group (boolOp : jsopt Z) exps groups es gs :
    bothOrNeither (fun l l' => List.length l = List.length l') exps es ->
    bothOrNeither (Forall2 Mirrors) groups gs ->
    Mirrors (Some (mkRawGroup boolOp exps groups)) (Some (mkRuleExpression boolOp es gs)).

(** No list of comparisons holds a [null] entry, at any level. *)
Fixpoint noNullComparison (g : RawGroup) : bool :=
  match g with
  | mkRawGroup _ exps groups =>
      match exps with
      | Some l => forallb (fun e => match e with Some _ => true | None => false end) l
      | None => true
      end
      && match groups with
         | Some l => forallb (fun og => match og with
                                        | Some g' => noNullComparison g'
                                        | None => true
                                        end) l
         | None => true
         end
  end.

Definition validationRule (rule : Action) : Completion Rule :=
  e <- normalizeExpression (ExpressionGroup rule) ;;
  Returned {| r_type := "validation";
              r_id := ActionID rule;
              r_name := a_Name rule;
              r_targetField := AffectedBindingPathEntryID rule;
              r_errorMessage := ErrorMessage rule;
              r_points := Points rule;
              r_componentType := None;
              r_expression := e |}.

Definition visibilityRule (rule : Action) : Completion Rule :=
  e <- normalizeExpression (ExpressionGroup rule) ;;
  Returned {| r_type := "visibility";
              r_id := ActionID rule;
              r_name := None;
              r_targetField := orS (FieldNodeID rule) (AffectedFormHierarchyId rule);
              r_errorMessage := None;
              r_points := None;
              r_componentType := ComponentType rule;
              r_expression := e |}.

(** One of the two loops of [extractRules]: the actions of the given type
    are normalised and pushed. *)
Definition pushRules (actionType : string) (make : Action -> Completion Rule)
  (actions : option (list (option Action))) (rules : list Rule) : Completion (list Rule) :=
  match actions with
  | Some l =>
      foldM (fun rule acc =>
               match rule with
               | Some r =>
                   if isString (ActionType r) actionType
                   then x <- make r ;; Returned (acc ++ [x])
                   else Returned acc
               | None => Returned acc
               end)
            l rules
  | None => Returned rules
  end.

Definition extractRules (validations visibilities : option (list (option Action)))
  : Completion (list Rule) :=
  rules <- pushRules "Validation" validationRule validations [] ;;
  pushRules "Visibility" visibilityRule visibilities rules.

(** *** extractFormActions *)

(** Every own property of the action is copied. *)
Definition copyAction (action : Action) : Action :=
  {| ActionType := ActionType action;
     ActionID := ActionID action;
     a_Name := a_Name action;
     AffectedBindingPathEntryID := AffectedBindingPathEntryID action;
     ErrorMessage := ErrorMessage action;
     Points := Points action;
     FieldNodeID := FieldNodeID action;
     AffectedFormHierarchyId := AffectedFormHierarchyId action;
     ComponentType := ComponentType action;
     ExpressionGroup := ExpressionGroup action |}.

Definition extractFormActions (formActions : option FormActionTable)
  : option FormActionTable :=
  match formActions with
  | None => None
  | Some table =>
      Some (fold_left (fun extracted entry =>
                         set (fst entry) (map copyAction (snd entry)) extracted)
                      table [])
  end.

(** *** analyzeOperators *)

Record OpSets : Type := mkOpSets {
  expressionOps : list SetElem;
  booleanOps : list SetElem;
  calculationOps : list SetElem
}.

Definition elemEqb (a b : SetElem) : bool :=
  match a, b with
  | ElNull, ElNull => true
  | ElNum x, ElNum y => (x =? y)%Z
  | _, _ => false
  end.

(** [set.add(x)]; the list keeps the insertion order of [Array.from]. *)
Definition setAdd (x : SetElem) (s : list SetElem) : list SetElem :=
  if existsb (elemEqb x) s then s else s ++ [x].

(** The number an element stands for in [a - b] ([null] is 0). *)
Definition toNumber (e : SetElem) : Z :=
  match e with
  | ElNull => 0%Z
  | ElNum n => n
  end.

Definition byDifference (a b : SetElem) : Z := (toNumber a - toNumber b)%Z.

(** [if (x !== undefined && x !== null) ops.add(x)]. *)
Definition addDefined (x : jsopt Z) (s : list SetElem) : list SetElem :=
  match x with
  | Val n => setAdd (ElNum n) s
  | _ => s
  end.

(** [if (termGroup?.CalculationOperatorID !== undefined) ops.add(...)]. *)
Definition addCalculation (termGroup : option TermGroup) (s : list SetElem) : list SetElem :=
  match termGroup with
  | None => s
  | Some tg =>
      match CalculationOperatorID tg with
      | Undefined => s
      | Null => setAdd ElNull s
      | Val n => setAdd (ElNum n) s
      end
  end.

(** The callback of [expr.Expressions.forEach]. *)
Definition analyzeComparison (exp : option RawExpression) (sets : OpSets) : Completion OpSets :=
  match exp with
  | None => Threw (cannotReadNull "ExpressionOperatorID")
  | Some exp =>
      Returned
        {| expressionOps := addDefined (ExpressionOperatorID exp) (expressionOps sets);
           booleanOps := booleanOps sets;
           calculationOps :=
             addCalculation (RightTermGroup exp)
               (addCalculation (LeftTermGroup exp) (calculationOps sets)) |}
  end.

Fixpoint analyzeExpression (expr : RawGroup) (sets : OpSets) : Completion OpSets :=
  match expr with
  | mkRawGroup boolOp exps groups =>
      let sets1 := {| expressionOps := expressionOps sets;
                      booleanOps := addDefined boolOp (booleanOps sets);
                      calculationOps := calculationOps sets |} in
      sets2 <- match exps with
               | Some l => foldM analyzeComparison l sets1
               | None => Returned sets1
               end ;;
      match groups with
      | Some l =>
          foldM (fun group s =>
                   match group with
                   | Some g => analyzeExpression g s
                   | None => Returned s
                   end)
                l sets2
      | None => Returned sets2
      end
  end.

(** [Object.values(formActions).flat()]. *)
Definition allActions (table : FormActionTable) : list Action :=
  List.concat (map snd table).

Definition analyzeOperators (formActions : option FormActionTable)
  : Completion (option OperatorAnalysis) :=
  match formActions with
  | None => Returned None
  | Some table =>
      sets <- foldM (fun action s =>
                       match ExpressionGroup action with
                       | Some g => analyzeExpression g s
                       | None => Returned s
                       end)
                    (allActions table) (mkOpSets [] [] []) ;;
      Returned (Some {| oa_expression := sort byDifference (expressionOps sets);
                        oa_boolean := sort byDifference (booleanOps sets);
                        oa_calculation := sort byDifference (calculationOps sets) |})
  end.

(** Well-formed form actions: no list of comparisons holds [null], and no
    term group has [CalculationOperatorID: null]. *)
Definition calculationNotNull (termGroup : option TermGroup) : bool :=
  match termGroup with
  | Some tg =>
      match CalculationOperatorID tg with
      | Null => false
      | _ => true
      end
  | None => true
  end.

Definition comparisonWellFormed (exp : option RawExpression) : bool :=
  match exp with
  | Some e => calculationNotNull (LeftTermGroup e) && calculationNotNull (RightTermGroup e)
  | None => false
  end.

Fixpoint groupWellFormed (g : RawGroup) : bool :=
  match g with
  | mkRawGroup _ exps groups =>
      match exps with
      | Some l => forallb comparisonWellFormed l
      | None => true
      end
      && match groups with
         | Some l => forallb (fun og => match og with
                                        | Some g' => groupWellFormed g'
                                        | None => true
                                        end) l
         | None => true
         end
  end.

Definition actionWellFormed (action : Action) : bool :=
  match ExpressionGroup action with
  | Some g => groupWellFormed g
  | None => true
  end.

(** A set of operator codes: no duplicate, no [null]. *)
Definition Codes (s : list SetElem) : Prop :=
  NoDup s /\ Forall (fun e => e <> ElNull) s.

Definition CodeSets (sets : OpSets) : Prop :=
  Codes (expressionOps sets) /\ Codes (booleanOps sets) /\ Codes (calculationOps sets).

(** A list of operator codes in strictly ascending order (hence without
    duplicates). *)
Definition Ascending (l : list SetElem) : Prop :=
  exists ns, l = map ElNum ns /\ StronglySorted Z.lt ns.

(** *** extractFormMapping *)

Record FormComposer : Type := mkFormComposer {
  formHierarchyCollectionId : option string;
  reportingStandardId : option string;
  agencyLayouts : Layouts;
  formFieldDictionary : option (list DictField);
  agencyResources : option ResourceTable
}.

Record LogicEngine : Type := mkLogicEngine {
  indexedValidationActions : option (list (option Action));
  indexedVisibilityActions : option (list (option Action))
}.

Record VmObservable : Type := mkVmObservable {
  Resources : option ResourceTable;
  FormActions : option FormActionTable
}.

(** What the page offers when an extraction is requested:
    [win.imagetrend?.formComposer || composer], [win.imagetrend?.logicEngine]
    and [composer?.vmObservable?.()]. *)
Record Page : Type := mkPage {
  formComposer : option FormComposer;
  logicEngine : option LogicEngine;
  vmObservable : option VmObservable
}.

Record Stats : Type := mkStats {
  st_fieldCount : nat;
  st_resourceGroupCount : nat;
  st_ruleCount : nat;
  st_repeaterCount : nat;
  st_fieldsWithBindingPath : nat;
  st_formActionCount : nat;
  st_validationRuleCount : nat;
  st_uniqueOperators : nat
}.

(** The payload of the message [IMAGETREND_DATA] (without the timestamp,
    the location of the page and the key lists of [debug]). *)
Record FormMapping : Type := mkFormMapping {
  fm_formHierarchyCollectionId : option string;
  fm_reportingStandardId : option string;
  fm_sampleLayout : option string;
  fm_fields : list FieldDescriptor;
  fm_resourceGroups : list ResourceGroup;
  fm_formActions : option FormActionTable;
  fm_operators : option OperatorAnalysis;
  fm_rules : list Rule;
  fm_repeaters : list Repeater;
  fm_stats : Stats
}.

(** The message posted to the content script. *)
Inductive Message : Type :=
| IMAGETREND_DATA (payload : FormMapping)
| IMAGETREND_ERROR (error : Exn).

Definition countWhere {A : Type} (p : A -> bool) (l : list A) : nat :=
  List.length (filter p l).

Definition statsOf (fields : list FieldDescriptor) (groups : list ResourceGroup)
  (formActions : option FormActionTable) (operators : option OperatorAnalysis)
  (rules : list Rule) (repeaters : list Repeater) : Stats :=
  {| st_fieldCount := List.length fields;
     st_resourceGroupCount := List.length groups;
     st_ruleCount := List.length rules;
     st_repeaterCount := List.length repeaters;
     st_fieldsWithBindingPath := countWhere (fun f => truthyS (bindingPath f)) fields;
     st_formActionCount :=
       match formActions with
       | Some table => List.length (allActions table)
       | None => 0
       end;
     st_validationRuleCount :=
       match formActions with
       | Some table =>
           countWhere (fun a => isString (ActionType a) "Validation") (allActions table)
       | None => 0
       end;
     st_uniqueOperators :=
       match operators with
       | Some ops => List.length (oa_expression ops)
       | None => 0
       end |}.

Section Orchestrator.

Variable heap : ref -> Control.

(** [JSON.stringify] of a whole layout object (used for [debug.sampleLayout]
    only); it throws a [TypeError] on a circular structure. *)
Variable stringifyLayout : Layout -> Completion string.

(** Room on the call stack, see [findRepeaters]. *)
Variable stack : nat.

(** [agencyLayouts?.[0] ? JSON.stringify(agencyLayouts[0]).substring(0, 500) : null]. *)
Definition sampleLayout (layouts : Layouts) : Completion (option string) :=
  match layouts with
  | LayoutArray (Some l :: _) =>
      s <- stringifyLayout l ;; Returned (Some (substring 0 500 s))
  | _ => Returned None
  end.

(** [vmObservable?.Resources || formComposer?.agencyResources]. *)
Definition resourcesOf (page : Page) (fc : FormComposer) : option ResourceTable :=
  match vmObservable page with
  | Some vm =>
      match Resources vm with
      | Some r => Some r
      | None => agencyResources fc
      end
  | None => agencyResources fc
  end.

Definition formActionsOf (page : Page) : option FormActionTable :=
  match vmObservable page with
  | Some vm => FormActions vm
  | None => None
  end.

(** [logicEngine?.indexedValidationActions] and
    [logicEngine?.indexedVisibilityActions]. *)
Definition validationsOf (page : Page) : option (list (option Action)) :=
  match logicEngine page with
  | Some le => indexedValidationActions le
  | None => None
  end.

Definition visibilitiesOf (page : Page) : option (list (option Action)) :=
  match logicEngine page with
  | Some le => indexedVisibilityActions le
  | None => None
  end.

(** The [try] block of [extractFormMapping]: the properties of [formData]
    are evaluated in the order of the object literal. *)
Definition extractFormMapping_body (page : Page) : Completion FormMapping :=
  match formComposer page with
  | None => Threw (cannotRead "formHierarchyCollectionId")
  | Some fc =>
      sample <- sampleLayout (agencyLayouts fc) ;;
      let fields := extractFields heap (agencyLayouts fc) (formFieldDictionary fc)
                      (resourcesOf page fc) in
      let groups := extractResourceGroups (resourcesOf page fc) in
      let formActions := extractFormActions (formActionsOf page) in
      operators <- analyzeOperators (formActionsOf page) ;;
      rules <- extractRules (validationsOf page) (visibilitiesOf page) ;;
      repeaters <- extractRepeaters heap stack (agencyLayouts fc) ;;
      Returned {| fm_formHierarchyCollectionId := formHierarchyCollectionId fc;
                  fm_reportingStandardId := reportingStandardId fc;
                  fm_sampleLayout := sample;
                  fm_fields := fields;
                  fm_resourceGroups := groups;
                  fm_formActions := formActions;
                  fm_operators := operators;
                  fm_rules := rules;
                  fm_repeaters := repeaters;
                  fm_stats := statsOf fields groups formActions operators rules repeaters |}
  end.

(** [extractFormMapping]: one [try] around the whole extraction; the
    [catch] posts the error. *)
Definition extractFormMapping (page : Page) : Message :=
  match extractFormMapping_body page with
  | Returned formData => IMAGETREND_DATA formData
  | Threw error => IMAGETREND_ERROR error
  end.

End Orchestrator.

End Extractor.

(* ================================================================== *)
(** ** Concrete inputs used by the examples below                       *)
(* ================================================================== *)

Module Scenarios.
Import Js Schema Extractor.

(** A descriptor and a resource group with the given hashed properties. *)
Definition fieldWith (fieldId : string) (bp : option string) : FieldDescriptor :=
  {| id := Some fieldId; key := None; label := None; type := None;
     formId := None; panelId := None; sectionId := None; location := None;
     formManagerNodeId := None; presetValueDefinitionId := None;
     resourceId := None; possibleValues := Some []; bindingPath := bp;
     path := None; controlType := None; required := None;
     resourceGroupId := None; constraints := None; metadata := None |}.

Definition valueOf (v : string) : PossibleValue :=
  {| pv_id := Some v; pv_value := Some v; pv_text := Some v; pv_order := 0%Z |}.

Definition groupWith (groupId : string) (elements : list PossibleValue) : ResourceGroup :=
  {| rg_id := groupId; rg_name := groupId; rg_elements := Some elements |}.

(** Two resource tables that differ in the order of their keys only; both
    containers hold a group called G, with one and with no element. *)
Definition containerWith (groupKey : string) (elements : list Extractor.Element)
  : option Extractor.TopLevel :=
  Some {| Extractor.Elements := None;
          Extractor.children :=
            [(groupKey, Some {| Extractor.n_Elements := Some elements |})] |}.

Definition oneYes : Extractor.Element :=
  {| Extractor.Id := Some "1"; Extractor.e_ID := None; Extractor.Value := Some "Y";
     Extractor.OriginalDisplayMember := None; Extractor.SortOrder := Some 0%Z;
     Extractor.Order := None; Extractor.e_ResourceGroupID := None |}.

Definition twoContainers : Extractor.ResourceTable :=
  [("a", containerWith "G" [oneYes]); ("b", containerWith "G" [])].

Definition twoContainersSwapped : Extractor.ResourceTable :=
  [("b", containerWith "G" []); ("a", containerWith "G" [oneYes])].

(** The results extracted from them: the same field, and the resource
    groups of the table. *)
Definition resultWith (resources : Extractor.ResourceTable) : HashGenerator.FormData :=
  HashGenerator.mkFormData None
    (HashGenerator.ArrayOf [Some (HashGenerator.fieldOf (fieldWith "F1" None))])
    (HashGenerator.ArrayOf
       (map (fun g => Some (HashGenerator.groupOf g))
            (Extractor.extractResourceGroups (Some resources)))).

Definition tiedGroups : HashGenerator.FormData := resultWith twoContainers.

Definition tiedGroupsSwapped : HashGenerator.FormData := resultWith twoContainersSwapped.

(** Two results with different ids, in two orders. *)
Definition twoFields : HashGenerator.FormData :=
  HashGenerator.mkFormData None
    (HashGenerator.ArrayOf [Some (HashGenerator.fieldOf (fieldWith "F2" (Some "/x/y")));
                            Some (HashGenerator.fieldOf (fieldWith "F1" None))])
    (HashGenerator.ArrayOf [Some (HashGenerator.groupOf (groupWith "G" [valueOf "Y"]));
                            Some (HashGenerator.groupOf (groupWith "A" []))]).

Definition twoFieldsSwapped : HashGenerator.FormData :=
  HashGenerator.mkFormData None
    (HashGenerator.ArrayOf [Some (HashGenerator.fieldOf (fieldWith "F1" None));
                            Some (HashGenerator.fieldOf (fieldWith "F2" (Some "/x/y")))])
    (HashGenerator.ArrayOf [Some (HashGenerator.groupOf (groupWith "A" []));
                            Some (HashGenerator.groupOf (groupWith "G" [valueOf "Y"]))]).

(** Two results with the fields null (the id [null]) and null (the id
    made of these four letters), in two orders. *)
Definition nullAndText : HashGenerator.FormData :=
  HashGenerator.mkFormData None
    (HashGenerator.ArrayOf
       [Some (HashGenerator.mkField Null (fieldWith "null" None));
        Some (HashGenerator.mkField (Val "null") (fieldWith "null" None))])
    HashGenerator.Missing.

Definition textAndNull : HashGenerator.FormData :=
  HashGenerator.mkFormData None
    (HashGenerator.ArrayOf
       [Some (HashGenerator.mkField (Val "null") (fieldWith "null" None));
        Some (HashGenerator.mkField Null (fieldWith "null" None))])
    HashGenerator.Missing.

(** A result whose [fields] is not an array. *)
Definition malformedFields : HashGenerator.FormData :=
  HashGenerator.mkFormData None HashGenerator.NotArray HashGenerator.Missing.

(** *** Inputs of the extractor *)

Definition emptyControl : Control :=
  {| ID := None; Name := None; Label := None; BindingPathEntryID := None;
     BindingPath := None; ControlType := None; Required := None;
     ResourceGroupID := None; IsRepeating := None; IsCollection := None;
     IsRequired := None; MaxCardinality := None; MinLength := None;
     MaxLength := None; MinValue := None; MaxValue := None; Pattern := None;
     Mask := None; DefaultValue := None; FormManagerNoDataNodeID := None;
     DisplayOrder := None; ColumnSpan := None; Controls := None |}.

(** A control with the given id, binding path, control type and children. *)
Definition controlWith (entryId bp ct : option string) (cs : option (list ref)) : Control :=
  {| ID := None; Name := None; Label := None; BindingPathEntryID := entryId;
     BindingPath := bp; ControlType := ct; Required := None;
     ResourceGroupID := None; IsRepeating := None; IsCollection := None;
     IsRequired := None; MaxCardinality := None; MinLength := None;
     MaxLength := None; MinValue := None; MaxValue := None; Pattern := None;
     Mask := None; DefaultValue := None; FormManagerNoDataNodeID := None;
     DisplayOrder := None; ColumnSpan := None; Controls := cs |}.

Definition noControls : ref -> Control := fun _ => emptyControl.

Definition dictFieldWith (fieldId : string) (fieldKey fieldType : option string) : DictField :=
  {| bpID := Some fieldId; bindingPathEntryId := None; d_key := fieldKey;
     d_type := fieldType; d_controlType := None; formID := None; panelID := None;
     sectionID := None; locationName := None; formManagerNoDataNodeID := None;
     presetValueDefinitionID := None |}.

Definition elementWith (elemId elemValue : string) (sortOrder : Z) : Element :=
  {| Id := Some elemId; e_ID := None; Value := Some elemValue;
     OriginalDisplayMember := None; SortOrder := Some sortOrder; Order := None;
     e_ResourceGroupID := None |}.

(** The scenario of the specification: one SingleSelect field F1 and a
    resource table with the group F1 at its top level. *)
Definition yesNoDictionary : list DictField :=
  [dictFieldWith "F1" None (Some "SingleSelect")].

Definition yesNo : list Element := [elementWith "1" "Y" 0; elementWith "2" "N" 1].

Definition yesNoResources : ResourceTable :=
  [("F1", Some {| Elements := Some yesNo; children := [] |})].

Definition yesNoValues : list PossibleValue :=
  [ {| pv_id := Some "1"; pv_value := Some "Y"; pv_text := Some "Y"; pv_order := 0 |};
    {| pv_id := Some "2"; pv_value := Some "N"; pv_text := Some "N"; pv_order := 1 |} ].

(** The dictionary of the scenario with a second entry for F1, which is
    no select field. *)
Definition repeatedDictionary : list DictField :=
  [dictFieldWith "F1" None (Some "SingleSelect"); dictFieldWith "F1" (Some "B") (Some "Text")].

(** The same group inside a container of the resource table. *)
Definition nestedResources : ResourceTable :=
  [("1", Some {| Elements := None;
                 children := [("F1", Some {| n_Elements := Some yesNo |})] |})].

(** A group with a boolean operator and neither comparisons nor child
    groups, and the same group as only child of another one. *)
Definition bareGroup : RawGroup := mkRawGroup (Val 1%Z) None None.

Definition parentOfBareGroup : RawGroup :=
  mkRawGroup (Val 2%Z) None (Some [Some bareGroup; None]).

Definition actionWith (actionType : option string) (g : option RawGroup) : Action :=
  {| ActionType := actionType; ActionID := None; a_Name := None;
     AffectedBindingPathEntryID := None; ErrorMessage := None; Points := None;
     FieldNodeID := None; AffectedFormHierarchyId := None; ComponentType := None;
     ExpressionGroup := g |}.

(** Form actions whose only comparison has a left term group with
    [CalculationOperatorID: null] and no operator at all. *)
Definition nullCalculation : FormActionTable :=
  [("p", [actionWith (Some "Validation")
            (Some (mkRawGroup Undefined
                     (Some [Some {| LeftTermGroup :=
                                      Some {| Terms := None;
                                              CalculationOperatorID := Null |};
                                    RightTermGroup := None;
                                    ExpressionOperatorID := Undefined |}])
                     None))])].

(** Form actions whose actions carry no expression group. *)
Definition noExpressionGroups : FormActionTable :=
  [("p", [actionWith (Some "Validation") None]); ("q", [])].

(** Form actions with a [null] entry in a list of comparisons. *)
Definition nullComparison : FormActionTable :=
  [("p", [actionWith (Some "Validation") (Some (mkRawGroup Undefined (Some [None]) None))])].

(** A control X that is its own child, and a layout that reaches it both
    through a panel and through [Controls]. *)
Definition selfReferencing : ref -> Control :=
  fun _ => {| ID := Some "n"; Name := Some "n"; Label := None;
              BindingPathEntryID := Some "X"; BindingPath := Some "/x";
              ControlType := Some "TextBox"; Required := None;
              ResourceGroupID := None; IsRepeating := None; IsCollection := None;
              IsRequired := None; MaxCardinality := None; MinLength := None;
              MaxLength := None; MinValue := None; MaxValue := None;
              Pattern := None; Mask := None; DefaultValue := None;
              FormManagerNoDataNodeID := None; DisplayOrder := None;
              ColumnSpan := None; Controls := Some [0] |}.

Definition cyclicLayout : Layout :=
  {| Forms := None;
     Panels := Some [{| p_Name := Some "p"; p_Controls := Some [0] |}];
     asNode := controlWith None None None (Some [0]) |}.

(** A grid and a text box without any other signal, in one panel. *)
Definition dataGrid : Control := controlWith (Some "G1") None (Some "DataGrid") None.
Definition textBox : Control := controlWith (Some "T1") None (Some "TextBox") None.

Definition gridAndText : ref -> Control :=
  fun r => match r with
           | 0 => dataGrid
           | _ => textBox
           end.

Definition gridAndTextLayout : Layout :=
  {| Forms := Some [{| f_Name := None;
                       f_Panels := Some [{| p_Name := Some "p"; p_Controls := Some [0; 1] |}];
                       f_Controls := None |}];
     Panels := None;
     asNode := emptyControl |}.

(** Two controls that carry the same id X, in the panel of
    [gridAndTextLayout]: a grid first, a text box after it. *)
Definition sharedGrid : Control :=
  controlWith (Some "X") (Some "/first") (Some "DataGrid") None.
Definition sharedText : Control :=
  controlWith (Some "X") (Some "/last") (Some "TextBox") None.

Definition sharedId : ref -> Control :=
  fun r => match r with
           | 0 => sharedGrid
           | _ => sharedText
           end.

(** The reconciliation scenario: the dictionary knows X under the label A,
    the layout has a control X with binding path /x/y and no label. *)
Definition labelledDictionary : list DictField := [dictFieldWith "X" (Some "A") None].

Definition boundControl : Control := controlWith (Some "X") (Some "/x/y") (Some "TextBox") None.

Definition boundHeap : ref -> Control := fun _ => boundControl.

Definition boundLayout : Layout :=
  {| Forms := None;
     Panels := Some [{| p_Name := Some "p"; p_Controls := Some [0] |}];
     asNode := emptyControl |}.

(** A chain of controls 0, 1, ..., 11, each the only child of the one
    before; only the last one carries the id X. *)
Definition deepChain : ref -> Control :=
  fun r => if (r =? 11)%nat then boundControl
           else controlWith None None None (Some [S r]).

(** A page with the dictionary and the resources of the scenario, whose
    form actions hold a null comparison: the operator analysis throws. *)
Definition yesNoComposer : FormComposer :=
  {| formHierarchyCollectionId := Some "H"; reportingStandardId := None;
     agencyLayouts := NoLayouts;
     formFieldDictionary := Some yesNoDictionary;
     agencyResources := Some yesNoResources |}.

Definition operatorFailurePage : Page :=
  {| formComposer := Some yesNoComposer;
     logicEngine := None;
     vmObservable := Some {| Resources := None; FormActions := Some nullComparison |} |}.

(** The same page with the null comparison in a validation action of the
    logic engine instead: the rule normalisation throws. *)
Definition ruleFailurePage : Page :=
  {| formComposer := Some yesNoComposer;
     logicEngine :=
       Some {| indexedValidationActions :=
                 Some [Some (actionWith (Some "Validation")
                               (Some (mkRawGroup Undefined (Some [None]) None)))];
               indexedVisibilityActions := None |};
     vmObservable := None |}.

(** The page of the reconciliation scenario: [agencyLayouts] is a single
    layout object. *)
Definition singleLayoutPage : Page :=
  {| formComposer :=
       Some {| formHierarchyCollectionId := None; reportingStandardId := None;
               agencyLayouts := SingleLayout boundLayout;
               formFieldDictionary := Some labelledDictionary;
               agencyResources := None |};
     logicEngine := None;
     vmObservable := None |}.

(** A page with the grid G1 and the text box T1 in its layout, and with X
    and G1 in its dictionary. *)
Definition gridAndTextPage : Page :=
  {| formComposer :=
       Some {| formHierarchyCollectionId := None; reportingStandardId := None;
               agencyLayouts := LayoutArray [Some gridAndTextLayout];
               formFieldDictionary :=
                 Some [dictFieldWith "X" (Some "A") None; dictFieldWith "G1" None None];
               agencyResources := None |};
     logicEngine := None;
     vmObservable := None |}.

(** A page whose composer has none of the four containers. *)
Definition bareComposer : FormComposer :=
  {| formHierarchyCollectionId := None; reportingStandardId := None;
     agencyLayouts := NoLayouts; formFieldDictionary := None;
     agencyResources := None |}.

Definition barePage : Page :=
  {| formComposer := Some bareComposer; logicEngine := None; vmObservable := None |}.

(** [JSON.stringify] is not needed on these pages. *)
Definition noStringify : Layout -> Completion string := fun _ => Returned "{}".

End Scenarios.

(* ================================================================== *)
(** ** Statements about the extracted schema as a whole                 *)
(* ================================================================== *)

Module SchemaInvariants.
Import Js Schema Extractor.

(** The key under which [fieldMap] holds a descriptor. *)
Definition keyOf (d : FieldDescriptor) : string := toStr (id d).

(** Every key occurs once, and every descriptor sits under its own id. *)
Definition WellKeyed (fm : FieldMap) : Prop :=
  NoDup (map fst fm) /\ Forall (fun kd => keyOf (snd kd) = fst kd) fm.

(** The id of a dictionary entry, as a key. *)
Definition dictKey (field : DictField) : string :=
  toStr (orS (bpID field) (bindingPathEntryId field)).

(** No later entry of the dictionary has the id of [field]: the descriptor
    stored under this id is the one made from [field]. *)
Definition LastEntry (field : DictField) (entries : list DictField) : Prop :=
  exists earlier later,
    entries = earlier ++ field :: later
    /\ Forall (fun other => dictKey other <> dictKey field) later.

(** Where a key can come from: an entry of the dictionary, or a control
    that the layout pass reaches. *)
Definition Known (heap : ref -> Control) (layouts : Layouts)
  (dictionary : option (list DictField)) (k : string) : Prop :=
  (exists entries field,
      dictionary = Some entries /\ In field entries /\ dictKey field = k)
  \/ (exists c, InLayouts heap layouts c /\ BindingPathEntryID c = Some k /\ k <> "").

(** The ids that the two passes of [extractFields] meet, in the order in
    which they meet them: the ids of the dictionary entries, as keys, and
    the non-empty ids of the controls that the layout pass visits. *)
Definition controlId (c : Control) : list string :=
  match BindingPathEntryID c with
  | Some k => if (k =? "")%string then [] else [k]
  | None => []
  end.

Definition metIds (heap : ref -> Control) (layouts : Layouts)
  (dictionary : option (list DictField)) : list string :=
  match dictionary with
  | Some entries => map dictKey entries
  | None => []
  end
  ++ flat_map (fun call => controlId (fst call)) (visits heap layouts).

(** [value] is the possible value read from the element [elem]: its id
    is the element's [Id], its value the element's [Value], its text the
    element's [OriginalDisplayMember] or, when that is missing or empty,
    its [Value], and its order the element's [SortOrder], 0 when
    missing. *)
Definition ReadFrom (elem : Element) (value : PossibleValue) : Prop :=
  pv_id value = Id elem
  /\ pv_value value = Value elem
  /\ pv_text value = match OriginalDisplayMember elem with
                     | Some "" | None => Value elem
                     | Some text => Some text
                     end
  /\ pv_order value = match SortOrder elem with
                      | Some n => n
                      | None => 0%Z
                      end.

(** [listed] holds the possible values of the elements, one per element
    and in their order. *)
Definition PopulatedFrom (elements : list Element) (listed : option (list PossibleValue))
  : Prop :=
  exists values, listed = Some values /\ Forall2 ReadFrom elements values.

(** An element of a resource group written without the alternative
    properties [ID] and [Order], and without an empty [Id]. *)
Definition plainElement (e : Element) : Prop :=
  e_ID e = None /\ Order e = None /\ Id e <> Some "".

(** The actions of a list of the logic engine that [extractRules] turns
    into rules: the entries that are not [null] and have the given type. *)
Fixpoint selected (actionType : string) (actions : list (option Action)) : list Action :=
  match actions with
  | [] => []
  | Some r :: rest =>
      if isString (ActionType r) actionType
      then r :: selected actionType rest
      else selected actionType rest
  | None :: rest => selected actionType rest
  end.

Definition selectedOf (actionType : string) (actions : option (list (option Action)))
  : list Action :=
  match actions with
  | Some l => selected actionType l
  | None => []
  end.

(** The expression group of the action has no [null] comparison. *)
Definition normalizable (r : Action) : bool :=
  match ExpressionGroup r with
  | Some g => noNullComparison g
  | None => true
  end.

(** A layout object that is no repeater itself and has no [Controls] of
    its own (its controls are under its forms and panels). *)
Definition plainLayout (l : Layout) : Prop :=
  Controls (asNode l) = None
  /\ truthyB (IsRepeating (asNode l)) = false
  /\ isString (ControlType (asNode l)) "Repeater" = false.

(** What [generateHash] can see of a slot of the result: a missing list
    is an empty one, and of a field or group only its projection. *)
Definition hashView {A B : Type} (project : A -> B) (s : HashGenerator.Slot (option A))
  : HashGenerator.Slot (option B) :=
  match s with
  | HashGenerator.Missing | HashGenerator.Falsy => HashGenerator.ArrayOf []
  | HashGenerator.NotArray => HashGenerator.NotArray
  | HashGenerator.ArrayOf l => HashGenerator.ArrayOf (map (option_map project) l)
  end.

(** The slot holds a falsy value (nothing, 0, the empty string, [false]) or
    an array without [null] or [undefined] element. *)
Definition isSome {A : Type} (o : option A) : bool :=
  match o with
  | Some _ => true
  | None => false
  end.

Definition readable {A : Type} (s : HashGenerator.Slot (option A)) : bool :=
  match s with
  | HashGenerator.Missing | HashGenerator.Falsy => true
  | HashGenerator.NotArray => false
  | HashGenerator.ArrayOf l => forallb isSome l
  end.

(** The slot holds nothing ([undefined] or [null]) or an array without
    [null] or [undefined] element. *)
Definition quickReadable {A : Type} (s : HashGenerator.Slot (option A)) : bool :=
  match s with
  | HashGenerator.Missing => true
  | HashGenerator.Falsy | HashGenerator.NotArray => false
  | HashGenerator.ArrayOf l => forallb isSome l
  end.

(** No object of the slot has the id [null]. *)
Definition noNullId {A : Type} (ident : A -> jsopt string)
  (s : HashGenerator.Slot (option A)) : Prop :=
  forall l x, s = HashGenerator.ArrayOf l -> In (Some x) l -> ident x <> Null.

(** The operator codes that occur in an expression group, read off the
    tree: the boolean operators of the groups, the expression operators of
    the comparisons, and the calculation operators of their term groups
    (where [null] counts as a value). *)
Definition definedCode (x : jsopt Z) : list SetElem :=
  match x with
  | Val n => [ElNum n]
  | _ => []
  end.

Definition calculationCode (termGroup : option TermGroup) : list SetElem :=
  match termGroup with
  | Some tg =>
      match CalculationOperatorID tg with
      | Undefined => []
      | Null => [ElNull]
      | Val n => [ElNum n]
      end
  | None => []
  end.

Definition comparisonExpressionCodes (exp : option RawExpression) : list SetElem :=
  match exp with
  | Some e => definedCode (ExpressionOperatorID e)
  | None => []
  end.

Definition comparisonCalculationCodes (exp : option RawExpression) : list SetElem :=
  match exp with
  | Some e => calculationCode (LeftTermGroup e) ++ calculationCode (RightTermGroup e)
  | None => []
  end.

Definition ofList {A B : Type} (f : A -> list B) (l : option (list A)) : list B :=
  match l with
  | Some xs => flat_map f xs
  | None => []
  end.

Fixpoint booleanCodes (g : RawGroup) : list SetElem :=
  match g with
  | mkRawGroup boolOp _ groups =>
      definedCode boolOp
      ++ ofList (fun og => match og with
                           | Some g' => booleanCodes g'
                           | None => []
                           end) groups
  end.

Fixpoint expressionCodes (g : RawGroup) : list SetElem :=
  match g with
  | mkRawGroup _ exps groups =>
      ofList comparisonExpressionCodes exps
      ++ ofList (fun og => match og with
                           | Some g' => expressionCodes g'
                           | None => []
                           end) groups
  end.

Fixpoint calculationCodes (g : RawGroup) : list SetElem :=
  match g with
  | mkRawGroup _ exps groups =>
      ofList comparisonCalculationCodes exps
      ++ ofList (fun og => match og with
                           | Some g' => calculationCodes g'
                           | None => []
                           end) groups
  end.

(** The codes of the expression groups of all actions of a table. *)
Definition tableCodes (codes : RawGroup -> list SetElem) (table : FormActionTable)
  : list SetElem :=
  flat_map (fun a => match ExpressionGroup a with
                     | Some g => codes g
                     | None => []
                     end) (allActions table).

(** [sets'] holds what [sets] held and the given codes. *)
Definition Collected (sets sets' : OpSets) (bs es cs : list SetElem) : Prop :=
  forall y,
    (In y (booleanOps sets') <-> In y (booleanOps sets) \/ In y bs)
    /\ (In y (expressionOps sets') <-> In y (expressionOps sets) \/ In y es)
    /\ (In y (calculationOps sets') <-> In y (calculationOps sets) \/ In y cs).

End SchemaInvariants.

(* ================================================================== *)
(** ** Further concrete inputs                                          *)
(* ================================================================== *)

Module Cases.
Import Js Schema Extractor Scenarios.

(** A validation action, a visibility action and a null entry, in the
    list of validations; a visibility action in the list of visibilities. *)
Definition ruleWith (actionId actionType : string) : Action :=
  {| ActionType := Some actionType; ActionID := Some actionId; a_Name := None;
     AffectedBindingPathEntryID := None; ErrorMessage := None; Points := None;
     FieldNodeID := None; AffectedFormHierarchyId := None; ComponentType := None;
     ExpressionGroup := Some bareGroup |}.

Definition mixedValidations : option (list (option Action)) :=
  Some [Some (ruleWith "v1" "Validation"); None; Some (ruleWith "s0" "Visibility");
        Some (ruleWith "v2" "Validation")].

Definition someVisibilities : option (list (option Action)) :=
  Some [Some (ruleWith "s1" "Visibility")].

(** A layout whose only panel holds a repeating control. *)
Definition repeatingControl : Control :=
  {| ID := Some "r"; Name := Some "rep"; Label := None; BindingPathEntryID := Some "R";
     BindingPath := None; ControlType := Some "Repeater"; Required := None;
     ResourceGroupID := None; IsRepeating := Some true; IsCollection := None;
     IsRequired := None; MaxCardinality := None; MinLength := None;
     MaxLength := None; MinValue := None; MaxValue := None; Pattern := None;
     Mask := None; DefaultValue := None; FormManagerNoDataNodeID := None;
     DisplayOrder := None; ColumnSpan := None; Controls := None |}.

Definition repeaterHeap : ref -> Control := fun _ => repeatingControl.

Definition repeaterUnderPanel : Layout :=
  {| Forms := Some [{| f_Name := None;
                       f_Panels := Some [{| p_Name := Some "p"; p_Controls := Some [0] |}];
                       f_Controls := Some [0] |}];
     Panels := Some [{| p_Name := Some "q"; p_Controls := Some [0] |}];
     asNode := emptyControl |}.

(** Form actions with the boolean operators 2 and 1, the expression
    operator 7 twice and the calculation operator 3. *)
Definition comparisonWith (op : Z) (calc : jsopt Z) : option RawExpression :=
  Some {| LeftTermGroup := Some {| Terms := None; CalculationOperatorID := Undefined |};
          RightTermGroup := Some {| Terms := Some []; CalculationOperatorID := calc |};
          ExpressionOperatorID := Val op |}.

Definition someOperators : FormActionTable :=
  [("p", [actionWith (Some "Validation")
            (Some (mkRawGroup (Val 2%Z)
                     (Some [comparisonWith 7 (Val 3%Z)])
                     (Some [Some (mkRawGroup (Val 1%Z)
                                    (Some [comparisonWith 7 Undefined]) None);
                            None])))]);
   ("q", [actionWith None None])].

(** Two results that differ in what the digest does not read only: the
    form id, a label, the name of a group, a missing list of elements
    against an empty one, and a missing list of fields against an empty
    one. *)
Definition labelledResult : HashGenerator.FormData :=
  HashGenerator.mkFormData (Some "form-1")
    HashGenerator.Missing
    (HashGenerator.ArrayOf
       [Some (HashGenerator.groupOf
                {| rg_id := "G"; rg_name := "Yes or no"; rg_elements := None |})]).

Definition unlabelledResult : HashGenerator.FormData :=
  HashGenerator.mkFormData None
    (HashGenerator.ArrayOf [])
    (HashGenerator.ArrayOf [Some (HashGenerator.groupOf (groupWith "G" []))]).

End Cases.

(* ================================================================== *)
(** ** Agency codes and base64                                          *)
(* ================================================================== *)

Module Url.
Import Js.

(** The literal [/RunForm/Agency] of the pattern, matched at the head of
    [s] without regard to the case of the letters A-Z (flag [i]); the
    result is what follows it. *)
Fixpoint stripPrefixCI (lit s : string) : option string :=
  match lit, s with
  | EmptyString, _ => Some s
  | String a lit', String b s' =>
      if Ascii.eqb (lower_ascii a) (lower_ascii b) then stripPrefixCI lit' s' else None
  | String _ _, EmptyString => None
  end.

(** The characters before the first slash of [s], and what follows that
    slash; [None] when [s] has no slash. *)
Fixpoint untilSlash (s : string) : option (string * string) :=
  match s with
  | EmptyString => None
  | String c s' =>
      if Ascii.eqb c "/" then Some (EmptyString, s')
      else match untilSlash s' with
           | Some (run, rest) => Some (String c run, rest)
           | None => None
           end
  end.

(** [/\/RunForm\/Agency([^\/]+)\//i] matched where [s] begins: the greedy
    group takes every character up to the next slash, and needs one. *)
Definition agencyAt (s : string) : option string :=
  match stripPrefixCI "/RunForm/Agency" s with
  | Some rest =>
      match untilSlash rest with
      | Some (code, _) => if (code =? "")%string then None else Some code
      | None => None
      end
  | None => None
  end.

(** [url.match(...)]: the leftmost position where the pattern matches,
    and of the match its first group. *)
Fixpoint firstAgency (s : string) : option string :=
  match agencyAt s with
  | Some code => Some code
  | None =>
      match s with
      | EmptyString => None
      | String _ s' => firstAgency s'
      end
  end.

(** [extractAgencyCode] (the same function in src/unnamed/part_005,
    src/background/api-client.ts and src/background/auth.ts):
    [match ? match[1] : null]. *)
Definition extractAgencyCode (url : string) : option string := firstAgency url.

Definition slashFree (s : string) : bool :=
  forallb (fun c => negb (Ascii.eqb c "/")) (list_ascii_of_string s).

(** *** [btoa] *)

Definition base64Alphabet : string :=
  "ABCDEFGHIJKLMNOPQRSTUVWXYZabcdefghijklmnopqrstuvwxyz0123456789+/".

Definition base64Char (n : nat) : ascii :=
  match String.get n base64Alphabet with
  | Some c => c
  | None => "="%char
  end.

Definition pad64 : ascii := "="%char.

(** Base64 of a list of bytes, with padding. *)
Fixpoint base64 (bytes : list nat) : string :=
  match bytes with
  | [] => EmptyString
  | [a] =>
      String (base64Char (a / 4)) (String (base64Char (a mod 4 * 16))
        (String pad64 (String pad64 EmptyString)))
  | [a; b] =>
      String (base64Char (a / 4)) (String (base64Char (a mod 4 * 16 + b / 16))
        (String (base64Char (b mod 16 * 4)) (String pad64 EmptyString)))
  | a :: b :: c :: rest =>
      String (base64Char (a / 4)) (String (base64Char (a mod 4 * 16 + b / 16))
        (String (base64Char (b mod 16 * 4 + c / 64)) (String (base64Char (c mod 64))
          (base64 rest))))
  end.

(** The code units of a string when none is above 0xFF: a byte below 0x80
    stands for itself, the two-byte sequences led by 0xC2 and 0xC3 for the
    characters U+0080 to U+00FF; any other sequence is a character that
    [btoa] refuses. *)
Fixpoint latin1 (s : string) : option (list nat) :=
  match s with
  | EmptyString => Some []
  | String c s' =>
      let n := nat_of_ascii c in
      if (n <? 128)%nat then option_map (cons n) (latin1 s')
      else match s' with
           | String d s'' =>
               let m := nat_of_ascii d in
               if (n =? 194)%nat then option_map (cons m) (latin1 s'')
               else if (n =? 195)%nat then option_map (cons (m + 64)%nat) (latin1 s'')
               else None
           | EmptyString => None
           end
  end.

(** The exception of [btoa] on a character outside Latin-1. *)
Definition invalidCharacter : Exn :=
  Error "The string to be encoded contains characters outside of the Latin1 range.".

Definition btoa (s : string) : Completion string :=
  match latin1 s with
  | Some bytes => Returned (base64 bytes)
  | None => Threw invalidCharacter
  end.

Definition isAscii (s : string) : bool :=
  forallb (fun c => (nat_of_ascii c <? 128)%nat) (list_ascii_of_string s).

End Url.

(* ================================================================== *)
(** ** CompanyCache ([src/unnamed/part_005])                            *)
(* ================================================================== *)

Module CompanyCache.
Import Js Url.

Definition CACHE_DURATION : Z := 5 * 60 * 1000.

Record CompanyInfo : Type := mkCompanyInfo {
  company_id : string;
  company_name : string;
  last_extraction : option string;
  extraction_count : option Z
}.

(** A value of [chrome.storage.local]: an entry written by [set]
    ([{data, cached_at}]), or one of the booleans and strings the content
    script keeps there.  The cache never looks into [data]: it is declared
    a [CompanyInfo] and is whatever the caller passes. *)
Inductive Stored (Data : Type) : Type :=
| Cached (data : Data) (cached_at : Z)
| Flag (b : bool)
| Text (s : string).
Arguments Cached {Data} data cached_at.
Arguments Flag {Data} b.
Arguments Text {Data} s.

(** The storage area: its keys, each with its value. *)
Definition Storage (Data : Type) : Type := list (string * Stored Data).

Section WithData.
Context {Data : Type}.

Fixpoint lookup (key : string) (st : Storage Data) : option (Stored Data) :=
  match st with
  | [] => None
  | (k, v) :: st' => if (k =? key)%string then Some v else lookup key st'
  end.

(** [chrome.storage.local.remove(keys)]. *)
Definition remove (keys : list string) (st : Storage Data) : Storage Data :=
  filter (fun kv => negb (existsb (String.eqb (fst kv)) keys)) st.

(** [chrome.storage.local.set({[key]: value})]. *)
Definition store (key : string) (value : Stored Data) (st : Storage Data) : Storage Data :=
  (key, value) :: remove [key] st.

(** [getCacheKey]. *)
Definition getCacheKey (url : string) : Completion string :=
  let agencyCode := extractAgencyCode url in
  if truthyS agencyCode then Returned ("company_agency_" ++ toStr agencyCode)%string
  else b <- btoa url ;; Returned ("company_" ++ substring 0 10 b)%string.

(** [get]: the time is the one [Date.now()] reads.  A value that is not
    an entry has neither [cached_at] nor [data]: its age is NaN, which is
    not above the duration, and the result is [undefined]. *)
Definition get (url : string) (now : Z) (st : Storage Data)
  : Completion (jsopt Data * Storage Data) :=
  key <- getCacheKey url ;;
  match lookup key st with
  | None => Returned (Null, st)
  | Some (Flag b) => Returned (if b then Undefined else Null, st)
  | Some (Text s) => Returned (if (s =? "")%string then Null else Undefined, st)
  | Some (Cached data cached_at) =>
      let age := (now - cached_at)%Z in
      if (age >? CACHE_DURATION)%Z then Returned (Null, remove [key] st)
      else Returned (Val data, st)
  end.

(** Whether [get] comes to its [Date.now()]: it returns before when the
    key cannot be made and when nothing truthy is stored under it. *)
Definition readsClock (url : string) (st : Storage Data) : bool :=
  match getCacheKey url with
  | Returned key =>
      match lookup key st with
      | None => false
      | Some (Flag b) => b
      | Some (Text s) => negb (s =? "")%string
      | Some (Cached _ _) => true
      end
  | Threw _ => false
  end.

(** [set]. *)
Definition set (url : string) (data : Data) (now : Z) (st : Storage Data)
  : Completion (Storage Data) :=
  key <- getCacheKey url ;;
  Returned (store key (Cached data now) st).

(** [clear]: without a url, or with the empty one, every key that starts
    with [company_] goes. *)
Definition clear (url : option string) (st : Storage Data) : Completion (Storage Data) :=
  if truthyS url then
    key <- getCacheKey (toStr url) ;;
    Returned (remove [key] st)
  else
    let companyKeys := filter (prefix "company_") (map fst st) in
    Returned (remove companyKeys st).

End WithData.

End CompanyCache.

(* ================================================================== *)
(** ** CompanySessionManager ([src/background/auth.ts])                 *)
(* ================================================================== *)

Module CompanySessionManager.
Import Js Url.

Definition SESSION_TIMEOUT : Z := 30 * 60 * 1000.

Record SessionData : Type := mkSessionData {
  companyId : string;
  companyName : string;
  agencyCode : string;
  establishedAt : Z;
  lastActivity : Z
}.

(** What [chrome.storage.session] holds under [active_company_session]. *)
Definition SessionStore : Type := option SessionData.

(** [clearSession]. *)
Definition clearSession (st : SessionStore) : SessionStore := None.

(** [getActiveSession]. *)
Definition getActiveSession (now : Z) (st : SessionStore)
  : option SessionData * SessionStore :=
  match st with
  | None => (None, st)
  | Some session =>
      let age := (now - lastActivity session)%Z in
      if (age >? SESSION_TIMEOUT)%Z then (None, clearSession st)
      else (Some session, st)
  end.

(** [setActiveSession]; [Date.now()] is read twice. *)
Definition setActiveSession (company_id company_name url : string) (now1 now2 : Z)
  (st : SessionStore) : SessionStore :=
  let code := toStr (orS (extractAgencyCode url) (Some "")) in
  Some {| companyId := company_id; companyName := company_name; agencyCode := code;
          establishedAt := now1; lastActivity := now2 |}.

(** [updateActivity]: the first time is read by [getActiveSession], the
    second one stamps the session. *)
Definition updateActivity (now1 now2 : Z) (st : SessionStore) : SessionStore :=
  match getActiveSession now1 st with
  | (Some session, _) =>
      Some {| companyId := companyId session; companyName := companyName session;
              agencyCode := agencyCode session; establishedAt := establishedAt session;
              lastActivity := now2 |}
  | (None, st') => st'
  end.

(** [isCurrentAgency]: [agencyCode === session.agencyCode], where
    the left side is a string or [null]. *)
Definition isCurrentAgency (url : string) (now : Z) (st : SessionStore)
  : bool * SessionStore :=
  match getActiveSession now st with
  | (None, st') => (false, st')
  | (Some session, st') =>
      (match extractAgencyCode url with
       | Some code => (code =? agencyCode session)%string
       | None => false
       end, st')
  end.

End CompanySessionManager.

(* ================================================================== *)
(** ** SecureTokenStorage ([src/services/hash-generator.ts], second part) *)
(* ================================================================== *)

Module SecureTokenStorage.
Import Js.

Record TokenResponse : Type := mkTokenResponse {
  access_token : string;
  id_token : option string;
  refresh_token : option string;
  expires_in : Z
}.

(** The five keys of the session storage area that the class uses; a key
    that is not set is [None]. *)
Record Tokens : Type := mkTokens {
  s_access_token : option string;
  s_refresh_token : option string;
  s_id_token : option string;
  s_token_expiry : option Z;
  s_user_info : option string
}.

(** [storeTokens]. *)
Definition storeTokens (tokens : TokenResponse) (now : Z) (st : Tokens) : Tokens :=
  {| s_access_token := Some (access_token tokens);
     s_refresh_token :=
       if truthyS (refresh_token tokens) then refresh_token tokens else s_refresh_token st;
     s_id_token := if truthyS (id_token tokens) then id_token tokens else s_id_token st;
     s_token_expiry := Some (now + expires_in tokens * 1000)%Z;
     s_user_info := s_user_info st |}.

(** [clearTokens]. *)
Definition clearTokens (st : Tokens) : Tokens :=
  {| s_access_token := None; s_refresh_token := None; s_id_token := None;
     s_token_expiry := None; s_user_info := None |}.

(** [refreshAccessToken].  [exchange] is the token endpoint: what the
    POST of the refresh token yields, [None] when the request fails, the
    answer is not ok or its body cannot be read.  [later] is the time at
    which the new tokens are stored. *)
Definition refreshAccessToken (exchange : string -> option TokenResponse) (later : Z)
  (st : Tokens) : option string * Tokens :=
  if truthyS (s_refresh_token st) then
    match exchange (toStr (s_refresh_token st)) with
    | Some tokens => (Some (access_token tokens), storeTokens tokens later st)
    | None => (None, clearTokens st)
    end
  else (None, st).

(** [getAccessToken]: a token is refreshed from five minutes before its
    expiry. *)
Definition getAccessToken (exchange : string -> option TokenResponse) (now later : Z)
  (st : Tokens) : option string * Tokens :=
  if truthyS (s_access_token st) then
    if truthyZ (s_token_expiry st)
       && (match s_token_expiry st with
           | Some expiry => (now >? expiry - 300000)%Z
           | None => false
           end)
    then refreshAccessToken exchange later st
    else (s_access_token st, st)
  else (None, st).

(** How often a call of [getAccessToken] reads [Date.now()]: once for the
    log, whatever is stored; once more for the test, when a token and an
    expiry are stored ([now] is that reading); and a third time in
    [storeTokens], when the token was due and the refresh went through. *)
Definition readings (exchange : string -> option TokenResponse) (now : Z) (st : Tokens)
  : nat :=
  if truthyS (s_access_token st) && truthyZ (s_token_expiry st) then
    if (match s_token_expiry st with
        | Some expiry => (now >? expiry - 300000)%Z
        | None => false
        end)
       && truthyS (s_refresh_token st)
       && (match exchange (toStr (s_refresh_token st)) with
           | Some _ => true
           | None => false
           end)
    then 3 else 2
  else 1.

(** [isAuthenticated]: [token !== null]. *)
Definition isAuthenticated (exchange : string -> option TokenResponse) (now later : Z)
  (st : Tokens) : bool * Tokens :=
  let (token, st') := getAccessToken exchange now later st in
  (match token with Some _ => true | None => false end, st').

End SecureTokenStorage.

(* ================================================================== *)
(** ** ApiClient ([src/background/api-client.ts], first part)           *)
(* ================================================================== *)

Module ApiClient.
Import Js Url.

(** The values of JavaScript that a parsed response body can hold, and
    [undefined].  Of a number only its being zero is looked at; it is kept
    as an integer. *)
Inductive Json : Type :=
| JUndefined
| JNull
| JBool (b : bool)
| JNum (n : Z)
| JStr (s : string)
| JArr (items : list Json)
| JObj (props : list (string * Json)).

Definition truthy (v : Json) : bool :=
  match v with
  | JUndefined | JNull => false
  | JBool b => b
  | JNum n => negb (n =? 0)%Z
  | JStr s => negb (s =? "")%string
  | JArr _ | JObj _ => true
  end.

Fixpoint assoc (name : string) (props : list (string * Json)) : option Json :=
  match props with
  | [] => None
  | (k, v) :: props' => if (k =? name)%string then Some v else assoc name props'
  end.

(** [v.name] for the names [success], [data] and [error], which no
    primitive value and no array has. *)
Definition getProp (name : string) (v : Json) : Completion Json :=
  match v with
  | JUndefined => Threw (cannotRead name)
  | JNull => Threw (cannotReadNull name)
  | JObj props =>
      Returned (match assoc name props with
                | Some x => x
                | None => JUndefined
                end)
  | _ => Returned JUndefined
  end.

(** [error.message]. *)
Definition message (e : Exn) : string :=
  match e with
  | TypeError msg | RangeError msg | Error msg => msg
  end.

(** [{success: true, data}] and [{success: false, error}]. *)
Definition success (data : Json) : Json :=
  JObj [("success", JBool true); ("data", data)].

Definition failure (error : string) : Json :=
  JObj [("success", JBool false); ("error", JStr error)].

(** [encodeURIComponent] on the UTF-8 bytes of a string: the letters, the
    digits and [-_.!~*'()] are kept, every other byte is written [%XX]. *)
Definition unreserved (c : ascii) : bool :=
  let n := nat_of_ascii c in
  ((65 <=? n) && (n <=? 90) || (97 <=? n) && (n <=? 122) || (48 <=? n) && (n <=? 57))%nat
  || existsb (Ascii.eqb c) (list_ascii_of_string "-_.!~*'()").

Definition upperHexDigit (n : nat) : ascii :=
  match String.get n "0123456789ABCDEF" with
  | Some c => c
  | None => "0"%char
  end.

Definition percentEncoded (c : ascii) : string :=
  let n := nat_of_ascii c in
  String "%" (String (upperHexDigit (n / 16)) (String (upperHexDigit (n mod 16)) EmptyString)).

Fixpoint encodeURIComponent (s : string) : string :=
  match s with
  | EmptyString => EmptyString
  | String c s' =>
      if unreserved c then String c (encodeURIComponent s')
      else (percentEncoded c ++ encodeURIComponent s')%string
  end.

(** A request as [makeRequest] sends it: the url, the method and the
    token of the [Authorization: Bearer] header. *)
Record Request : Type := mkRequest {
  r_url : string;
  r_method : string;
  r_bearer : string
}.

(** What [fetch] does: it rejects, or it resolves with a response, of
    which the status and the outcome of [json()] are read. *)
Inductive FetchOutcome : Type :=
| Failed (e : Exn)
| Answered (status : nat) (body : Completion Json).

(** [response.ok]. *)
Definition ok (status : nat) : bool := ((200 <=? status) && (status <=? 299))%nat.

(** The surroundings of the client: the server, which may answer by the
    requests made so far; the token endpoint and the clock, each by the
    number of clock readings made so far; and the build-time settings. *)
Record Env : Type := mkEnv {
  fetch : list Request -> Request -> FetchOutcome;
  exchange : nat -> string -> option SecureTokenStorage.TokenResponse;
  clock : nat -> Z;
  API_ENDPOINT : option string;
  API_AUTH_PATH : option string;
  API_LOOKUP_PATH : option string;
  API_HISTORY_PATH : option string
}.

(** What the client changes: the token store, the company cache, the
    requests sent (oldest first) and the number of clock readings. *)
Record World : Type := mkWorld {
  tokens : SecureTokenStorage.Tokens;
  cache : CompanyCache.Storage Json;
  sent : list Request;
  reads : nat
}.

Section WithEnv.
Variable env : Env.

(** [oktaAuth.getAccessToken()]: the storage's [getAccessToken].  Of the
    readings of the clock that the call makes, the first one is written to
    the log, the second one is tested against the expiry and the third one
    stamps the new tokens. *)
Definition getAccessToken (w : World) : option string * World :=
  let n := reads w in
  let endpoint := exchange env (2 + n) in
  let now := clock env (1 + n) in
  let (token, tokens') :=
    SecureTokenStorage.getAccessToken endpoint now (clock env (2 + n)) (tokens w) in
  (token,
   mkWorld tokens' (cache w) (sent w)
     (SecureTokenStorage.readings endpoint now (tokens w) + n)).

(** [fetch(url, {method, headers})]. *)
Definition send (request : Request) (w : World) : FetchOutcome * World :=
  (fetch env (sent w) request,
   mkWorld (tokens w) (cache w) (sent w ++ [request]) (reads w)).

Definition requestFailed (status : nat) : string :=
  ("API request failed: " ++ jsonNat status)%string.

(** [makeRequest(path, {method})]; [Threw] is a rejected promise. *)
Definition makeRequest (path method : string) (w : World) : Completion Json * World :=
  let (accessToken, w1) := getAccessToken w in
  if negb (truthyS accessToken) then (Threw (Error "Not authenticated"), w1)
  else
    let url := (toStr (API_ENDPOINT env) ++ path)%string in
    let (response, w2) := send (mkRequest url method (toStr accessToken)) w1 in
    match response with
    | Failed error => (Returned (failure (message error)), w2)
    | Answered status body =>
        if (status =? 401)%nat then
          let (newToken, w3) := getAccessToken w2 in
          if truthyS newToken then
            let (retryResponse, w4) := send (mkRequest url method (toStr newToken)) w3 in
            match retryResponse with
            | Failed error => (Returned (failure (message error)), w4)
            | Answered retryStatus retryBody =>
                if negb (ok retryStatus)
                then (Returned (failure (requestFailed retryStatus)), w4)
                else match retryBody with
                     | Returned raw => (Returned raw, w4)
                     | Threw error => (Returned (failure (message error)), w4)
                     end
            end
          else (Returned (failure "Authentication expired"), w3)
        else if negb (ok status) then (Returned (failure (requestFailed status)), w2)
        else match body with
             | Returned data => (Returned (success data), w2)
             | Threw error => (Returned (failure (message error)), w2)
             end
    end.

(** [validateAuth]. *)
Definition validateAuth (w : World) : Completion Json * World :=
  let path := toStr (orS (API_AUTH_PATH env) (Some "/api/v1/auth/validate")) in
  makeRequest path "GET" w.

(** [cache.get(url)]: the clock is read when a truthy value is found
    under the key, and not before. *)
Definition cacheGet (url : string) (w : World) : Completion (jsopt Json) * World :=
  let n := reads w in
  match CompanyCache.get url (clock env n) (cache w) with
  | Returned (cached, cache') =>
      (Returned cached,
       mkWorld (tokens w) cache' (sent w)
         ((if CompanyCache.readsClock url (cache w) then 1 else 0) + n))
  | Threw e => (Threw e, w)
  end.

(** [cache.set(url, data)]: the clock is read once the key is made. *)
Definition cacheSet (url : string) (data : Json) (w : World) : Completion unit * World :=
  let n := reads w in
  match CompanyCache.set url data (clock env n) (cache w) with
  | Returned cache' => (Returned tt, mkWorld (tokens w) cache' (sent w) (S n))
  | Threw e => (Threw e, w)
  end.

Definition valueOf (cached : jsopt Json) : Json :=
  match cached with
  | Val v => v
  | Null => JNull
  | Undefined => JUndefined
  end.

(** The [catch] block of [lookupCompanyByURL]. *)
Definition lookupFailed (error : Exn) : Json :=
  if includes "404" (message error)
  then failure "No company found for this ImageTrend URL"
  else if includes "network" (message error)
  then failure "Network error - please check your connection"
  else failure (toStr (orS (Some (message error)) (Some "Failed to lookup company"))).

(** The [try] block of [lookupCompanyByURL]. *)
Definition lookupByAgency (lookupPath url agencyCode : string) (w : World)
  : Completion Json * World :=
  let path := (lookupPath ++ "?agency=" ++ encodeURIComponent agencyCode)%string in
  let (made, w1) := makeRequest path "GET" w in
  match made with
  | Threw e => (Threw e, w1)
  | Returned response =>
      match getProp "success" response with
      | Threw e => (Threw e, w1)
      | Returned flag =>
          if truthy flag then
            match getProp "data" response with
            | Threw e => (Threw e, w1)
            | Returned data =>
                if truthy data then
                  let (stored, w2) := cacheSet url data w1 in
                  match stored with
                  | Returned _ => (Returned response, w2)
                  | Threw e => (Threw e, w2)
                  end
                else (Returned response, w1)
            end
          else (Returned response, w1)
      end
  end.

(** [lookupCompanyByURL]. *)
Definition lookupCompanyByURL (url : string) (w : World) : Completion Json * World :=
  let lookupPath :=
    toStr (orS (API_LOOKUP_PATH env) (Some "/api/v1/admin/vendor-forms/lookup")) in
  let (got, w1) := cacheGet url w in
  match got with
  | Threw e => (Threw e, w1)
  | Returned cached =>
      if truthy (valueOf cached) then (Returned (success (valueOf cached)), w1)
      else
        let agencyCode := extractAgencyCode url in
        if negb (truthyS agencyCode)
        then (Returned (failure "Invalid ImageTrend URL - no agency code found"), w1)
        else
          let (tried, w2) := lookupByAgency lookupPath url (toStr agencyCode) w1 in
          match tried with
          | Returned response => (Returned response, w2)
          | Threw error => (Returned (lookupFailed error), w2)
          end
  end.

(** [getExtractionHistory]. *)
Definition getExtractionHistory (url : string) (w : World) : Completion Json * World :=
  let historyPath :=
    toStr (orS (API_HISTORY_PATH env) (Some "/api/v1/admin/vendor-forms/history")) in
  let (made, w1) :=
    makeRequest (historyPath ++ "?url=" ++ encodeURIComponent url)%string "GET" w in
  match made with
  | Returned response => (Returned response, w1)
  | Threw _ => (Returned (failure "Failed to get extraction history"), w1)
  end.

End WithEnv.

End ApiClient.

(* ================================================================== *)
(** ** Statements about the client and its surroundings                 *)
(* ================================================================== *)

Module ClientInvariants.
Import Js.

(** The stored access token needs no refresh at time [t]: it is there,
    and its expiry is unset, zero or at least five minutes ahead. *)
Definition Fresh (st : SecureTokenStorage.Tokens) (t : Z) : Prop :=
  truthyS (SecureTokenStorage.s_access_token st) = true
  /\ match SecureTokenStorage.s_token_expiry st with
     | Some expiry => expiry = 0%Z \/ (t <= expiry - 300000)%Z
     | None => True
     end.

(** The readings of the clock in a call of [getAccessToken] that finds a
    token and leaves it: the one of the log, and the one of the test when
    an expiry is stored. *)
Definition quiet (st : SecureTokenStorage.Tokens) : nat :=
  if truthyZ (SecureTokenStorage.s_token_expiry st) then 2 else 1.

(** What a request of [makeRequest] for [path] looks like. *)
Definition WellFormed (env : ApiClient.Env) (path method : string) (q : ApiClient.Request)
  : Prop :=
  ApiClient.r_url q = (toStr (ApiClient.API_ENDPOINT env) ++ path)%string
  /\ ApiClient.r_method q = method
  /\ ApiClient.r_bearer q <> "".

(** What a call of the cache resolves with, its storage set aside. *)
Definition answer {Data : Type}
  (c : Completion (jsopt Data * CompanyCache.Storage Data)) : Completion (jsopt Data) :=
  match c with
  | Returned (found, _) => Returned found
  | Threw e => Threw e
  end.

(** The world after [n] more readings of the clock. *)
Definition later (n : nat) (w : ApiClient.World) : ApiClient.World :=
  ApiClient.mkWorld (ApiClient.tokens w) (ApiClient.cache w) (ApiClient.sent w)
    (n + ApiClient.reads w).

(** The path of the lookup request for an agency code. *)
Definition lookupPathFor (env : ApiClient.Env) (agencyCode : string) : string :=
  (toStr (orS (ApiClient.API_LOOKUP_PATH env) (Some "/api/v1/admin/vendor-forms/lookup"))
   ++ "?agency=" ++ ApiClient.encodeURIComponent agencyCode)%string.

End ClientInvariants.

(* ================================================================== *)
(** ** PKCE ([src/utils/pkce.ts]) and retries ([src/unnamed/part_007])  *)
(* ================================================================== *)

Module Pkce.
Import Js Url.

(** [String.fromCharCode(...bytes)] for bytes: the characters U+0000 to
    U+00FF, in the UTF-8 form of the strings here. *)
Definition charOfCode (b : nat) : string :=
  if (b <? 128)%nat then String (ascii_of_nat b) EmptyString
  else if (b <? 192)%nat
  then String (ascii_of_nat 194) (String (ascii_of_nat b) EmptyString)
  else String (ascii_of_nat 195) (String (ascii_of_nat (b - 64)) EmptyString).

Fixpoint fromCharCode (bytes : list nat) : string :=
  match bytes with
  | [] => EmptyString
  | b :: bytes' => (charOfCode b ++ fromCharCode bytes')%string
  end.

(** [s.replace(/c/g, d)] and [s.replace(/c/g, '')] for one character. *)
Fixpoint replaceAll (c d : ascii) (s : string) : string :=
  match s with
  | EmptyString => EmptyString
  | String x s' => String (if Ascii.eqb x c then d else x) (replaceAll c d s')
  end.

Fixpoint removeAll (c : ascii) (s : string) : string :=
  match s with
  | EmptyString => EmptyString
  | String x s' => if Ascii.eqb x c then removeAll c s' else String x (removeAll c s')
  end.

(** [generateCodeChallenge]. *)
Definition generateCodeChallenge (codeVerifier : string) : Completion string :=
  let data := HashGenerator.encode codeVerifier in
  let digest := Sha256.digest data in
  base64Digest <- btoa (fromCharCode (map Z.to_nat digest)) ;;
  Returned (removeAll "=" (replaceAll "/" "_" (replaceAll "+" "-" base64Digest))).

(** The characters of base64url. *)
Definition safeChar (c : ascii) : bool :=
  existsb (Ascii.eqb c)
    (list_ascii_of_string
       "ABCDEFGHIJKLMNOPQRSTUVWXYZabcdefghijklmnopqrstuvwxyz0123456789-_").

Definition urlSafe (s : string) : bool := forallb safeChar (list_ascii_of_string s).

End Pkce.

Module Retry.
Import Js.

(** How [withRetry] ends: with the value of [fn], or by throwing; what is
    thrown is an error, or [undefined] ([None]) when nothing was caught. *)
Inductive Ended (A : Type) : Type :=
| Succeeded (value : A)
| GaveUp (thrown : option Exn).
Arguments Succeeded {A} value.
Arguments GaveUp {A} thrown.

Section WithFn.
Context {A : Type}.

(** [fn], by the number of calls made before; the options after their
    defaults ([maxAttempts = 3], [delay = 1000], [backoff = true]). *)
Variable fn : nat -> Completion A.
Variable maxAttempts : nat.
Variable delay : Z.
Variable backoff : bool.
Variable onRetry : option (nat -> Exn -> Completion unit).

(** [backoff ? delay * Math.pow(2, attempt - 1) : delay]. *)
Definition waitTime (attempt : nat) : Z :=
  if backoff then (delay * 2 ^ Z.of_nat (attempt - 1))%Z else delay.

(** The loop [for (attempt = ...; attempt <= maxAttempts; attempt++)], by
    the number of iterations that remain; the waits are listed in the
    order in which they are made. *)
Fixpoint attemptFrom (remaining attempt : nat) (lastError : option Exn) (waits : list Z)
  : Ended A * list Z :=
  match remaining with
  | 0 => (GaveUp lastError, waits)
  | S remaining' =>
      match fn (attempt - 1) with
      | Returned value => (Succeeded value, waits)
      | Threw error =>
          if (attempt <? maxAttempts)%nat then
            match match onRetry with
                  | Some callback => callback attempt error
                  | None => Returned tt
                  end with
            | Returned _ =>
                attemptFrom remaining' (S attempt) (Some error) (waits ++ [waitTime attempt])
            | Threw thrown => (GaveUp (Some thrown), waits)
            end
          else attemptFrom remaining' (S attempt) (Some error) waits
      end
  end.

(** [withRetry]: its outcome and the waits it made. *)
Definition withRetry : Ended A * list Z := attemptFrom maxAttempts 1 None [].

End WithFn.

(** The sum of the waits. *)
Definition total (waits : list Z) : Z := fold_right Z.add 0%Z waits.

(** [onRetry] is absent or returns. *)
Definition quiet (onRetry : option (nat -> Exn -> Completion unit)) : Prop :=
  forall callback attempt error,
    onRetry = Some callback -> callback attempt error = Returned tt.

End Retry.

(* ================================================================== *)
(** ** Concrete companies, sessions and tokens                          *)
(* ================================================================== *)

Module Samples.
Import Js.

Definition northCompany : CompanyCache.CompanyInfo :=
  {| CompanyCache.company_id := "c-1"; CompanyCache.company_name := "North";
     CompanyCache.last_extraction := None; CompanyCache.extraction_count := None |}.

(** A store whose access token expires at 1000000 ms, and a token
    endpoint that answers, or fails. *)
Definition expiringTokens : SecureTokenStorage.Tokens :=
  {| SecureTokenStorage.s_access_token := Some "old";
     SecureTokenStorage.s_refresh_token := Some "r1";
     SecureTokenStorage.s_id_token := None;
     SecureTokenStorage.s_token_expiry := Some 1000000%Z;
     SecureTokenStorage.s_user_info := None |}.

Definition newTokens : SecureTokenStorage.TokenResponse :=
  {| SecureTokenStorage.access_token := "new"; SecureTokenStorage.id_token := None;
     SecureTokenStorage.refresh_token := None; SecureTokenStorage.expires_in := 3600%Z |}.

Definition endpointUp : string -> option SecureTokenStorage.TokenResponse :=
  fun _ => Some newTokens.

Definition endpointDown : string -> option SecureTokenStorage.TokenResponse :=
  fun _ => None.

(** A company as the lookup endpoint describes it, a store whose token
    never expires, and servers that answer every request alike, or the
    first request with 401. *)
Definition northJson : ApiClient.Json :=
  ApiClient.JObj [("company_id", ApiClient.JStr "c-1");
                  ("company_name", ApiClient.JStr "North")].

Definition freshTokens : SecureTokenStorage.Tokens :=
  {| SecureTokenStorage.s_access_token := Some "tok";
     SecureTokenStorage.s_refresh_token := None;
     SecureTokenStorage.s_id_token := None;
     SecureTokenStorage.s_token_expiry := None;
     SecureTokenStorage.s_user_info := None |}.

Definition emptyWorld : ApiClient.World := ApiClient.mkWorld freshTokens [] [] 0.

(** The same with the token that expires at 1000000 ms. *)
Definition expiringWorld : ApiClient.World := ApiClient.mkWorld expiringTokens [] [] 0.

Definition serverWith
  (answer : list ApiClient.Request -> ApiClient.Request -> ApiClient.FetchOutcome)
  : ApiClient.Env :=
  ApiClient.mkEnv answer (fun _ _ => None) (fun n => Z.of_nat n) None None None None.

Definition found : ApiClient.Env :=
  serverWith (fun _ _ => ApiClient.Answered 200 (Returned northJson)).

Definition notFound : ApiClient.Env :=
  serverWith (fun _ _ => ApiClient.Answered 404 (Returned ApiClient.JNull)).

Definition unauthorizedOnce : ApiClient.Env :=
  serverWith (fun before _ =>
                match before with
                | [] => ApiClient.Answered 401 (Returned ApiClient.JNull)
                | _ => ApiClient.Answered 200 (Returned northJson)
                end).

End Samples.

(* ================================================================== *)
(** ** Properties of the prelude                                        *)
(* ================================================================== *)

Section SortFacts.
Import Js.

Context {A : Type} (cmp : A -> A -> Z).
Hypothesis cmp_total : forall a b, (cmp a b <= 0 \/ cmp b a <= 0)%Z.
Hypothesis cmp_trans : forall a b c, (cmp a b <= 0 -> cmp b c <= 0 -> cmp a c <= 0)%Z.

#[local] Abbreviation before := (fun a b => (cmp a b <= 0)%Z).

Lemma insert_perm (x : A) (l : list A) : Permutation (insert cmp x l) (x :: l).
Proof.
  induction l as [|y l IH]; simpl.
  - apply Permutation_refl.
  - destruct (cmp x y <=? 0)%Z.
    + apply Permutation_refl.
    + apply perm_trans with (y :: x :: l).
      * now apply perm_skip.
      * apply perm_swap.
Qed.

Lemma sort_perm (l : list A) : Permutation (sort cmp l) l.
Proof.
  induction l as [|x l IH]; simpl.
  - apply perm_nil.
  - apply perm_trans with (x :: sort cmp l).
    + apply insert_perm.
    + now apply perm_skip.
Qed.

Lemma insert_sorted (x : A) (l : list A) :
  StronglySorted before l -> StronglySorted before (insert cmp x l).
Proof.
  induction 1 as [|y l Hl IH Hy]; simpl.
  - repeat constructor.
  - destruct (cmp x y <=? 0)%Z eqn:E.
    + apply Z.leb_le in E.
      constructor; [now constructor|].
      constructor; [exact E|].
      eapply Forall_impl; [|exact Hy].
      intros z Hz. now apply cmp_trans with y.
    + apply Z.leb_gt in E.
      constructor; [exact IH|].
      apply (Permutation_Forall (Permutation_sym (insert_perm x l))).
      constructor; [|exact Hy].
      destruct (cmp_total y x) as [H|H]; [exact H|lia].
Qed.

Lemma sort_sorted (l : list A) : StronglySorted before (sort cmp l).
Proof.
  induction l as [|x l IH]; simpl.
  - constructor.
  - now apply insert_sorted.
Qed.

(** Two sorted lists with the same elements are equal as soon as tied
    elements are equal. *)
Lemma sorted_perm_eq (l1 l2 : list A) :
  StronglySorted before l1 -> StronglySorted before l2 -> Permutation l1 l2 ->
  (forall a b, In a l1 -> In b l1 -> (cmp a b <= 0)%Z -> (cmp b a <= 0)%Z -> a = b) ->
  l1 = l2.
Proof.
  intros S1; revert l2.
  induction S1 as [|a l1 S1 IH Ha]; intros l2 S2 P T.
  - apply Permutation_nil in P. now subst.
  - destruct l2 as [|b l2].
    + apply Permutation_sym, Permutation_nil in P. discriminate.
    + inversion S2 as [|b' l2' S2' Hb]; subst.
      assert (Hab : (cmp a b <= 0)%Z).
      { assert (I : In b (a :: l1))
          by (apply (Permutation_in b (Permutation_sym P)); now left).
        destruct I as [->|I].
        - destruct (cmp_total b b); assumption.
        - rewrite Forall_forall in Ha. now apply Ha. }
      assert (Hba : (cmp b a <= 0)%Z).
      { assert (I : In a (b :: l2)) by (apply (Permutation_in a P); now left).
        destruct I as [->|I].
        - destruct (cmp_total a a); assumption.
        - rewrite Forall_forall in Hb. now apply Hb. }
      assert (E : a = b).
      { apply T; [now left| |exact Hab|exact Hba].
        apply (Permutation_in b (Permutation_sym P)). now left. }
      subst b. f_equal.
      apply IH; [exact S2'|now apply Permutation_cons_inv with a|].
      intros x y Hx Hy. apply T; now right.
Qed.

(** Sorting forgets the order of the input when ties are between equal
    elements. *)
Lemma sort_of_permutation (l1 l2 : list A) :
  Permutation l1 l2 ->
  (forall a b, In a l1 -> In b l1 -> (cmp a b <= 0)%Z -> (cmp b a <= 0)%Z -> a = b) ->
  sort cmp l1 = sort cmp l2.
Proof.
  intros P T. apply sorted_perm_eq.
  - apply sort_sorted.
  - apply sort_sorted.
  - apply perm_trans with l1; [apply sort_perm|].
    apply perm_trans with l2; [exact P|apply Permutation_sym, sort_perm].
  - intros a b Ia Ib. apply T.
    + now apply (Permutation_in a (sort_perm l1)).
    + now apply (Permutation_in b (sort_perm l1)).
Qed.

End SortFacts.

Section CompletionFacts.
Import Js.

Context {A B : Type} (f : A -> Completion B).

Lemma mapM_perm (l1 l2 : list A) (r1 : list B) :
  Permutation l1 l2 -> mapM f l1 = Returned r1 ->
  exists r2, mapM f l2 = Returned r2 /\ Permutation r1 r2.
Proof.
  intros P; revert r1.
  induction P as [|x l1 l2 P IH|x y l|l1 l2 l3 P1 IH1 P2 IH2]; intros r1 H.
  - exists r1. split; [exact H|apply Permutation_refl].
  - simpl in *. destruct (f x) as [b|e]; [|discriminate]. simpl in *.
    destruct (mapM f l1) as [bs|e] eqn:E; [|discriminate]. simpl in H.
    injection H as <-.
    destruct (IH bs eq_refl) as [r2 [-> P2]]. simpl.
    exists (b :: r2). split; [reflexivity|now apply perm_skip].
  - simpl in *. destruct (f y) as [b|e]; [|discriminate]. simpl in *.
    destruct (f x) as [c|e]; [|discriminate]. simpl in *.
    destruct (mapM f l) as [bs|e]; [|discriminate]. simpl in *.
    injection H as <-.
    exists (c :: b :: bs). split; [reflexivity|apply perm_swap].
  - destruct (IH1 r1 H) as [r2 [H2 Q1]].
    destruct (IH2 r2 H2) as [r3 [H3 Q2]].
    exists r3. split; [exact H3|now apply perm_trans with r2].
Qed.

Lemma mapM_perm_threw (l1 l2 : list A) (e : Exn) :
  Permutation l1 l2 -> mapM f l1 = Threw e -> exists e', mapM f l2 = Threw e'.
Proof.
  intros P H. destruct (mapM f l2) as [r2|e'] eqn:E.
  - destruct (mapM_perm l2 l1 r2 (Permutation_sym P) E) as [r1 [H1 _]].
    congruence.
  - now exists e'.
Qed.

Lemma mapM_In (l : list A) (r : list B) (b : B) :
  mapM f l = Returned r -> In b r -> exists a, In a l /\ f a = Returned b.
Proof.
  revert r. induction l as [|x l IH]; intros r H I; simpl in H.
  - injection H as <-. destruct I.
  - destruct (f x) as [c|e] eqn:Fx; [|discriminate]. simpl in H.
    destruct (mapM f l) as [bs|e]; [|discriminate]. simpl in H.
    injection H as <-. destruct I as [<-|I].
    + exists x. split; [now left|exact Fx].
    + destruct (IH bs eq_refl I) as [a [Ia Fa]].
      exists a. split; [now right|exact Fa].
Qed.

End CompletionFacts.

(* ================================================================== *)
(** ** Properties of the fingerprint generator                          *)
(* ================================================================== *)

Section HashOrder.
Import Js Schema HashGenerator.

Variable localeCompare : string -> string -> Z.
Hypothesis locale_total : forall a b, (localeCompare a b <= 0 \/ localeCompare b a <= 0)%Z.
Hypothesis locale_trans :
  forall a b c, (localeCompare a b <= 0 -> localeCompare b c <= 0 -> localeCompare a c <= 0)%Z.

Context {A B : Type} (project : A -> B) (ident : B -> string) (what : string).

Lemma sortedById_same_elements (s1 s2 : Slot (option A)) :
  SameElements s1 s2 -> tiesAgree localeCompare project ident s1 ->
  (forall r, sortedById localeCompare what (readElement project) ident s1 = Returned r ->
             sortedById localeCompare what (readElement project) ident s2 = Returned r)
  /\ (forall e, sortedById localeCompare what (readElement project) ident s1 = Threw e ->
      exists e', sortedById localeCompare what (readElement project) ident s2 = Threw e').
Proof.
  intros S T. destruct S as [| | |l1 l2 P]; unfold sortedById; simpl.
  - split; [auto|intros e H; now exists e].
  - split; [auto|intros e H; now exists e].
  - split; [auto|intros e H; now exists e].
  - split.
    + intros r H.
      destruct (mapM (readElement project) l1) as [h1|e] eqn:E1; [|discriminate].
      simpl in H. injection H as <-.
      destruct (mapM_perm _ l1 l2 h1 P E1) as [h2 [-> Q]]. simpl.
      f_equal. symmetry.
      apply (sort_of_permutation (fun a b => localeCompare (ident a) (ident b))).
      { intros a b. apply locale_total. }
      { intros a b c. apply locale_trans. }
      { exact Q. }
      intros a b Ia Ib Hab Hba.
      destruct (mapM_In _ _ _ a E1 Ia) as [[x|] [Ix Fx]]; [|discriminate].
      destruct (mapM_In _ _ _ b E1 Ib) as [[y|] [Iy Fy]]; [|discriminate].
      simpl in Fx, Fy. injection Fx as <-. injection Fy as <-.
      now apply (T l1).
    + intros e H.
      destruct (mapM (readElement project) l1) as [h1|e1] eqn:E1; [discriminate|].
      destruct (mapM_perm_threw _ l1 l2 e1 P E1) as [e2 ->]. simpl.
      now exists e2.
Qed.

End HashOrder.

Section CodeUnitOrder.
Import Js.

Lemma compareCodeUnits_le (a b : string) :
  (compareCodeUnits a b <= 0)%Z <-> a = b \/ String_as_OT.lt a b.
Proof.
  unfold compareCodeUnits.
  destruct (String.compare a b) eqn:E.
  - apply String_as_OT.cmp_eq in E. split; [now left|lia].
  - apply String_as_OT.cmp_lt in E. split; [now right|lia].
  - split; [lia|].
    intros [H|H].
    + apply String_as_OT.cmp_eq in H. unfold String_as_OT.cmp in H. congruence.
    + apply String_as_OT.cmp_lt in H. unfold String_as_OT.cmp in H. congruence.
Qed.

Lemma compareCodeUnits_total (a b : string) :
  (compareCodeUnits a b <= 0 \/ compareCodeUnits b a <= 0)%Z.
Proof.
  unfold compareCodeUnits.
  pose proof (String_as_OT.cmp_antisym a b) as H. unfold String_as_OT.cmp in H.
  rewrite H. destruct (String.compare b a); simpl; lia.
Qed.

Lemma compareCodeUnits_trans (a b c : string) :
  (compareCodeUnits a b <= 0 -> compareCodeUnits b c <= 0 -> compareCodeUnits a c <= 0)%Z.
Proof.
  rewrite !compareCodeUnits_le.
  intros [->|H1] [->|H2]; auto.
  right. now apply String_as_OT.lt_trans with b.
Qed.

End CodeUnitOrder.

Section HashClaims.
Import Js Schema HashGenerator Scenarios.




End HashClaims.

Section DigestShape.
Import Js HashGenerator.

Lemma compress_length (h block : list Z) :
  List.length h = 8 -> List.length (Sha256.compress h block) = 8.
Proof.
  intros H. unfold Sha256.compress.
  rewrite length_map, length_combine, H. reflexivity.
Qed.

Lemma digest_length (msg : list Z) : List.length (Sha256.digest msg) = 32.
Proof.
  unfold Sha256.digest.
  set (blocks := Sha256.chunks _ _).
  assert (H : List.length (fold_left Sha256.compress blocks Sha256.H0) = 8).
  { generalize blocks. clear blocks.
    assert (H0 : List.length Sha256.H0 = 8) by reflexivity.
    revert H0. generalize Sha256.H0.
    intros h Hh bs. revert h Hh.
    induction bs as [|b bs IH]; intros h Hh; simpl.
    - exact Hh.
    - apply IH. now apply compress_length. }
  revert H. generalize (fold_left Sha256.compress blocks Sha256.H0).
  intros h H.
  do 9 (destruct h as [|? h]; try discriminate H).
  reflexivity.
Qed.

Lemma length_string_append (a b : string) :
  String.length (a ++ b) = String.length a + String.length b.
Proof.
  induction a as [|c a IH]; simpl; [reflexivity|now rewrite IH].
Qed.

Lemma toHex_length (bytes : list Z) :
  String.length (toHex bytes) = 2 * List.length bytes.
Proof.
  unfold toHex.
  induction bytes as [|b bs IH]; [reflexivity|].
  simpl map. destruct bs as [|b' bs].
  - reflexivity.
  - change (String.concat "" (hexByte (Z.to_nat b) :: map _ (b' :: bs)))
      with (hexByte (Z.to_nat b) ++ ""
            ++ String.concat "" (map (fun b => hexByte (Z.to_nat b)) (b' :: bs)))%string.
    rewrite !length_string_append, IH. simpl. lia.
Qed.

(** A digest is rendered on 64 characters. *)
Lemma sha256Hex_length (s : string) : String.length (sha256Hex s) = 64.
Proof.
  unfold sha256Hex. now rewrite toHex_length, digest_length.
Qed.

Lemma hexDigit_lower (n : nat) : isLowerHex (hexDigit n) = true.
Proof.
  do 16 (destruct n as [|n]; [reflexivity|]). reflexivity.
Qed.

Lemma allLowerHex_append (a b : string) :
  allLowerHex (a ++ b) = allLowerHex a && allLowerHex b.
Proof.
  unfold allLowerHex. induction a as [|c a IH]; simpl; [reflexivity|].
  now rewrite IH, andb_assoc.
Qed.

Lemma toHex_lower (bytes : list Z) : allLowerHex (toHex bytes) = true.
Proof.
  unfold toHex.
  induction bytes as [|b bs IH]; [reflexivity|].
  assert (B : allLowerHex (hexByte (Z.to_nat b)) = true).
  { unfold allLowerHex, hexByte. simpl. now rewrite !hexDigit_lower. }
  simpl map. destruct bs as [|b' bs].
  - exact B.
  - change (String.concat "" (hexByte (Z.to_nat b) :: map _ (b' :: bs)))
      with (hexByte (Z.to_nat b) ++ ""
            ++ String.concat "" (map (fun b => hexByte (Z.to_nat b)) (b' :: bs)))%string.
    now rewrite !allLowerHex_append, B, IH.
Qed.

(** A digest is rendered in lowercase hexadecimal. *)
Lemma sha256Hex_lower (s : string) : allLowerHex (sha256Hex s) = true.
Proof.
  apply toHex_lower.
Qed.

(** The digests of the empty message and of abc (FIPS 180-4). *)
Lemma sha256Hex_test_vectors :
  sha256Hex "" = "e3b0c44298fc1c149afbf4c8996fb92427ae41e4649b934ca495991b7852b855"
  /\ sha256Hex "abc"
     = "ba7816bf8f01cfea414140de5dae2223b00361a396177a9cb410ff61f20015ad".
Proof.
  split; vm_compute; reflexivity.
Qed.

End DigestShape.

Section QuickHashClaims.
Import Js Schema HashGenerator Scenarios.

(** C10.  [generateQuickHash] never rejects: its promise resolves for every
    input, with the empty string exactly when its digest computation
    throws, whereas [generateHash] rejects with the error
    'Failed to generate form hash' when its computation throws. *)
Theorem generateQuickHash_never_rejects :
  forall (localeCompare : string -> string -> Z) (formData : option FormData),
    (exists value, generateQuickHash formData = Resolved value)
    /\ (generateQuickHash formData = Resolved ""
        <-> exists e, generateQuickHash_body formData = Threw e)
    /\ (forall e, generateHash_body localeCompare formData = Threw e ->
          generateHash localeCompare formData
          = Rejected (Error "Failed to generate form hash")).
Proof.
  intros cmp formData. unfold generateQuickHash, generateHash.
  split; [|split].
  - destruct (generateQuickHash_body formData) as [h|e]; eauto.
  - destruct (generateQuickHash_body formData) as [h|e] eqn:E.
    + split.
      * intros H. injection H as H.
        assert (L : String.length h = 64).
        { unfold generateQuickHash_body in E.
          destruct formData as [fd|]; [|discriminate].
          destruct (sortedIds _ _ (fields fd)); [|discriminate]. simpl in E.
          destruct (sortedIds _ _ (resourceGroups fd)); [|discriminate]. simpl in E.
          injection E as <-. apply sha256Hex_length. }
        rewrite H in L. discriminate L.
      * intros [e H]. discriminate H.
    + split; [intros _; now exists e|reflexivity].
  - intros e H. now rewrite H.
Qed.

(** The theorem at a result whose [fields] is not an array: both digest
    computations throw. *)
Lemma generateQuickHash_never_rejects_witness :
  generateQuickHash (Some malformedFields) = Resolved ""
  /\ generateHash compareCodeUnits (Some malformedFields)
     = Rejected (Error "Failed to generate form hash").
Proof.
  destruct (generateQuickHash_never_rejects compareCodeUnits (Some malformedFields))
    as [_ [Q H]].
  split.
  - apply Q. eexists. reflexivity.
  - eapply H. reflexivity.
Defined.

End QuickHashClaims.

(* ================================================================== *)
(** ** Properties of the extractor                                      *)
(* ================================================================== *)

Section ScenarioClaims.
Import Js Schema Extractor Scenarios.

(** C4 as stated fails: in the scenario the dictionary pass records the
    group under [resourceId]; the property [resourceGroupId] is written by
    the layout pass only and stays unset. *)
Lemma yesNo_scenario_resourceGroupId_unset :
  ~ (exists d,
        extractFields noControls NoLayouts (Some yesNoDictionary) (Some yesNoResources) = [d]
        /\ id d = Some "F1"
        /\ resourceGroupId d = Some "F1"
        /\ option_map (map (fun v => (pv_id v, pv_value v, pv_order v))) (possibleValues d)
           = Some [(Some "1", Some "Y", 0%Z); (Some "2", Some "N", 1%Z)]).
Proof.
  intros [d [E [_ [R _]]]].
  vm_compute in E. injection E as <-. discriminate R.
Qed.

(** C4 (amended).  For FieldDictionary = [{bpID: F1, type: SingleSelect}]
    and ResourceTable = {F1: {Elements: [{Id: 1, Value: Y, SortOrder: 0},
    {Id: 2, Value: N, SortOrder: 1}]}}, [extractFields] yields exactly one
    descriptor, with id F1, resourceId F1, no resourceGroupId, and
    possibleValues [{id: 1, value: Y, text: Y, order: 0},
    {id: 2, value: N, text: N, order: 1}]. *)
Theorem yesNo_scenario :
  forall heap : ref -> Control,
  exists d,
    extractFields heap NoLayouts (Some yesNoDictionary) (Some yesNoResources) = [d]
    /\ id d = Some "F1"
    /\ resourceId d = Some "F1"
    /\ resourceGroupId d = None
    /\ possibleValues d = Some yesNoValues.
Proof.
  intros heap. eexists. split; [reflexivity|].
  repeat split.
Qed.

(** C8, at a failing input.  The analysis returns null for absent form
    actions and three empty lists when no action carries an expression
    group; but a term group with [CalculationOperatorID: null] puts [null]
    into the calculation list, since only [undefined] is excluded there. *)
Theorem analyzeOperators_collects_null :
  analyzeOperators None = Returned None
  /\ analyzeOperators (Some noExpressionGroups)
     = Returned (Some {| oa_expression := []; oa_boolean := []; oa_calculation := [] |})
  /\ analyzeOperators (Some nullCalculation)
     = Returned (Some {| oa_expression := []; oa_boolean := [];
                         oa_calculation := [ElNull] |}).
Proof.
  repeat split.
Qed.

Lemma findRepeaters_self_reference (stack : nat) (path : string) (acc : list Repeater) :
  findRepeaters selfReferencing stack (selfReferencing 0) path acc
  = Threw (RangeError "Maximum call stack size exceeded").
Proof.
  revert path acc. induction stack as [|stack IH]; intros path acc.
  - reflexivity.
  - simpl. now rewrite IH.
Qed.

(** C3, at a failing input.  On a control that is its own child the field
    traversal stops at the ceiling and returns the single descriptor X; the
    repeater walk has no ceiling and exhausts the call stack, whatever its
    size. *)
Theorem extractRepeaters_overflows_on_cycle :
  List.length (extractFields selfReferencing (LayoutArray [Some cyclicLayout]) None None) = 1
  /\ forall stack : nat,
       extractRepeaters selfReferencing stack (LayoutArray [Some cyclicLayout])
       = Threw (RangeError "Maximum call stack size exceeded").
Proof.
  split; [reflexivity|].
  intros [|stack]; [reflexivity|].
  simpl. now rewrite findRepeaters_self_reference.
Qed.

End ScenarioClaims.

Section TraversalGuard.
Import Js Schema Extractor.

Variable heap : ref -> Control.

(** [traverseControls] as the source writes it: nothing happens beyond
    depth 10, and up to depth 10 every control is visited and its children
    are traversed one level deeper. *)
Lemma traverseControls_beyond_ceiling (cs : option (list ref)) (path : string)
  (depth : nat) (fm : FieldMap) :
  10 < depth -> traverseControls heap cs path depth fm = fm.
Proof.
  intros H. destruct cs as [cs|]; [|reflexivity].
  unfold traverseControls.
  replace (11 - depth) with 0 by lia. reflexivity.
Qed.

Lemma traverseControls_within_ceiling (cs : list ref) (path : string)
  (depth : nat) (fm : FieldMap) :
  depth <= 10 ->
  traverseControls heap (Some cs) path depth fm
  = fold_left
      (fun fm r =>
         let fm' := visit (heap r) path fm in
         match Controls (heap r) with
         | Some cs' =>
             traverseControls heap (Some cs')
               (path ++ "/" ++ toStr (orS (Name (heap r)) (Some "group")))%string
               (depth + 1) fm'
         | None => fm'
         end)
      cs fm.
Proof.
  intros H. unfold traverseControls.
  replace (11 - depth) with (S (11 - (depth + 1))) by lia.
  reflexivity.
Qed.

End TraversalGuard.

Section RuleNormalization.
Import Js Schema Extractor Scenarios.

Lemma mapM_length {A B : Type} (f : A -> Completion B) (l : list A) (r : list B) :
  mapM f l = Returned r -> List.length l = List.length r.
Proof.
  revert r. induction l as [|x l IH]; intros r H; simpl in H.
  - now injection H as <-.
  - destruct (f x); [|discriminate]. simpl in H.
    destruct (mapM f l) as [ys|]; [|discriminate]. simpl in H.
    injection H as <-. simpl. f_equal. now apply IH.
Qed.

Lemma normalizeComparison_returns (l : list (option RawExpression)) :
  forallb (fun e => match e with Some _ => true | None => false end) l = true ->
  exists r, mapM normalizeComparison l = Returned r.
Proof.
  induction l as [|[e|] l IH]; simpl; intros H.
  - now eexists.
  - destruct (IH H) as [r ->]. simpl. now eexists.
  - discriminate.
Qed.

(** A group without [null] comparison is normalised without exception. *)
Lemma normalizeGroup_returns (g : RawGroup) :
  noNullComparison g = true -> exists r, normalizeGroup g = Returned r.
Proof.
  revert g. fix normalizeGroup_returns 1. intros g.
  destruct g as [boolOp exps groups]. simpl. intros H.
  apply andb_true_iff in H. destruct H as [He Hg].
  assert (E : exists es, optionalMap normalizeComparison exps = Returned es).
  { destruct exps as [l|]; simpl.
    - destruct (normalizeComparison_returns l He) as [r ->]. simpl. now eexists.
    - now eexists. }
  destruct E as [es ->]. simpl.
  assert (G : exists gs,
             optionalMap (fun group =>
                            match group with
                            | Some g => r <- normalizeGroup g ;; Returned (Some r)
                            | None => Returned None
                            end) groups = Returned gs).
  { destruct groups as [l|]; simpl; [|now eexists].
    assert (L : exists rs,
               mapM (fun group =>
                       match group with
                       | Some g => r <- normalizeGroup g ;; Returned (Some r)
                       | None => Returned None
                       end) l = Returned rs).
    { induction l as [|[g|] l IHl]; simpl in Hg |- *.
      - now eexists.
      - apply andb_true_iff in Hg. destruct Hg as [Hg1 Hg2].
        destruct (normalizeGroup_returns g Hg1) as [r ->]. simpl.
        destruct (IHl Hg2) as [rs ->]. simpl. now eexists.
      - destruct (IHl Hg) as [rs ->]. simpl. now eexists. }
    destruct L as [rs ->]. simpl. now eexists. }
  destruct G as [gs ->]. simpl. now eexists.
Qed.

(** The result of a normalisation mirrors the raw group. *)
Lemma normalizeGroup_mirrors (g : RawGroup) :
  forall r, normalizeGroup g = Returned r -> Mirrors (Some g) (Some r).
Proof.
  revert g. fix normalizeGroup_mirrors 1. intros g.
  destruct g as [boolOp exps groups]. simpl. intros r H.
  destruct (optionalMap normalizeComparison exps) as [es|] eqn:E; [|discriminate].
  simpl in H.
  destruct (optionalMap _ groups) as [gs|] eqn:G; [|discriminate].
  simpl in H. injection H as <-.
  constructor.
  - destruct exps as [l|]; simpl in E.
    + destruct (mapM normalizeComparison l) as [ys|] eqn:M; [|discriminate].
      simpl in E. injection E as <-. constructor. now apply mapM_length with normalizeComparison.
    + injection E as <-. constructor.
  - destruct groups as [l|]; simpl in G.
    + destruct (mapM _ l) as [ys|] eqn:M; [|discriminate].
      simpl in G. injection G as <-. constructor.
      revert ys M. induction l as [|[g|] l IHl]; intros ys M; simpl in M.
      * injection M as <-. constructor.
      * destruct (normalizeGroup g) as [r|] eqn:N; [|discriminate]. simpl in M.
        destruct (mapM _ l) as [rs|]; [|discriminate]. simpl in M.
        injection M as <-. constructor.
        -- now apply normalizeGroup_mirrors.
        -- now apply IHl.
      * destruct (mapM _ l) as [rs|]; [|discriminate]. simpl in M.
        injection M as <-. constructor; [constructor|now apply IHl].
    + injection G as <-. constructor.
Qed.

(** C7 as stated fails: a group without comparison list and without
    child-group list is normalised to an object whose [expressions] and
    [childGroups] are [undefined], not empty lists. *)
Lemma normalizeExpression_missing_lists_stay_missing :
  normalizeExpression (Some bareGroup)
  = Returned (Some (mkRuleExpression (Val 1%Z) None None))
  /\ normalizeExpression (Some bareGroup)
     <> Returned (Some (mkRuleExpression (Val 1%Z) (Some []) (Some []))).
Proof.
  split; [reflexivity|discriminate].
Qed.

(** C7 (amended).  At every nesting level of [normalizeExpression] an
    absent raw expression group is mapped to null, and an absent comparison
    list or child-group list is mapped to an absent ([undefined]) field of
    the normalised expression; a list that is present is mapped to a list
    of the same length.  The normalisation returns whenever no comparison
    list holds a null entry. *)
Theorem normalizeExpression_mirrors_missing_parts :
  normalizeExpression None = Returned None
  /\ (forall g, noNullComparison g = true ->
        exists r, normalizeExpression (Some g) = Returned (Some r))
  /\ (forall expr r, normalizeExpression expr = Returned r -> Mirrors expr r).
Proof.
  split; [reflexivity|split].
  - intros g H. unfold normalizeExpression.
    destruct (normalizeGroup_returns g H) as [r ->]. simpl. now eexists.
  - intros [g|] r H; simpl in H.
    + destruct (normalizeGroup g) as [r'|] eqn:N; [|discriminate].
      simpl in H. injection H as <-. now apply normalizeGroup_mirrors.
    + injection H as <-. constructor.
Qed.

(** The theorem at a group with a missing comparison list, a child without
    any list and a null child. *)
Lemma normalizeExpression_mirrors_missing_parts_witness :
  (exists r, normalizeExpression (Some parentOfBareGroup) = Returned (Some r))
  /\ Mirrors (Some parentOfBareGroup)
       (Some (mkRuleExpression (Val 2%Z) None
                (Some [Some (mkRuleExpression (Val 1%Z) None None); None]))).
Proof.
  destruct normalizeExpression_mirrors_missing_parts as [_ [R M]].
  split.
  - apply R. reflexivity.
  - apply M. reflexivity.
Defined.

End RuleNormalization.

Section Orchestration.
Import Js Schema Extractor Scenarios.

Variable heap : ref -> Control.
Variable stringifyLayout : Layout -> Completion string.
Variable stack : nat.

#[local] Abbreviation run := (extractFormMapping heap stringifyLayout stack).

Lemma extractFormMapping_without_composer (page : Page) :
  formComposer page = None ->
  run page = IMAGETREND_ERROR (cannotRead "formHierarchyCollectionId").
Proof.
  intros H. unfold extractFormMapping, extractFormMapping_body. now rewrite H.
Qed.

Lemma extractFormMapping_stage_failure (page : Page) (e : Exn) :
  analyzeOperators (formActionsOf page) = Threw e
  \/ extractRules (validationsOf page) (visibilitiesOf page) = Threw e ->
  exists e', run page = IMAGETREND_ERROR e'.
Proof.
  intros H. unfold extractFormMapping, extractFormMapping_body.
  destruct (formComposer page) as [fc|]; [|now eexists].
  destruct (sampleLayout stringifyLayout (agencyLayouts fc)); [|now eexists]. simpl.
  destruct (analyzeOperators (formActionsOf page)) as [ops|e1]; [|now eexists]. simpl.
  destruct (extractRules (validationsOf page) (visibilitiesOf page)) as [rules|e2];
    [|now eexists].
  destruct H as [H|H]; discriminate H.
Qed.

Lemma extractFormMapping_repeater_failure (page : Page) (fc : FormComposer) (e : Exn) :
  formComposer page = Some fc ->
  extractRepeaters heap stack (agencyLayouts fc) = Threw e ->
  exists e', run page = IMAGETREND_ERROR e'.
Proof.
  intros Hfc H. unfold extractFormMapping, extractFormMapping_body. rewrite Hfc.
  destruct (sampleLayout stringifyLayout (agencyLayouts fc)); [|now eexists]. simpl.
  destruct (analyzeOperators (formActionsOf page)) as [ops|e1]; [|now eexists]. simpl.
  destruct (extractRules (validationsOf page) (visibilitiesOf page)) as [rules|e2];
    [|now eexists].
  simpl. rewrite H. now eexists.
Qed.

Lemma extractFormMapping_delivered (page : Page) (payload : FormMapping) :
  run page = IMAGETREND_DATA payload ->
  exists fc,
    formComposer page = Some fc
    /\ fm_fields payload
       = extractFields heap (agencyLayouts fc) (formFieldDictionary fc) (resourcesOf page fc)
    /\ fm_resourceGroups payload = extractResourceGroups (resourcesOf page fc)
    /\ fm_formActions payload = extractFormActions (formActionsOf page)
    /\ analyzeOperators (formActionsOf page) = Returned (fm_operators payload)
    /\ extractRules (validationsOf page) (visibilitiesOf page) = Returned (fm_rules payload)
    /\ extractRepeaters heap stack (agencyLayouts fc) = Returned (fm_repeaters payload).
Proof.
  unfold extractFormMapping, extractFormMapping_body.
  destruct (formComposer page) as [fc|]; [|discriminate].
  destruct (sampleLayout stringifyLayout (agencyLayouts fc)); [|discriminate]. simpl.
  destruct (analyzeOperators (formActionsOf page)) as [ops|] eqn:Ops; [|discriminate].
  simpl.
  destruct (extractRules (validationsOf page) (visibilitiesOf page)) as [rules|] eqn:Rules;
    [|discriminate].
  simpl.
  destruct (extractRepeaters heap stack (agencyLayouts fc)) as [reps|] eqn:Reps;
    [|discriminate].
  simpl. intros H. injection H as <-. exists fc. simpl.
  repeat split; assumption.
Qed.

Lemma extractFormMapping_nothing_to_extract (page : Page) (fc : FormComposer) :
  formComposer page = Some fc ->
  agencyLayouts fc = NoLayouts -> formFieldDictionary fc = None ->
  resourcesOf page fc = None -> formActionsOf page = None -> logicEngine page = None ->
  exists payload,
    run page = IMAGETREND_DATA payload
    /\ fm_fields payload = [] /\ fm_resourceGroups payload = []
    /\ fm_formActions payload = None /\ fm_operators payload = None
    /\ fm_rules payload = [] /\ fm_repeaters payload = [].
Proof.
  intros Hfc Hl Hd Hr Ha Hle.
  unfold extractFormMapping, extractFormMapping_body, validationsOf, visibilitiesOf.
  rewrite Hfc, Hl, Hd, Hr, Ha, Hle. simpl.
  eexists. split; [reflexivity|]. simpl. repeat split.
Qed.

End Orchestration.

Section OrchestrationClaims.
Import Js Schema Extractor Scenarios.




(** A single layout object is accepted by [extractFields] and refused by
    [extractRepeaters], which calls [forEach] on it: the fields are
    reconciled, and the extraction as a whole posts the error. *)
Lemma single_layout_object_fails :
  map (fun d => (id d, label d, bindingPath d))
      (extractFields boundHeap (SingleLayout boundLayout) (Some labelledDictionary) None)
  = [(Some "X", Some "A", Some "/x/y")]
  /\ extractFormMapping boundHeap noStringify 100 singleLayoutPage
     = IMAGETREND_ERROR (notAFunction "layouts?.forEach").
Proof.
  split; reflexivity.
Qed.

End OrchestrationClaims.

Section Substrings.
Import Js Extractor.

Lemma prefix_spec (pat s : string) :
  prefix pat s = true <-> exists after, s = (pat ++ after)%string.
Proof.
  revert s. induction pat as [|c pat IH]; intros s.
  - split; [intros _; now exists s|intros _; now destruct s].
  - destruct s as [|c' s]; simpl.
    + split; [discriminate|intros [after H]; discriminate H].
    + destruct (ascii_dec c c') as [<-|N].
      * rewrite IH. split; intros [after H]; exists after.
        -- now rewrite H.
        -- now injection H.
      * split; [discriminate|].
        intros [after H]. injection H as H _. congruence.
Qed.

Lemma includes_cons (pat : string) (c : ascii) (s : string) :
  includes pat (String c s)
  = if prefix pat (String c s) then true else includes pat s.
Proof.
  reflexivity.
Qed.

Lemma includes_spec (pat s : string) : includes pat s = true <-> Contains pat s.
Proof.
  split.
  - induction s as [|c s IH].
    + destruct pat; [intros _; now exists "", ""|intros H; discriminate H].
    + rewrite includes_cons.
      destruct (prefix pat (String c s)) eqn:P.
      * intros _. apply prefix_spec in P. destruct P as [after P].
        exists "", after. exact P.
      * intros H. destruct (IH H) as [before [after E]].
        exists (String c before), after. simpl. now rewrite E.
  - intros [before [after E]]. subst s.
    induction before as [|c before IH].
    + simpl append.
      assert (P : prefix pat (pat ++ after) = true)
        by (apply prefix_spec; now exists after).
      destruct (pat ++ after)%string as [|c s].
      * destruct pat; [reflexivity|discriminate P].
      * rewrite includes_cons. now rewrite P.
    + change (String c before ++ pat ++ after)%string
        with (String c (before ++ pat ++ after)).
      rewrite includes_cons.
      destruct (prefix pat _); [reflexivity|exact IH].
Qed.

Lemma includes_nonempty (pat s : string) :
  pat <> "" -> includes pat s = true -> s <> "".
Proof.
  intros N H ->. simpl in H. destruct pat; [now apply N|discriminate].
Qed.

Lemma toLowerCase_app (a b : string) :
  toLowerCase (a ++ b) = (toLowerCase a ++ toLowerCase b)%string.
Proof.
  induction a as [|c a IH]; simpl; [reflexivity|now rewrite IH].
Qed.

Lemma toLowerCase_split (s a' b' : string) :
  toLowerCase s = (a' ++ b')%string ->
  exists a b, s = (a ++ b)%string /\ toLowerCase a = a' /\ toLowerCase b = b'.
Proof.
  revert s. induction a' as [|c a' IH]; intros s H.
  - exists "", s. now repeat split.
  - destruct s as [|x s]; [discriminate H|]. simpl in H. injection H as Hx Hs.
    destruct (IH s Hs) as [a [b [-> [Ea Eb]]]].
    exists (String x a), b. simpl. rewrite Ea, Hx. now repeat split.
Qed.

(** Which characters [toLowerCase] maps to a small letter of the marker. *)
Lemma lower_ascii_letter (c : ascii) :
  (lower_ascii c = "g"%char <-> EitherCase "g" "G" c)
  /\ (lower_ascii c = "r"%char <-> EitherCase "r" "R" c)
  /\ (lower_ascii c = "i"%char <-> EitherCase "i" "I" c)
  /\ (lower_ascii c = "d"%char <-> EitherCase "d" "D" c).
Proof.
  unfold EitherCase.
  destruct c as [[|] [|] [|] [|] [|] [|] [|] [|]]; vm_compute;
    repeat split; intros H;
    solve [discriminate H | now left | now right
           | destruct H as [H|H]; discriminate H | reflexivity].
Qed.

(** The grid marker is what the source looks for: the text grid in the
    lower-cased control type. *)
Lemma GridMarker_spec (control : Control) :
  GridMarker control
  <-> exists ct, ControlType control = Some ct /\ Contains "grid" (toLowerCase ct).
Proof.
  split.
  - intros [before [after [g [r [i [d [E [Hg [Hr [Hi Hd]]]]]]]]]].
    eexists. split; [exact E|].
    exists (toLowerCase before), (toLowerCase after).
    rewrite toLowerCase_app. simpl.
    apply (proj1 (lower_ascii_letter g)) in Hg.
    apply (proj1 (proj2 (lower_ascii_letter r))) in Hr.
    apply (proj1 (proj2 (proj2 (lower_ascii_letter i)))) in Hi.
    apply (proj2 (proj2 (proj2 (lower_ascii_letter d)))) in Hd.
    now rewrite Hg, Hr, Hi, Hd.
  - intros [ct [E [before' [after' H]]]].
    destruct (toLowerCase_split ct before' _ H) as [before [b [-> [_ Hb]]]].
    destruct b as [|g [|r [|i [|d after]]]]; try discriminate Hb.
    simpl in Hb. injection Hb as Hg Hr Hi Hd _.
    exists before, after, g, r, i, d. split; [exact E|].
    repeat split.
    + now apply (proj1 (lower_ascii_letter g)).
    + now apply (proj1 (proj2 (lower_ascii_letter r))).
    + now apply (proj1 (proj2 (proj2 (lower_ascii_letter i)))).
    + now apply (proj2 (proj2 (proj2 (lower_ascii_letter d)))).
Qed.

(** The condition of the source is the disjunction of the five signals. *)
Lemma isCollectionField_spec (control : Control) :
  isCollectionField control = true <-> MultiValued control.
Proof.
  unfold MultiValued. rewrite GridMarker_spec.
  unfold isCollectionField, ExplicitMultiSelect,
    ArrayNotation, RepeatingFlag, CardinalityAboveOne.
  rewrite !orb_true_iff, !andb_true_iff.
  split.
  - intros [[[[[[T G]|M]|[T A]]|R]|C]|[T N]].
    + left. destruct (ControlType control) as [ct|]; [|discriminate].
      exists ct. split; [reflexivity|now apply includes_spec].
    + right; left. destruct (ControlType control) as [ct|]; [|discriminate].
      simpl in M. apply String.eqb_eq in M. now subst.
    + right; right; left. destruct (BindingPath control) as [bp|]; [|discriminate].
      exists bp. split; [reflexivity|now apply includes_spec].
    + right; right; right; left. left.
      destruct (IsRepeating control) as [[|]|]; try discriminate. reflexivity.
    + right; right; right; left. right.
      destruct (IsCollection control) as [[|]|]; try discriminate. reflexivity.
    + right; right; right; right.
      destruct (MaxCardinality control) as [n|]; [|discriminate].
      exists n. split; [reflexivity|]. simpl in N. lia.
  - intros [[ct [E G]]|[M|[[bp [E A]]|[[R|C]|[n [E N]]]]]].
    + left; left; left; left; left. rewrite E. simpl.
      apply includes_spec in G. split; [|exact G].
      destruct ct; [discriminate G|reflexivity].
    + left; left; left; left; right. rewrite M. reflexivity.
    + left; left; left; right. rewrite E. simpl.
      apply includes_spec in A. split; [|exact A].
      destruct bp; [discriminate A|reflexivity].
    + left; left; right. now rewrite R.
    + left; right. now rewrite C.
    + right. rewrite E. simpl. split; [|lia].
      destruct (Z.eqb_spec n 0); [lia|reflexivity].
Qed.

End Substrings.

Section FieldMapFacts.
Import Js Schema Extractor.

Context {A : Type}.

Lemma get_set_same (k : string) (v : A) (m : list (string * A)) :
  get k (set k v m) = Some v.
Proof.
  induction m as [|[k' v'] m IH]; simpl.
  - now rewrite String.eqb_refl.
  - destruct (k' =? k)%string eqn:E; simpl.
    + now rewrite String.eqb_refl.
    + now rewrite E.
Qed.

Lemma get_set_other (k k' : string) (v : A) (m : list (string * A)) :
  k' <> k -> get k' (set k v m) = get k' m.
Proof.
  intros N. induction m as [|[k0 v0] m IH]; simpl.
  - destruct (String.eqb_spec k k'); [congruence|reflexivity].
  - destruct (String.eqb_spec k0 k) as [->|N0]; simpl.
    + destruct (String.eqb_spec k k'); [congruence|reflexivity].
    + destruct (k0 =? k')%string; [reflexivity|exact IH].
Qed.

Lemma filter_partition (f : string * A -> bool) (m : list (string * A)) :
  Permutation (filter f m ++ filter (fun kv => negb (f kv)) m) m.
Proof.
  induction m as [|kv m IH]; simpl; [apply perm_nil|].
  destruct (f kv); simpl.
  - now apply perm_skip.
  - apply Permutation_sym, Permutation_cons_app, Permutation_sym, IH.
Qed.

(** The listing of the properties holds every property once. *)
Lemma enumerated_perm (m : list (string * A)) : Permutation (enumerated m) m.
Proof.
  unfold enumerated.
  apply perm_trans with (filter isIndex m ++ filter (fun kv => negb (isIndex kv)) m).
  - apply Permutation_app_tail, sort_perm.
  - apply filter_partition.
Qed.

Lemma In_enumerated (kv : string * A) (m : list (string * A)) :
  In kv (enumerated m) <-> In kv m.
Proof.
  split; apply Permutation_in; [|apply Permutation_sym]; apply enumerated_perm.
Qed.

Lemma get_In_pair (k : string) (m : list (string * A)) (v : A) :
  get k m = Some v -> In (k, v) m.
Proof.
  induction m as [|[k' v'] m IH]; simpl; [discriminate|].
  destruct (String.eqb_spec k' k) as [->|N].
  - intros H. injection H as ->. now left.
  - intros H. right. now apply IH.
Qed.

End FieldMapFacts.

Section MultiValuedClaims.
Import Js Schema Extractor Scenarios.

(** The two examples of the specification, through [extractFields]:
    ControlType DataGrid without other signal gives maxOccurs -1, and
    ControlType TextBox without signal gives 1. *)
Lemma dataGrid_and_textBox :
  map (fun d => (id d, option_map maxOccurs (constraints d)))
      (extractFields gridAndText (LayoutArray [Some gridAndTextLayout]) None None)
  = [(Some "G1", Some (-1)%Z); (Some "T1", Some 1%Z)].
Proof.
  reflexivity.
Qed.

End MultiValuedClaims.

Section EnumerationLookup.
Import Js Schema Extractor Scenarios.

(** The nested scan finds the group when a single top-level value holds
    the id. *)
Lemma findNested_single (rid : string) (resources : ResourceTable)
  (containerKey : string) (container : TopLevel) (hit : option (list Element)) :
  In (containerKey, Some container) resources ->
  getProp container rid = Some hit ->
  (forall k top, In (k, Some top) resources -> getProp top rid <> None -> top = container) ->
  findNested rid resources = Some hit.
Proof.
  intros I G U. induction resources as [|[k [top|]] rest IH]; simpl.
  - destruct I.
  - destruct (getProp top rid) as [h|] eqn:E.
    + assert (top = container) by (apply (U k); [now left|congruence]).
      subst top. congruence.
    + apply IH.
      * destruct I as [I|I]; [|exact I]. injection I as _ ->. congruence.
      * intros k' top' I'. apply (U k'). now right.
  - apply IH.
    + destruct I as [I|I]; [discriminate I|exact I].
    + intros k' top' I'. apply (U k'). now right.
Qed.

(** The enumeration fallback through [extractFields]. *)
Lemma nested_scenario :
  map (fun d => (id d, resourceId d, possibleValues d))
      (extractFields noControls NoLayouts (Some yesNoDictionary) (Some nestedResources))
  = [(Some "F1", Some "F1", Some yesNoValues)].
Proof.
  reflexivity.
Qed.

End EnumerationLookup.

Section Reconciliation.
Import Js Schema Extractor.

(** The field id under consideration and the descriptor that the
    dictionary pass made for it. *)
Variable k : string.
Variable d0 : FieldDescriptor.
Hypothesis k_truthy : k <> "".

#[local] Abbreviation Seeded := (Extractor.Seeded k d0).

Lemma visit_elsewhere (c : Control) (path : string) (fm : FieldMap) :
  BindingPathEntryID c <> Some k -> get k (visit c path fm) = get k fm.
Proof.
  intros N. unfold visit.
  destruct (truthyS (BindingPathEntryID c)) eqn:T; [|reflexivity].
  destruct (BindingPathEntryID c) as [s|]; [|discriminate T]. simpl toStr.
  assert (k <> s) by congruence.
  destruct (get s fm); now rewrite get_set_other.
Qed.

Lemma visit_here (c : Control) (path : string) (fm : FieldMap) (d : FieldDescriptor) :
  BindingPathEntryID c = Some k -> get k fm = Some d ->
  get k (visit c path fm) = Some (updateDescriptor d c).
Proof.
  intros E G. unfold visit. rewrite E. simpl.
  destruct (String.eqb_spec k ""); [contradiction|]. simpl.
  rewrite G. apply get_set_same.
Qed.

Lemma updateDescriptor_sourced (d : FieldDescriptor) (c : Control) :
  DictionarySourced d d0 ->
  DictionarySourced (updateDescriptor d c) d0 /\ LayoutSourced (updateDescriptor d c) c.
Proof.
  intros D. split; [exact D|]. repeat split.
Qed.

Lemma BindingPathEntryID_dec (c : Control) :
  {BindingPathEntryID c = Some k} + {BindingPathEntryID c <> Some k}.
Proof.
  destruct (BindingPathEntryID c) as [s|]; [|right; discriminate].
  destruct (string_dec s k) as [->|N]; [now left|right; congruence].
Qed.

Lemma visit_Seeded (c : Control) (path : string) (fm : FieldMap) :
  Seeded fm -> Seeded (visit c path fm).
Proof.
  intros [d [G D]]. destruct (BindingPathEntryID_dec c) as [E|N].
  - exists (updateDescriptor d c). split; [now apply visit_here|].
    now apply updateDescriptor_sourced.
  - exists d. split; [now rewrite visit_elsewhere|exact D].
Qed.

(** *** Loops *)

Lemma fold_left_keeps {X : Type} (f : FieldMap -> X -> FieldMap) (xs : list X)
  (I : FieldMap -> Prop) :
  (forall x fm, In x xs -> I fm -> I (f fm x)) ->
  forall fm, I fm -> I (fold_left f xs fm).
Proof.
  induction xs as [|x xs IH]; intros K fm H; simpl; [exact H|].
  apply IH.
  - intros y fm' Iy. apply K. now right.
  - apply K; [now left|exact H].
Qed.

End Reconciliation.

Section ReconciliationClaims.
Import Js Schema Extractor Scenarios.

Lemma get_In_values {A : Type} (k : string) (m : list (string * A)) (v : A) :
  get k m = Some v -> In v (values m).
Proof.
  intros H. unfold values.
  apply (in_map snd (enumerated m) (k, v)), In_enumerated. now apply get_In_pair.
Qed.

(** What the dictionary pass leaves under a key: the label of a dictionary
    entry with that id, and no binding path yet. *)
Lemma dictionaryPass_seed (entries : list DictField) (resources : option ResourceTable)
  (k : string) (d0 : FieldDescriptor) :
  get k (dictionaryPass (Some entries) resources) = Some d0 ->
  exists field,
    In field entries
    /\ toStr (orS (bpID field) (bindingPathEntryId field)) = k
    /\ label d0 = d_key field /\ bindingPath d0 = None.
Proof.
  unfold dictionaryPass. revert k d0.
  apply (fold_left_keeps (addDictField resources) entries
           (fun fm => forall k d0, get k fm = Some d0 ->
                        exists field, In field entries
                          /\ toStr (orS (bpID field) (bindingPathEntryId field)) = k
                          /\ label d0 = d_key field /\ bindingPath d0 = None)).
  - intros field fm I H k d0. unfold addDictField.
    destruct (string_dec k (toStr (orS (bpID field) (bindingPathEntryId field)))) as [->|N].
    + rewrite get_set_same. intros E. injection E as <-.
      exists field. split; [exact I|]. split; [reflexivity|].
      unfold resolveResource.
      destruct (isSelect (d_type field)); [|now split].
      destruct (orS (bpID field) (bindingPathEntryId field)) as [rid|]; [|now split].
      destruct resources as [res|]; [|now split].
      destruct (truthyS (Some rid)); [|now split].
      destruct (get rid res) as [[top|]|]; [now split| |];
        (destruct (findNested rid res); now split).
    + rewrite get_set_other by exact N. apply H.
  - intros k d0 H. discriminate H.
Qed.


(** The precedence example of the specification, through [extractFields]:
    dictionary label A and no binding path, layout binding path /x/y and no
    label, give binding path /x/y and label A. *)
Lemma reconciliation_scenario :
  map (fun d => (id d, label d, bindingPath d))
      (extractFields boundHeap (SingleLayout boundLayout) (Some labelledDictionary) None)
  = [(Some "X", Some "A", Some "/x/y")]
  /\ map (fun d => (id d, label d, bindingPath d))
         (values (dictionaryPass (Some labelledDictionary) None))
     = [(Some "X", Some "A", None)].
Proof.
  split; reflexivity.
Qed.

End ReconciliationClaims.

Section OperatorProfile.
Import Js Schema Extractor.

Lemma elemEqb_eq (a b : SetElem) : elemEqb a b = true <-> a = b.
Proof.
  destruct a as [|x], b as [|y]; simpl; split; try discriminate; try reflexivity.
  - intros H. apply Z.eqb_eq in H. now subst.
  - intros H. injection H as ->. apply Z.eqb_refl.
Qed.

Lemma setAdd_Codes (x : SetElem) (s : list SetElem) :
  x <> ElNull -> Codes s -> Codes (setAdd x s).
Proof.
  intros N [D F]. unfold setAdd.
  destruct (existsb (elemEqb x) s) eqn:E; [now split|].
  assert (M : ~ In x s).
  { intros I. assert (T : existsb (elemEqb x) s = true).
    { apply existsb_exists. exists x. split; [exact I|now apply elemEqb_eq]. }
    congruence. }
  split.
  - apply (Permutation_NoDup (Permutation_cons_append s x)). now constructor.
  - apply Forall_app. split; [exact F|now constructor].
Qed.

Lemma addDefined_Codes (x : jsopt Z) (s : list SetElem) :
  Codes s -> Codes (addDefined x s).
Proof.
  intros H. destruct x as [| |n]; simpl; try exact H.
  apply setAdd_Codes; [discriminate|exact H].
Qed.

Lemma addCalculation_Codes (tg : option TermGroup) (s : list SetElem) :
  calculationNotNull tg = true -> Codes s -> Codes (addCalculation tg s).
Proof.
  intros W H. destruct tg as [tg|]; simpl in *; [|exact H].
  destruct (CalculationOperatorID tg) as [| |n]; try exact H; try discriminate W.
  apply setAdd_Codes; [discriminate|exact H].
Qed.

Lemma foldM_invariant {X S : Type} (f : X -> S -> Completion S) (ok : X -> bool)
  (I : S -> Prop) (l : list X) :
  (forall x s, In x l -> ok x = true -> I s -> exists s', f x s = Returned s' /\ I s') ->
  forallb ok l = true ->
  forall s, I s -> exists s', foldM f l s = Returned s' /\ I s'.
Proof.
  induction l as [|x l IH]; intros Step W s H; simpl.
  - now exists s.
  - simpl in W. apply andb_true_iff in W. destruct W as [Wx Wl].
    destruct (Step x s (or_introl eq_refl) Wx H) as [s1 [-> H1]]. simpl.
    apply IH; [|exact Wl|exact H1].
    intros y s' Iy. apply Step. now right.
Qed.

Lemma analyzeComparison_CodeSets (exp : option RawExpression) (sets : OpSets) :
  comparisonWellFormed exp = true -> CodeSets sets ->
  exists sets', analyzeComparison exp sets = Returned sets' /\ CodeSets sets'.
Proof.
  intros W [He [Hb Hc]]. destruct exp as [e|]; [|discriminate W].
  simpl in W. apply andb_true_iff in W. destruct W as [Wl Wr].
  eexists. split; [reflexivity|]. split; [|split]; simpl.
  - now apply addDefined_Codes.
  - exact Hb.
  - now apply addCalculation_Codes, addCalculation_Codes.
Qed.

Lemma analyzeExpression_CodeSets (g : RawGroup) :
  forall sets, groupWellFormed g = true -> CodeSets sets ->
  exists sets', analyzeExpression g sets = Returned sets' /\ CodeSets sets'.
Proof.
  revert g. fix analyzeExpression_CodeSets 1. intros g.
  destruct g as [boolOp exps groups]. intros sets W [He [Hb Hc]].
  simpl in W. apply andb_true_iff in W. destruct W as [We Wg]. simpl.
  set (sets1 := {| expressionOps := expressionOps sets;
                   booleanOps := addDefined boolOp (booleanOps sets);
                   calculationOps := calculationOps sets |}).
  assert (H1 : CodeSets sets1).
  { split; [exact He|split; [now apply addDefined_Codes|exact Hc]]. }
  assert (H2 : exists sets2,
             match exps with
             | Some l => foldM analyzeComparison l sets1
             | None => Returned sets1
             end = Returned sets2 /\ CodeSets sets2).
  { destruct exps as [l|]; [|now exists sets1].
    apply foldM_invariant with (ok := comparisonWellFormed); [|exact We|exact H1].
    intros x s _. apply analyzeComparison_CodeSets. }
  destruct H2 as [sets2 [-> H2]]. simpl.
  destruct groups as [l|]; [|now exists sets2].
  revert sets2 H2. induction l as [|[g|] l IHl]; intros sets2 H2; simpl.
  - now exists sets2.
  - simpl in Wg. apply andb_true_iff in Wg. destruct Wg as [W1 W2].
    destruct (analyzeExpression_CodeSets g sets2 W1 H2) as [sets3 [-> H3]]. simpl.
    now apply IHl.
  - now apply IHl.
Qed.

Lemma byDifference_total (a b : SetElem) :
  (byDifference a b <= 0 \/ byDifference b a <= 0)%Z.
Proof.
  unfold byDifference. lia.
Qed.

Lemma byDifference_trans (a b c : SetElem) :
  (byDifference a b <= 0 -> byDifference b c <= 0 -> byDifference a c <= 0)%Z.
Proof.
  unfold byDifference. lia.
Qed.

Lemma sorted_Codes_Ascending (l : list SetElem) :
  StronglySorted (fun a b => (byDifference a b <= 0)%Z) l -> Codes l -> Ascending l.
Proof.
  induction 1 as [|a l S IH Ha]; intros [D F].
  - exists []. split; [reflexivity|constructor].
  - inversion D as [|a' l' Na Dl]; subst. inversion F as [|a' l' Fa Fl]; subst.
    destruct (IH (conj Dl Fl)) as [ns [-> Sn]].
    destruct a as [|n]; [now elim Fa|].
    exists (n :: ns). split; [reflexivity|].
    constructor; [exact Sn|].
    apply Forall_forall. intros m Im.
    assert (I : In (ElNum m) (map ElNum ns)) by now apply in_map.
    rewrite Forall_forall in Ha. specialize (Ha _ I). unfold byDifference in Ha.
    simpl in Ha.
    assert (n <> m) by (intros ->; now apply Na).
    lia.
Qed.

Lemma sort_Codes_Ascending (s : list SetElem) :
  Codes s -> Ascending (sort byDifference s).
Proof.
  intros [D F]. apply sorted_Codes_Ascending.
  - apply sort_sorted; [apply byDifference_total|apply byDifference_trans].
  - split.
    + apply (Permutation_NoDup (Permutation_sym (sort_perm byDifference s)) D).
    + apply (Permutation_Forall (Permutation_sym (sort_perm byDifference s)) F).
Qed.

(** X7.  On well-formed form actions (no null comparison, no null
    calculation operator) the analysis returns three strictly ascending
    lists of operator codes: sorted by value, without duplicates. *)
Lemma analyzeOperators_ascending (table : FormActionTable) :
  forallb actionWellFormed (allActions table) = true ->
  exists ops,
    analyzeOperators (Some table) = Returned (Some ops)
    /\ Ascending (oa_expression ops) /\ Ascending (oa_boolean ops)
    /\ Ascending (oa_calculation ops).
Proof.
  intros W. unfold analyzeOperators.
  assert (E : CodeSets (mkOpSets [] [] [])).
  { repeat split; constructor. }
  destruct (foldM_invariant
              (fun action s => match ExpressionGroup action with
                               | Some g => analyzeExpression g s
                               | None => Returned s
                               end)
              actionWellFormed CodeSets (allActions table)) with (s := mkOpSets [] [] [])
    as [sets [-> [He [Hb Hc]]]]; [|exact W|exact E|].
  - intros a s _ Wa Hs. unfold actionWellFormed in Wa.
    destruct (ExpressionGroup a) as [g|]; [|now exists s].
    now apply analyzeExpression_CodeSets.
  - simpl. eexists. split; [reflexivity|]. simpl.
    repeat split; now apply sort_Codes_Ascending.
Qed.

End OperatorProfile.

(* ================================================================== *)
(** ** Further properties of the extractor                              *)
(* ================================================================== *)

Section LayoutPassInduction.
Import Js Schema Extractor.

(** An invariant of the field map that every visit of a reached control
    keeps is kept by the whole layout pass. *)
Variable heap : ref -> Control.
Variable reached : Control -> Prop.
Variable I : FieldMap -> Prop.
Hypothesis visit_keeps : forall c path fm, reached c -> I fm -> I (visit c path fm).

Lemma traverseLevels_keeps (left : nat) (cs : list ref) (path : string) (fm : FieldMap) :
  (forall c, Below heap left cs c -> reached c) ->
  I fm -> I (traverseLevels heap left cs path fm).
Proof.
  revert cs path fm. induction left as [|left IH]; intros cs path fm R H; [exact H|].
  simpl. apply fold_left_keeps; [|exact H].
  intros r fm' Ir H'.
  apply (visit_keeps (heap r) path) in H'; [|apply R; now constructor].
  destruct (Controls (heap r)) as [cs'|] eqn:C; [|exact H'].
  apply IH; [|exact H'].
  intros c B. apply R. now apply below_child with r cs'.
Qed.

Lemma traversePanels_keeps (prefix : string) (panels : list Panel) (fm : FieldMap) :
  (forall c, InPanels heap panels c -> reached c) ->
  I fm -> I (traversePanels heap prefix panels fm).
Proof.
  intros R H. unfold traversePanels. apply fold_left_keeps; [|exact H].
  intros panel fm' Ip H'. unfold traverseControls.
  destruct (p_Controls panel) as [cs|] eqn:C; [|exact H'].
  apply traverseLevels_keeps; [|exact H'].
  intros c B. apply R. now apply in_panel with panel cs.
Qed.

Lemma traverseForm_keeps (formIndex : nat) (form : Form) (fm : FieldMap) :
  (forall c, InForm heap form c -> reached c) ->
  I fm -> I (traverseForm heap formIndex form fm).
Proof.
  intros R H. unfold traverseForm.
  assert (P : forall prefix, I match f_Panels form with
                               | Some panels => traversePanels heap prefix panels fm
                               | None => fm
                               end).
  { intros prefix. destruct (f_Panels form) as [panels|] eqn:Fp; [|exact H].
    apply traversePanels_keeps; [|exact H].
    intros c Ic. apply R. left. now exists panels. }
  destruct (f_Controls form) as [cs|] eqn:Fc; [|apply P].
  apply traverseLevels_keeps; [|apply P].
  intros c B. apply R. right. now exists cs.
Qed.

Lemma traverseFormsFrom_keeps (formIndex : nat) (forms : list Form) (fm : FieldMap) :
  (forall form c, In form forms -> InForm heap form c -> reached c) ->
  I fm -> I (traverseFormsFrom heap formIndex forms fm).
Proof.
  revert formIndex fm. induction forms as [|form forms IH]; intros formIndex fm R H.
  - exact H.
  - simpl. apply IH.
    + intros f c If. apply R. now right.
    + apply traverseForm_keeps; [|exact H]. intros c. apply R. now left.
Qed.

Lemma traverseForms_keeps (layout : option Layout) (fm : FieldMap) :
  (forall l c, layout = Some l -> InLayout heap l c -> reached c) ->
  I fm -> I (traverseForms heap layout fm).
Proof.
  intros R H. destruct layout as [l|]; [|exact H]. unfold traverseForms.
  assert (F : I match Forms l with
                | Some forms => traverseFormsFrom heap 0 forms fm
                | None => fm
                end).
  { destruct (Forms l) as [forms|] eqn:Fl; [|exact H].
    apply traverseFormsFrom_keeps; [|exact H].
    intros form c If [[panels [Fp Ip]]|[cs [Fc B]]].
    - apply (R l); [reflexivity|]. now apply in_form_panels with forms form panels.
    - apply (R l); [reflexivity|]. now apply in_form_controls with forms form cs. }
  destruct (Panels l) as [panels|] eqn:Pl; [|exact F].
  apply traversePanels_keeps; [|exact F].
  intros c Ic. apply (R l); [reflexivity|]. now apply in_layout_panels with panels.
Qed.

End LayoutPassInduction.

Section LayoutPassPrinciple.
Import Js Schema Extractor.

(** The result of [extractFields] is the list of values of a field map
    that satisfies every invariant which holds after the dictionary pass
    and which the visit of a control of the layouts keeps. *)
Lemma extractFields_invariant (heap : ref -> Control) (layouts : Layouts)
  (dictionary : option (list DictField)) (resources : option ResourceTable)
  (I : FieldMap -> Prop) :
  (forall c path fm, InLayouts heap layouts c -> I fm -> I (visit c path fm)) ->
  I (dictionaryPass dictionary resources) ->
  exists fm, extractFields heap layouts dictionary resources = values fm /\ I fm.
Proof.
  intros V H0. unfold extractFields. destruct layouts as [|ls|layout].
  - eexists. split; [reflexivity|exact H0].
  - eexists. split; [reflexivity|].
    apply fold_left_keeps; [|exact H0].
    intros x fm Ix H.
    apply (traverseForms_keeps heap (InLayouts heap (LayoutArray ls)) I V); [|exact H].
    intros l c -> Ic. now apply in_layout_array with l.
  - eexists. split; [reflexivity|].
    apply (traverseForms_keeps heap (InLayouts heap (SingleLayout layout)) I V);
      [|exact H0].
    intros l c E Ic. injection E as <-. now apply in_single_layout.
Qed.

End LayoutPassPrinciple.

Section FieldMapShape.
Import Js Schema Extractor SchemaInvariants.

Lemma In_set {A : Type} (k : string) (v : A) (m : list (string * A)) (kd : string * A) :
  In kd (set k v m) -> kd = (k, v) \/ In kd m.
Proof.
  induction m as [|[k' v'] m IH]; simpl.
  - intros [H|[]]. now left.
  - destruct (k' =? k)%string; simpl.
    + intros [H|H]; [now left|right; now right].
    + intros [H|H]; [right; now left|].
      destruct (IH H) as [E|I]; [now left|right; now right].
Qed.

Lemma set_Forall {A : Type} (Q : string * A -> Prop) (k : string) (v : A)
  (m : list (string * A)) :
  Q (k, v) -> Forall Q m -> Forall Q (set k v m).
Proof.
  intros Hq F. apply Forall_forall. intros kd I.
  destruct (In_set k v m kd I) as [->|I']; [exact Hq|].
  rewrite Forall_forall in F. now apply F.
Qed.

Lemma set_NoDup {A : Type} (k : string) (v : A) (m : list (string * A)) :
  NoDup (map fst m) -> NoDup (map fst (set k v m)).
Proof.
  induction m as [|[k' v'] m IH]; simpl; intros D.
  - constructor; [intros []|constructor].
  - inversion D as [|x l N D']; subst.
    destruct (String.eqb_spec k' k) as [->|Nk]; simpl.
    + now constructor.
    + constructor; [|now apply IH].
      intros I. apply in_map_iff in I. destruct I as [[k0 v0] [E I]]. simpl in E. subst k0.
      destruct (In_set k v m _ I) as [E|I'].
      * injection E as E _. congruence.
      * apply N. apply in_map_iff. now exists (k', v0).
Qed.

Lemma set_WellKeyed (k : string) (d : FieldDescriptor) (fm : FieldMap) :
  keyOf d = k -> WellKeyed fm -> WellKeyed (set k d fm).
Proof.
  intros E [D F]. split; [now apply set_NoDup|now apply set_Forall].
Qed.

Lemma resolveResource_id (resources : option ResourceTable) (field : DictField)
  (d : FieldDescriptor) :
  id (resolveResource resources field d) = id d.
Proof.
  unfold resolveResource.
  destruct (isSelect (d_type field)); [|reflexivity].
  destruct (orS (bpID field) (bindingPathEntryId field)) as [rid|]; [|reflexivity].
  destruct resources as [res|]; [|reflexivity].
  destruct (truthyS (Some rid)); [|reflexivity].
  destruct (get rid res) as [[top|]|]; [reflexivity| |];
    (destruct (findNested rid res); reflexivity).
Qed.

Lemma dictionaryPass_WellKeyed (dictionary : option (list DictField))
  (resources : option ResourceTable) :
  WellKeyed (dictionaryPass dictionary resources).
Proof.
  assert (E : WellKeyed []) by (split; constructor).
  destruct dictionary as [entries|]; [|exact E].
  unfold dictionaryPass. apply fold_left_keeps; [|exact E].
  intros field fm _ H. unfold addDictField. apply set_WellKeyed; [|exact H].
  unfold keyOf. now rewrite resolveResource_id.
Qed.

Lemma visit_WellKeyed (c : Control) (path : string) (fm : FieldMap) :
  WellKeyed fm -> WellKeyed (visit c path fm).
Proof.
  intros H. unfold visit.
  destruct (truthyS (BindingPathEntryID c)); [|exact H].
  destruct (get (toStr (BindingPathEntryID c)) fm) as [d|] eqn:G.
  - apply set_WellKeyed; [|exact H].
    destruct H as [_ F]. rewrite Forall_forall in F.
    apply (F _ (get_In_pair _ _ _ G)).
  - apply set_WellKeyed; [|exact H].
    unfold keyOf. simpl. now destruct (BindingPathEntryID c).
Qed.

Lemma WellKeyed_values (fm : FieldMap) :
  WellKeyed fm -> map keyOf (values fm) = map fst (enumerated fm).
Proof.
  intros [_ F]. unfold values. rewrite map_map.
  apply (Permutation_Forall (Permutation_sym (enumerated_perm fm))) in F.
  induction F as [|kd m E F IH]; simpl; [reflexivity|]. now rewrite E, IH.
Qed.

End FieldMapShape.

Section ExtractedFields.
Import Js Schema Extractor SchemaInvariants Scenarios.

(** X1.  The ids of the extracted fields are pairwise different: the
    result of [extractFields] holds one descriptor per key of the field
    map, and every descriptor is stored under its own id. *)
Theorem extractFields_unique_ids :
  forall (heap : ref -> Control) (layouts : Layouts)
         (dictionary : option (list DictField)) (resources : option ResourceTable),
    NoDup (map keyOf (extractFields heap layouts dictionary resources)).
Proof.
  intros heap layouts dictionary resources.
  destruct (extractFields_invariant heap layouts dictionary resources WellKeyed)
    as [fm [-> H]].
  - intros c path fm _. apply visit_WellKeyed.
  - apply dictionaryPass_WellKeyed.
  - rewrite (WellKeyed_values fm H).
    apply (Permutation_NoDup
             (Permutation_map fst (Permutation_sym (enumerated_perm fm)))).
    apply H.
Qed.

Lemma dictionaryPass_Known (heap : ref -> Control) (layouts : Layouts)
  (dictionary : option (list DictField)) (resources : option ResourceTable) :
  Forall (fun kd => Known heap layouts dictionary (fst kd))
         (dictionaryPass dictionary resources).
Proof.
  destruct dictionary as [entries|]; [|constructor].
  unfold dictionaryPass. apply fold_left_keeps; [|constructor].
  intros field fm I H. unfold addDictField. apply set_Forall; [|exact H].
  left. now exists entries, field.
Qed.

Lemma visit_Known (heap : ref -> Control) (layouts : Layouts)
  (dictionary : option (list DictField)) (c : Control) (path : string) (fm : FieldMap) :
  InLayouts heap layouts c ->
  Forall (fun kd => Known heap layouts dictionary (fst kd)) fm ->
  Forall (fun kd => Known heap layouts dictionary (fst kd)) (visit c path fm).
Proof.
  intros R H. unfold visit.
  destruct (truthyS (BindingPathEntryID c)) eqn:T; [|exact H].
  destruct (BindingPathEntryID c) as [s|] eqn:E; [|discriminate T].
  assert (K : Known heap layouts dictionary s).
  { right. exists c. split; [exact R|]. split; [exact E|].
    intros ->. discriminate T. }
  simpl toStr. destruct (get s fm); now apply set_Forall.
Qed.

(** X2.  [extractFields] invents no field: the id of every descriptor of
    the result is the id of a dictionary entry or the (non-empty)
    BindingPathEntryID of a control that the layout traversal reaches. *)
Theorem extractFields_known_ids :
  forall (heap : ref -> Control) (layouts : Layouts)
         (dictionary : option (list DictField)) (resources : option ResourceTable),
    Forall (fun d => Known heap layouts dictionary (keyOf d))
           (extractFields heap layouts dictionary resources).
Proof.
  intros heap layouts dictionary resources.
  destruct (extractFields_invariant heap layouts dictionary resources
              (fun fm => WellKeyed fm
                         /\ Forall (fun kd => Known heap layouts dictionary (fst kd)) fm))
    as [fm [-> [[_ W] K]]].
  - intros c path fm R [W K]. split; [now apply visit_WellKeyed|now apply visit_Known].
  - split; [apply dictionaryPass_WellKeyed|apply dictionaryPass_Known].
  - unfold values. apply Forall_map.
    rewrite Forall_forall in *. intros kd I. apply (proj1 (In_enumerated kd fm)) in I.
    rewrite (W kd I). now apply K.
Qed.

Lemma visit_Seeded_any (k : string) (d0 : FieldDescriptor) (c : Control) (path : string)
  (fm : FieldMap) :
  Seeded k d0 fm -> Seeded k d0 (visit c path fm).
Proof.
  destruct (string_dec k "") as [->|N]; [|now apply visit_Seeded].
  intros [d [G D]]. exists d. split; [|exact D].
  unfold visit. destruct (truthyS (BindingPathEntryID c)) eqn:T; [|exact G].
  destruct (BindingPathEntryID c) as [s|]; [|discriminate T]. simpl toStr.
  assert ("" <> s) by (intros <-; discriminate T).
  destruct (get s fm); now rewrite get_set_other.
Qed.



End ExtractedFields.

(* ================================================================== *)
(** ** The layout pass as a sequence of visits                         *)
(* ================================================================== *)

Section VisitOrder.
Import Js Schema Extractor SchemaInvariants.

Variable heap : ref -> Control.

Lemma replay_app (a b : list (Control * string)) (fm : FieldMap) :
  replay (a ++ b) fm = replay b (replay a fm).
Proof.
  apply fold_left_app.
Qed.

Lemma traverseLevels_replay (left : nat) (cs : list ref) (path : string) (fm : FieldMap) :
  traverseLevels heap left cs path fm = replay (visitsLevels heap left cs path) fm.
Proof.
  revert cs path fm. induction left as [|left IH]; intros cs path fm; [reflexivity|].
  revert fm. induction cs as [|r cs IHcs]; intros fm; [reflexivity|].
  change (traverseLevels heap (S left) (r :: cs) path fm)
    with (traverseLevels heap (S left) cs path
            (match Controls (heap r) with
             | Some cs' =>
                 traverseLevels heap left cs'
                   (path ++ "/" ++ toStr (orS (Name (heap r)) (Some "group")))%string
                   (visit (heap r) path fm)
             | None => visit (heap r) path fm
             end)).
  change (visitsLevels heap (S left) (r :: cs) path)
    with (((heap r, path)
           :: match Controls (heap r) with
              | Some cs' =>
                  visitsLevels heap left cs'
                    (path ++ "/" ++ toStr (orS (Name (heap r)) (Some "group")))%string
              | None => []
              end)
          ++ visitsLevels heap (S left) cs path).
  rewrite IHcs, replay_app. f_equal.
  change (replay ((heap r, path) :: ?l) fm) with (replay l (visit (heap r) path fm)).
  destruct (Controls (heap r)); [apply IH|reflexivity].
Qed.

Lemma traversePanels_replay (prefix : string) (panels : list Panel) (fm : FieldMap) :
  traversePanels heap prefix panels fm = replay (visitsPanels heap prefix panels) fm.
Proof.
  unfold traversePanels, visitsPanels. revert fm.
  induction panels as [|panel panels IH]; intros fm; [reflexivity|].
  simpl fold_left. simpl flat_map. rewrite IH, replay_app. f_equal.
  unfold traverseControls. destruct (p_Controls panel); [|reflexivity].
  apply traverseLevels_replay.
Qed.

Lemma traverseForm_replay (formIndex : nat) (form : Form) (fm : FieldMap) :
  traverseForm heap formIndex form fm = replay (visitsForm heap formIndex form) fm.
Proof.
  unfold traverseForm, visitsForm. cbv zeta. rewrite replay_app.
  destruct (f_Panels form); [rewrite <- traversePanels_replay|];
    (destruct (f_Controls form); [apply traverseLevels_replay|reflexivity]).
Qed.

Lemma traverseFormsFrom_replay (formIndex : nat) (forms : list Form) (fm : FieldMap) :
  traverseFormsFrom heap formIndex forms fm
  = replay (visitsFormsFrom heap formIndex forms) fm.
Proof.
  revert formIndex fm. induction forms as [|form forms IH]; intros formIndex fm;
    [reflexivity|].
  simpl. now rewrite IH, replay_app, traverseForm_replay.
Qed.

Lemma traverseForms_replay (layout : option Layout) (fm : FieldMap) :
  traverseForms heap layout fm = replay (visitsLayout heap layout) fm.
Proof.
  destruct layout as [layout|]; [|reflexivity].
  unfold traverseForms, visitsLayout. cbv zeta. rewrite replay_app.
  destruct (Forms layout); [rewrite <- traverseFormsFrom_replay|];
    (destruct (Panels layout); [apply traversePanels_replay|reflexivity]).
Qed.

(** The layout pass is the callback run at the visits, in their order. *)
Lemma extractFields_replay (layouts : Layouts) (dictionary : option (list DictField))
  (resources : option ResourceTable) :
  extractFields heap layouts dictionary resources
  = values (replay (visits heap layouts) (dictionaryPass dictionary resources)).
Proof.
  unfold extractFields, visits. destruct layouts as [|ls|layout].
  - reflexivity.
  - f_equal. generalize (dictionaryPass dictionary resources).
    induction ls as [|l ls IH]; intros fm; [reflexivity|].
    simpl. now rewrite IH, replay_app, traverseForms_replay.
  - f_equal. apply traverseForms_replay.
Qed.

(** *** The visits are the reached controls *)

Lemma visitsLevels_Below (left : nat) (cs : list ref) (path : string) (c : Control)
  (p : string) :
  In (c, p) (visitsLevels heap left cs path) -> Below heap left cs c.
Proof.
  revert cs path. induction left as [|left IH]; intros cs path H; [destruct H|].
  simpl in H. apply in_flat_map in H. destruct H as [r [Ir [H|H]]].
  - injection H as <- _. now apply below_here.
  - destruct (Controls (heap r)) as [cs'|] eqn:E; [|destruct H].
    apply below_child with r cs'; [exact Ir|exact E|]. now apply IH in H.
Qed.

Lemma Below_visitsLevels (left : nat) (cs : list ref) (c : Control) :
  Below heap left cs c ->
  forall path, exists p, In (c, p) (visitsLevels heap left cs path).
Proof.
  induction 1 as [left r cs Ir|left r cs cs' c Ir E B IH]; intros path.
  - exists path. simpl. apply in_flat_map. exists r. split; [exact Ir|now left].
  - destruct (IH (path ++ "/" ++ toStr (orS (Name (heap r)) (Some "group")))%string)
      as [p Ip].
    exists p. simpl. apply in_flat_map. exists r. split; [exact Ir|].
    right. now rewrite E.
Qed.

Lemma visitsPanels_InPanels (prefix : string) (panels : list Panel) (c : Control)
  (p : string) :
  In (c, p) (visitsPanels heap prefix panels) -> InPanels heap panels c.
Proof.
  unfold visitsPanels. intros H. apply in_flat_map in H.
  destruct H as [panel [Ip H]].
  destruct (p_Controls panel) as [cs|] eqn:E; [|destruct H].
  apply in_panel with panel cs; [exact Ip|exact E|]. now apply visitsLevels_Below in H.
Qed.

Lemma InPanels_visitsPanels (panels : list Panel) (c : Control) (prefix : string) :
  InPanels heap panels c -> exists p, In (c, p) (visitsPanels heap prefix panels).
Proof.
  intros [panel cs Ip E B].
  destruct (Below_visitsLevels 11 cs c B
              (prefix ++ "Panel[" ++ toStr (p_Name panel) ++ "]")%string) as [p H].
  exists p. unfold visitsPanels. apply in_flat_map. exists panel.
  split; [exact Ip|]. now rewrite E.
Qed.

Lemma visitsForm_InForm (formIndex : nat) (form : Form) (c : Control) (p : string) :
  In (c, p) (visitsForm heap formIndex form) -> InForm heap form c.
Proof.
  unfold visitsForm. cbv zeta. intros H. apply in_app_or in H. destruct H as [H|H].
  - destruct (f_Panels form) as [panels|] eqn:E; [|destruct H].
    left. exists panels. split; [exact E|]. now apply visitsPanels_InPanels in H.
  - destruct (f_Controls form) as [cs|] eqn:E; [|destruct H].
    right. exists cs. split; [exact E|]. now apply visitsLevels_Below in H.
Qed.

Lemma InForm_visitsForm (formIndex : nat) (form : Form) (c : Control) :
  InForm heap form c -> exists p, In (c, p) (visitsForm heap formIndex form).
Proof.
  unfold visitsForm. cbv zeta. intros [[panels [E I]]|[cs [E B]]].
  - destruct (InPanels_visitsPanels panels c
                (("Form[" ++ jsonNat formIndex ++ "]") ++ "/")%string I) as [p H].
    exists p. apply in_or_app. left. now rewrite E.
  - destruct (Below_visitsLevels 11 cs c B ("Form[" ++ jsonNat formIndex ++ "]")%string)
      as [p H].
    exists p. apply in_or_app. right. now rewrite E.
Qed.

Lemma visitsFormsFrom_InForm (formIndex : nat) (forms : list Form) (c : Control)
  (p : string) :
  In (c, p) (visitsFormsFrom heap formIndex forms) ->
  exists form, In form forms /\ InForm heap form c.
Proof.
  revert formIndex. induction forms as [|form forms IH]; intros formIndex H;
    [destruct H|].
  simpl in H. apply in_app_or in H. destruct H as [H|H].
  - exists form. split; [now left|]. now apply visitsForm_InForm in H.
  - destruct (IH _ H) as [form' [I F]]. exists form'. split; [now right|exact F].
Qed.

Lemma InForm_visitsFormsFrom (forms : list Form) (form : Form) (c : Control) :
  In form forms -> InForm heap form c ->
  forall formIndex, exists p, In (c, p) (visitsFormsFrom heap formIndex forms).
Proof.
  intros I F. induction forms as [|form' forms IH]; intros formIndex; [destruct I|].
  simpl. destruct I as [->|I].
  - destruct (InForm_visitsForm formIndex form c F) as [p H].
    exists p. apply in_or_app. now left.
  - destruct (IH I (S formIndex)) as [p H]. exists p. apply in_or_app. now right.
Qed.

Lemma visitsLayout_InLayout (layout : Layout) (c : Control) (p : string) :
  In (c, p) (visitsLayout heap (Some layout)) -> InLayout heap layout c.
Proof.
  unfold visitsLayout. intros H. apply in_app_or in H. destruct H as [H|H].
  - destruct (Forms layout) as [forms|] eqn:E; [|destruct H].
    destruct (visitsFormsFrom_InForm _ _ _ _ H)
      as [form [I [[panels [Ep Ip]]|[cs [Ec B]]]]].
    + now apply in_form_panels with forms form panels.
    + now apply in_form_controls with forms form cs.
  - destruct (Panels layout) as [panels|] eqn:E; [|destruct H].
    apply in_layout_panels with panels; [exact E|]. now apply visitsPanels_InPanels in H.
Qed.

Lemma InLayout_visitsLayout (layout : Layout) (c : Control) :
  InLayout heap layout c -> exists p, In (c, p) (visitsLayout heap (Some layout)).
Proof.
  unfold visitsLayout. intros [forms form panels E I Ep Ip|forms form cs E I Ec B|panels E I].
  - destruct (InForm_visitsFormsFrom forms form c I) with (formIndex := 0) as [p H].
    { left. now exists panels. }
    exists p. apply in_or_app. left. now rewrite E.
  - destruct (InForm_visitsFormsFrom forms form c I) with (formIndex := 0) as [p H].
    { right. now exists cs. }
    exists p. apply in_or_app. left. now rewrite E.
  - destruct (InPanels_visitsPanels panels c "" I) as [p H].
    exists p. apply in_or_app. right. now rewrite E.
Qed.

(** The controls of the visits are the controls that the pass reaches. *)
Lemma visits_InLayouts (layouts : Layouts) (c : Control) :
  (exists p, In (c, p) (visits heap layouts)) <-> InLayouts heap layouts c.
Proof.
  split.
  - intros [p H]. destruct layouts as [|ls|layout]; simpl in H.
    + destruct H.
    + apply in_flat_map in H. destruct H as [[layout|] [I H]]; [|destruct H].
      apply in_layout_array with layout; [exact I|]. now apply visitsLayout_InLayout in H.
    + apply in_single_layout. now apply visitsLayout_InLayout in H.
  - intros [ls layout c' I L|layout c' L];
      destruct (InLayout_visitsLayout _ _ L) as [p H]; exists p.
    + simpl. apply in_flat_map. now exists (Some layout).
    + exact H.
Qed.

(** *** The last visit decides *)

Lemma replay_elsewhere (k : string) (later : list (Control * string)) (fm : FieldMap) :
  Forall (fun call => BindingPathEntryID (fst call) <> Some k) later ->
  get k (replay later fm) = get k fm.
Proof.
  intros F. revert fm. induction F as [|call later N F IH]; intros fm; [reflexivity|].
  simpl. rewrite IH. now apply visit_elsewhere.
Qed.

Lemma replay_Seeded (k : string) (d0 : FieldDescriptor) (calls : list (Control * string))
  (fm : FieldMap) :
  Seeded k d0 fm -> Seeded k d0 (replay calls fm).
Proof.
  apply fold_left_keeps. intros call fm' _. apply visit_Seeded_any.
Qed.

Lemma replay_WellKeyed (calls : list (Control * string)) (fm : FieldMap) :
  WellKeyed fm -> WellKeyed (replay calls fm).
Proof.
  apply fold_left_keeps. intros call fm' _. apply visit_WellKeyed.
Qed.

(** Some visit of a control carrying [k] is the last one. *)
Lemma last_visit (k : string) (c0 : Control) (p0 : string)
  (calls : list (Control * string)) :
  In (c0, p0) calls -> BindingPathEntryID c0 = Some k ->
  exists c, LastVisited k c calls.
Proof.
  intros I E.
  assert (X : Exists (fun call => BindingPathEntryID (fst call) = Some k) calls)
    by (apply Exists_exists; now exists (c0, p0)).
  clear I E. induction calls as [|[c p] calls IH]; [inversion X|].
  destruct (Exists_dec (fun call => BindingPathEntryID (fst call) = Some k) calls
              (fun call => BindingPathEntryID_dec k (fst call))) as [X'|N].
  - destruct (IH X') as [c' [earlier [path [later [-> [Ec F]]]]]].
    exists c', ((c, p) :: earlier), path, later. now repeat split.
  - inversion X as [call l E|call l X']; subst; [|contradiction].
    exists c, [], p, calls. repeat split; [exact E|].
    apply Forall_Exists_neg. exact N.
Qed.

(** After the pass the descriptor of [k] has the constraints of the
    control visited last, and for a field of the dictionary the other
    attributes of the layout too. *)
Lemma replay_last (k : string) (c : Control) (calls : list (Control * string))
  (fm : FieldMap) :
  k <> "" -> LastVisited k c calls ->
  exists d,
    get k (replay calls fm) = Some d
    /\ constraints d = Some (controlConstraints c)
    /\ forall d0, Seeded k d0 fm -> DictionarySourced d d0 /\ LayoutSourced d c.
Proof.
  intros N [earlier [path [later [-> [E F]]]]].
  rewrite replay_app.
  change (replay ((c, path) :: later) ?m) with (replay later (visit c path m)).
  rewrite (replay_elsewhere k later _ F).
  destruct (get k (replay earlier fm)) as [d'|] eqn:G.
  - exists (updateDescriptor d' c). split; [now apply visit_here|].
    split; [reflexivity|].
    intros d0 S0. apply updateDescriptor_sourced.
    destruct (replay_Seeded k d0 earlier fm S0) as [d1 [G1 D1]]. congruence.
  - exists (newDescriptor k c path). split.
    + unfold visit. rewrite E. simpl.
      destruct (String.eqb_spec k ""); [contradiction|]. simpl.
      rewrite G. apply get_set_same.
    + split; [reflexivity|].
      intros d0 S0. destruct (replay_Seeded k d0 earlier fm S0) as [d1 [G1 D1]].
      congruence.
Qed.



End VisitOrder.

Section VisitOrderWitnesses.
Import Js Schema Extractor SchemaInvariants Scenarios.

(** The control that a concrete list of visits has as the last one
    carrying the id. *)
#[local] Ltac last_of L :=
  let earlier := fresh "earlier" in
  let Q := fresh "Q" in
  let F := fresh "F" in
  let E := fresh "E" in
  destruct L as [earlier [? [? [Q [E F]]]]]; vm_compute in Q;
  destruct earlier as [|? [|? [|? ?]]]; try discriminate Q;
  inversion Q; subst; try reflexivity; try discriminate E;
  exfalso; inversion F; subst; auto.




End VisitOrderWitnesses.

Section ResourceConsistency.
Import Js Schema Extractor SchemaInvariants Scenarios.

Lemma plainElement_same (e : Element) :
  plainElement e -> possibleValue e = groupElement e.
Proof.
  intros [E1 [E2 E3]]. unfold possibleValue, groupElement. rewrite E1, E2. f_equal.
  - destruct (Id e) as [s|]; [|reflexivity]. unfold orS. simpl.
    destruct (String.eqb_spec s ""); [subst; now elim E3|reflexivity].
  - destruct (SortOrder e) as [n|]; [|reflexivity]. unfold orZ. simpl.
    destruct (Z.eqb_spec n 0); [now subst|reflexivity].
Qed.

Lemma plainElements_same (es : list Element) :
  Forall plainElement es -> map possibleValue es = map groupElement es.
Proof.
  induction 1 as [|e es P F IH]; simpl; [reflexivity|].
  now rewrite IH, (plainElement_same e P).
Qed.

Lemma addDictField_direct (resources : ResourceTable) (fm : FieldMap) (field : DictField)
  (rid : string) (top : TopLevel) :
  isSelect (d_type field) = true ->
  orS (bpID field) (bindingPathEntryId field) = Some rid -> rid <> "" ->
  get rid resources = Some (Some top) ->
  get rid (addDictField (Some resources) fm field)
  = Some (withResource (baseDescriptor field) rid (Elements top)).
Proof.
  intros S E N G.
  assert (T : truthyS (Some rid) = true).
  { simpl. destruct (String.eqb_spec rid ""); [contradiction|reflexivity]. }
  unfold addDictField, resolveResource. rewrite S, E, T, G. simpl toStr.
  apply get_set_same.
Qed.



End ResourceConsistency.

(* ================================================================== *)
(** ** The enumeration lookup, through the whole extraction             *)
(* ================================================================== *)

Section EnumerationFallback.
Import Js Schema Extractor SchemaInvariants Scenarios.

Lemma possibleValue_ReadFrom (elements : list Element) :
  PopulatedFrom elements (Some (map possibleValue elements)).
Proof.
  exists (map possibleValue elements). split; [reflexivity|].
  induction elements as [|e es IH]; simpl; constructor; [|exact IH].
  unfold ReadFrom, possibleValue, orS, truthyS, numberOr0. simpl.
  repeat split;
    try (destruct (OriginalDisplayMember e) as [[|c t]|]; reflexivity);
    try (now destruct (SortOrder e) as [[| |]|]).
Qed.

(** What the dictionary pass leaves under the id of a field that no later
    entry repeats. *)
Lemma dictionaryPass_last (resources : option ResourceTable) (field : DictField)
  (entries : list DictField) :
  LastEntry field entries ->
  get (dictKey field) (dictionaryPass (Some entries) resources)
  = Some (resolveResource resources field (baseDescriptor field)).
Proof.
  intros [earlier [later [-> F]]]. unfold dictionaryPass.
  rewrite fold_left_app. simpl fold_left.
  generalize (fold_left (addDictField resources) earlier []). intros fm0.
  assert (G : get (dictKey field) (addDictField resources fm0 field)
              = Some (resolveResource resources field (baseDescriptor field)))
    by apply get_set_same.
  revert G. generalize (addDictField resources fm0 field).
  induction F as [|e later N F IH]; intros fm G; [exact G|].
  simpl. apply IH. unfold addDictField. fold (dictKey e).
  rewrite get_set_other by (intros Q; apply N; now symmetry). exact G.
Qed.




End EnumerationFallback.

Section LegacyRules.
Import Js Schema Extractor SchemaInvariants Scenarios.

Lemma normalizable_returns (r : Action) :
  normalizable r = true ->
  exists e, normalizeExpression (ExpressionGroup r) = Returned e.
Proof.
  unfold normalizable, normalizeExpression.
  destruct (ExpressionGroup r) as [g|]; [|now eexists].
  intros H. destruct (normalizeGroup_returns g H) as [x ->]. simpl. now eexists.
Qed.

(** One loop of [extractRules]: the rules made of the selected actions are
    appended in order. *)
Lemma pushRules_selected (actionType tag : string) (make : Action -> Completion Rule)
  (l : list (option Action)) :
  (forall r, normalizable r = true ->
             exists x, make r = Returned x /\ r_type x = tag /\ r_id x = ActionID r) ->
  forallb normalizable (selected actionType l) = true ->
  forall rules,
  exists news,
    pushRules actionType make (Some l) rules = Returned (rules ++ news)
    /\ map r_id news = map ActionID (selected actionType l)
    /\ Forall (fun x => r_type x = tag) news.
Proof.
  intros M. induction l as [|[r|] l IH]; intros W rules; simpl in *.
  - exists []. rewrite app_nil_r. repeat split. constructor.
  - destruct (isString (ActionType r) actionType) eqn:T.
    + simpl in W. apply andb_true_iff in W. destruct W as [Wr Wl].
      destruct (M r Wr) as [x [-> [Tx Ix]]]. simpl.
      destruct (IH Wl (rules ++ [x])) as [news [E [Ids Ts]]].
      exists (x :: news). simpl in E. rewrite E, <- app_assoc. simpl.
      split; [reflexivity|]. split; [now rewrite Ix, Ids|now constructor].
    + apply (IH W rules).
  - apply (IH W rules).
Qed.

(** X5.  [extractRules] returns the validation rules before the visibility
    rules, one rule per entry of the first list whose ActionType is
    Validation and one per entry of the second list whose ActionType is
    Visibility, in the order of the lists; null entries and entries of
    another type are dropped.  It returns whenever the expression groups
    of these entries hold no null comparison. *)
Theorem extractRules_selects_by_type :
  forall validations visibilities : option (list (option Action)),
    forallb normalizable (selectedOf "Validation" validations) = true ->
    forallb normalizable (selectedOf "Visibility" visibilities) = true ->
    exists vs ws,
      extractRules validations visibilities = Returned (vs ++ ws)
      /\ map r_id vs = map ActionID (selectedOf "Validation" validations)
      /\ Forall (fun x => r_type x = "validation") vs
      /\ map r_id ws = map ActionID (selectedOf "Visibility" visibilities)
      /\ Forall (fun x => r_type x = "visibility") ws.
Proof.
  intros validations visibilities Wv Ww. unfold extractRules.
  assert (V : exists vs,
             pushRules "Validation" validationRule validations [] = Returned vs
             /\ map r_id vs = map ActionID (selectedOf "Validation" validations)
             /\ Forall (fun x => r_type x = "validation") vs).
  { destruct validations as [l|]; simpl in *.
    - apply (pushRules_selected "Validation" "validation" validationRule l); [|exact Wv].
      intros r N. unfold validationRule.
      destruct (normalizable_returns r N) as [e ->]. simpl. eexists. repeat split.
    - exists []. repeat split. constructor. }
  destruct V as [vs [-> [Iv Tv]]]. simpl.
  assert (W : exists ws,
             pushRules "Visibility" visibilityRule visibilities vs = Returned (vs ++ ws)
             /\ map r_id ws = map ActionID (selectedOf "Visibility" visibilities)
             /\ Forall (fun x => r_type x = "visibility") ws).
  { destruct visibilities as [l|]; simpl in *.
    - apply (pushRules_selected "Visibility" "visibility" visibilityRule l); [|exact Ww].
      intros r N. unfold visibilityRule.
      destruct (normalizable_returns r N) as [e ->]. simpl. eexists. repeat split.
    - exists []. rewrite app_nil_r. repeat split. constructor. }
  destruct W as [ws [-> [Iw Tw]]].
  exists vs, ws. repeat split; assumption.
Qed.

End LegacyRules.

Section RepeaterDiscovery.
Import Js Schema Extractor SchemaInvariants Scenarios.

(** X6.  The repeater discovery follows [Controls] only, never [Forms] or
    [Panels]: on layout objects that are no repeaters themselves and have
    no [Controls] of their own it finds nothing, whatever their forms and
    panels contain. *)
Theorem extractRepeaters_ignores_forms_and_panels :
  forall (heap : ref -> Control) (stack : nat) (ls : list (option Layout)),
    0 < stack ->
    (forall l, In (Some l) ls -> plainLayout l) ->
    extractRepeaters heap stack (LayoutArray ls) = Returned [].
Proof.
  intros heap stack ls S P. unfold extractRepeaters.
  destruct stack as [|stack]; [lia|].
  induction ls as [|[l|] ls IH]; simpl.
  - reflexivity.
  - destruct (P l (or_introl eq_refl)) as [C [R T]].
    rewrite C, R, T. simpl. apply IH. intros l' I. apply P. now right.
  - apply IH. intros l' I. apply P. now right.
Qed.

End RepeaterDiscovery.

Section RuleWitnesses.
Import Js Schema Extractor SchemaInvariants Scenarios Cases.

(** The theorem at a list of validations that also holds a null entry and
    a visibility action: the rules are v1, v2 and then s1. *)
Lemma extractRules_selects_by_type_witness :
  exists vs ws,
    extractRules mixedValidations someVisibilities = Returned (vs ++ ws)
    /\ map r_id vs = [Some "v1"; Some "v2"]
    /\ Forall (fun x => r_type x = "validation") vs
    /\ map r_id ws = [Some "s1"]
    /\ Forall (fun x => r_type x = "visibility") ws.
Proof.
  apply (extractRules_selects_by_type mixedValidations someVisibilities); reflexivity.
Defined.

(** The theorem at a layout whose forms and panels hold a repeater. *)
Lemma extractRepeaters_ignores_forms_and_panels_witness :
  extractRepeaters repeaterHeap 100 (LayoutArray [Some repeaterUnderPanel]) = Returned [].
Proof.
  apply (extractRepeaters_ignores_forms_and_panels repeaterHeap 100
           [Some repeaterUnderPanel]).
  - lia.
  - intros l [E|[]]. injection E as <-. repeat split.
Defined.

End RuleWitnesses.

Section OperatorProfileExact.
Import Js Schema Extractor SchemaInvariants Scenarios Cases.

Lemma setAdd_In (x y : SetElem) (s : list SetElem) :
  In y (setAdd x s) <-> In y s \/ y = x.
Proof.
  unfold setAdd. destruct (existsb (elemEqb x) s) eqn:E.
  - split; [now left|]. intros [H | ->]; [exact H|].
    apply existsb_exists in E. destruct E as [z [Iz Ez]].
    apply elemEqb_eq in Ez. now subst.
  - rewrite in_app_iff. simpl. intuition (subst; auto).
Qed.

Lemma addDefined_In (x : jsopt Z) (y : SetElem) (s : list SetElem) :
  In y (addDefined x s) <-> In y s \/ In y (definedCode x).
Proof.
  destruct x as [| |n]; simpl; try tauto.
  rewrite setAdd_In. intuition (subst; auto).
Qed.

Lemma addCalculation_In (tg : option TermGroup) (y : SetElem) (s : list SetElem) :
  In y (addCalculation tg s) <-> In y s \/ In y (calculationCode tg).
Proof.
  destruct tg as [tg|]; simpl; [|tauto].
  destruct (CalculationOperatorID tg); simpl; try tauto;
    rewrite setAdd_In; intuition (subst; auto).
Qed.

Lemma Collected_refl (sets : OpSets) : Collected sets sets [] [] [].
Proof.
  intros y. simpl. tauto.
Qed.

Lemma Collected_trans (s1 s2 s3 : OpSets) (b1 e1 c1 b2 e2 c2 : list SetElem) :
  Collected s1 s2 b1 e1 c1 -> Collected s2 s3 b2 e2 c2 ->
  Collected s1 s3 (b1 ++ b2) (e1 ++ e2) (c1 ++ c2).
Proof.
  intros H1 H2 y. destruct (H1 y) as [B1 [E1 C1]]. destruct (H2 y) as [B2 [E2 C2]].
  rewrite !in_app_iff. tauto.
Qed.

Lemma analyzeComparison_Collected (exp : option RawExpression) (sets sets' : OpSets) :
  analyzeComparison exp sets = Returned sets' ->
  Collected sets sets' [] (comparisonExpressionCodes exp) (comparisonCalculationCodes exp).
Proof.
  destruct exp as [e|]; [|discriminate]. simpl. intros H. injection H as <-.
  intros y. simpl. rewrite addDefined_In, !addCalculation_In, in_app_iff. tauto.
Qed.

Lemma comparisons_Collected (l : list (option RawExpression)) (sets sets' : OpSets) :
  foldM analyzeComparison l sets = Returned sets' ->
  Collected sets sets' []
    (flat_map comparisonExpressionCodes l) (flat_map comparisonCalculationCodes l).
Proof.
  revert sets. induction l as [|exp l IH]; intros sets H; simpl in H.
  - injection H as <-. apply Collected_refl.
  - destruct (analyzeComparison exp sets) as [s1|] eqn:E; [|discriminate]. simpl in H.
    apply (Collected_trans sets s1 sets' [] _ _ [] _ _).
    + now apply analyzeComparison_Collected.
    + now apply IH.
Qed.

Lemma analyzeExpression_Collected (g : RawGroup) :
  forall sets sets',
    analyzeExpression g sets = Returned sets' ->
    Collected sets sets' (booleanCodes g) (expressionCodes g) (calculationCodes g).
Proof.
  revert g. fix analyzeExpression_Collected 1. intros g.
  destruct g as [boolOp exps groups]. intros sets sets' H. simpl in H.
  set (sets1 := {| expressionOps := expressionOps sets;
                   booleanOps := addDefined boolOp (booleanOps sets);
                   calculationOps := calculationOps sets |}) in H.
  assert (H1 : Collected sets sets1 (definedCode boolOp) [] []).
  { intros y. simpl. rewrite addDefined_In. tauto. }
  destruct (match exps with
            | Some l => foldM analyzeComparison l sets1
            | None => Returned sets1
            end) as [sets2|] eqn:E; [|discriminate].
  simpl in H.
  assert (H2 : Collected sets1 sets2 []
                 (ofList comparisonExpressionCodes exps)
                 (ofList comparisonCalculationCodes exps)).
  { destruct exps as [l|]; simpl.
    - now apply comparisons_Collected.
    - injection E as <-. apply Collected_refl. }
  assert (H3 : Collected sets2 sets'
                 (ofList (fun og => match og with
                                    | Some g' => booleanCodes g'
                                    | None => []
                                    end) groups)
                 (ofList (fun og => match og with
                                    | Some g' => expressionCodes g'
                                    | None => []
                                    end) groups)
                 (ofList (fun og => match og with
                                    | Some g' => calculationCodes g'
                                    | None => []
                                    end) groups)).
  { destruct groups as [l|]; simpl.
    - clear E H2. revert sets2 H.
      induction l as [|[g|] l IHl]; intros sets2 H; simpl in H.
      + injection H as <-. apply Collected_refl.
      + destruct (analyzeExpression g sets2) as [s3|] eqn:E3; [|discriminate].
        simpl in H. simpl flat_map.
        apply (Collected_trans sets2 s3 sets').
        * now apply analyzeExpression_Collected.
        * now apply IHl.
      + simpl flat_map. now apply IHl.
    - injection H as <-. apply Collected_refl. }
  pose proof (Collected_trans _ _ _ _ _ _ _ _ _ H1
                (Collected_trans _ _ _ _ _ _ _ _ _ H2 H3)) as C.
  simpl in C. exact C.
Qed.

Lemma actions_Collected (l : list Action) (sets sets' : OpSets) :
  foldM (fun action s => match ExpressionGroup action with
                         | Some g => analyzeExpression g s
                         | None => Returned s
                         end) l sets = Returned sets' ->
  Collected sets sets'
    (flat_map (fun a => match ExpressionGroup a with Some g => booleanCodes g | None => [] end) l)
    (flat_map (fun a => match ExpressionGroup a with Some g => expressionCodes g | None => [] end) l)
    (flat_map (fun a => match ExpressionGroup a with Some g => calculationCodes g | None => [] end) l).
Proof.
  revert sets. induction l as [|a l IH]; intros sets H; simpl in H.
  - injection H as <-. apply Collected_refl.
  - simpl flat_map. destruct (ExpressionGroup a) as [g|].
    + destruct (analyzeExpression g sets) as [s1|] eqn:E; [|discriminate]. simpl in H.
      apply (Collected_trans sets s1 sets').
      * now apply analyzeExpression_Collected.
      * now apply IH.
    + simpl in H. now apply IH.
Qed.

Lemma sort_In {A : Type} (cmp : A -> A -> Z) (l : list A) (y : A) :
  In y (sort cmp l) <-> In y l.
Proof.
  split; apply Permutation_in; [apply sort_perm|apply Permutation_sym, sort_perm].
Qed.

(** X8.  The operator profile is exact: whenever [analyzeOperators]
    returns lists, a value is in the boolean (expression, calculation) list
    if and only if it occurs as BooleanOperatorID of a group
    (ExpressionOperatorID of a comparison, CalculationOperatorID of a left
    or right term group) of the expression group of some action, at any
    depth; [undefined] never counts, [null] counts for the calculation
    operators only. *)
Theorem analyzeOperators_exact :
  forall (table : FormActionTable) (ops : OperatorAnalysis),
    analyzeOperators (Some table) = Returned (Some ops) ->
    forall y,
      (In y (oa_boolean ops) <-> In y (tableCodes booleanCodes table))
      /\ (In y (oa_expression ops) <-> In y (tableCodes expressionCodes table))
      /\ (In y (oa_calculation ops) <-> In y (tableCodes calculationCodes table)).
Proof.
  intros table ops H y. unfold analyzeOperators in H.
  destruct (foldM _ (allActions table) (mkOpSets [] [] [])) as [sets|] eqn:E;
    [|discriminate].
  simpl in H. injection H as <-. simpl.
  destruct (actions_Collected _ _ _ E y) as [B [X C]]. simpl in B, X, C.
  rewrite !sort_In. unfold tableCodes. tauto.
Qed.

(** The theorem at form actions with the boolean operators 2 and 1, the
    expression operator 7 (twice) and the calculation operator 3, for the
    code 2. *)
Lemma analyzeOperators_exact_witness :
  (In (ElNum 2) [ElNum 1; ElNum 2] <-> In (ElNum 2) (tableCodes booleanCodes someOperators))
  /\ (In (ElNum 2) [ElNum 7] <-> In (ElNum 2) (tableCodes expressionCodes someOperators))
  /\ (In (ElNum 2) [ElNum 3] <-> In (ElNum 2) (tableCodes calculationCodes someOperators)).
Proof.
  apply (analyzeOperators_exact someOperators
           {| oa_expression := [ElNum 7]; oa_boolean := [ElNum 1; ElNum 2];
              oa_calculation := [ElNum 3] |}).
  reflexivity.
Defined.

Lemma analyzeOperators_ascending_witness :
  exists ops,
    analyzeOperators (Some someOperators) = Returned (Some ops)
    /\ Ascending (oa_expression ops) /\ Ascending (oa_boolean ops)
    /\ Ascending (oa_calculation ops).
Proof.
  apply (analyzeOperators_ascending someOperators). reflexivity.
Defined.

End OperatorProfileExact.

Section PayloadStatistics.
Import Js Schema Extractor SchemaInvariants Scenarios.

Lemma countWhere_le {A : Type} (p : A -> bool) (l : list A) :
  countWhere p l <= List.length l.
Proof.
  unfold countWhere. induction l as [|x l IH]; simpl; [lia|].
  destruct (p x); simpl; lia.
Qed.

Lemma set_keys {A : Type} (k : string) (v : A) (m : list (string * A)) (k' : string) :
  In k' (map fst (set k v m)) <-> k' = k \/ In k' (map fst m).
Proof.
  induction m as [|[k0 v0] m IH]; simpl.
  - split; [intros [H|[]]; now left|intros [H|[]]; now left].
  - destruct (String.eqb_spec k0 k) as [->|N]; simpl.
    + split; [intros [H|H]; auto|intros [H|[H|H]]; auto].
    + rewrite IH. split; [intros [H|[H|H]]; auto|intros [H|[H|H]]; auto].
Qed.

Lemma visit_keys (c : Control) (path : string) (fm : FieldMap) (k : string) :
  In k (map fst (visit c path fm)) <-> In k (map fst fm) \/ In k (controlId c).
Proof.
  unfold visit, controlId. destruct (BindingPathEntryID c) as [s|]; simpl.
  - destruct (s =? "")%string; simpl; [tauto|].
    destruct (get s fm); rewrite set_keys; split;
      solve [intros [H|H]; auto | intros [H|[H|[]]]; auto].
  - tauto.
Qed.

Lemma replay_keys (calls : list (Control * string)) (fm : FieldMap) (k : string) :
  In k (map fst (replay calls fm))
  <-> In k (map fst fm) \/ In k (flat_map (fun call => controlId (fst call)) calls).
Proof.
  revert fm. induction calls as [|[c p] calls IH]; intros fm; simpl.
  - tauto.
  - change (replay ((c, p) :: calls) fm) with (replay calls (visit c p fm)).
    rewrite IH, visit_keys, in_app_iff. tauto.
Qed.

Lemma dictionaryPass_keys (dictionary : option (list DictField))
  (resources : option ResourceTable) (k : string) :
  In k (map fst (dictionaryPass dictionary resources))
  <-> In k match dictionary with
           | Some entries => map dictKey entries
           | None => []
           end.
Proof.
  destruct dictionary as [entries|]; [|reflexivity].
  unfold dictionaryPass.
  assert (G : forall fm,
             In k (map fst (fold_left (addDictField resources) entries fm))
             <-> In k (map fst fm) \/ In k (map dictKey entries)).
  { induction entries as [|e entries IH]; intros fm; simpl; [tauto|].
    rewrite IH. unfold addDictField. rewrite set_keys. fold (dictKey e).
    split; [intros [[H|H]|H]; auto|intros [H|[H|H]]; auto]. }
  rewrite G. simpl. tauto.
Qed.

(** The keys of the result are the ids met, each once. *)
Lemma extractFields_ids (heap : ref -> Control) (layouts : Layouts)
  (dictionary : option (list DictField)) (resources : option ResourceTable) :
  Permutation (map keyOf (extractFields heap layouts dictionary resources))
    (nodup string_dec (metIds heap layouts dictionary)).
Proof.
  rewrite extractFields_replay.
  assert (W : WellKeyed (replay (visits heap layouts)
                           (dictionaryPass dictionary resources)))
    by apply replay_WellKeyed, dictionaryPass_WellKeyed.
  rewrite (WellKeyed_values _ W).
  apply perm_trans with
    (map fst (replay (visits heap layouts) (dictionaryPass dictionary resources))).
  { apply Permutation_map, enumerated_perm. }
  apply NoDup_Permutation; [apply W|apply NoDup_nodup|].
  intros k. rewrite nodup_In. unfold metIds.
  now rewrite replay_keys, dictionaryPass_keys, in_app_iff.
Qed.



End PayloadStatistics.

(* ================================================================== *)
(** ** Further properties of the fingerprint generator                  *)
(* ================================================================== *)

Section HashInputs.
Import Js Schema HashGenerator SchemaInvariants Scenarios.

Lemma mapM_readElement_view {A B : Type} (project : A -> B) (l : list (option A)) :
  mapM (readElement project) l
  = mapM (readElement (fun b => b)) (map (option_map project) l).
Proof.
  induction l as [|[a|] l IH]; simpl; [reflexivity| |reflexivity].
  now rewrite IH.
Qed.

Lemma sortedById_view {A B : Type} (localeCompare : string -> string -> Z)
  (project : A -> B) (ident : B -> string) (what : string) (s : Slot (option A)) :
  sortedById localeCompare what (readElement project) ident s
  = sortedById localeCompare what (readElement (fun b => b)) ident (hashView project s).
Proof.
  unfold sortedById. destruct s as [| | |l]; simpl; [reflexivity|reflexivity|reflexivity|].
  now rewrite mapM_readElement_view.
Qed.

(** X10.  The primary digest sees of a result only the {id, bindingPath}
    of its fields and the {id, element count} of its resource groups: two
    results that agree on these (a missing list counting as an empty one)
    have the same digest, whatever their labels, types, constraints,
    possible values and formHierarchyCollectionId, and whatever the
    comparator. *)
Theorem generateHash_sees_projection_only :
  forall (localeCompare : string -> string -> Z) (fd1 fd2 : FormData),
    hashView projectField (fields fd1) = hashView projectField (fields fd2) ->
    hashView projectGroup (resourceGroups fd1) = hashView projectGroup (resourceGroups fd2) ->
    generateHash localeCompare (Some fd1) = generateHash localeCompare (Some fd2).
Proof.
  intros cmp fd1 fd2 F G.
  unfold generateHash, generateHash_body, structureHash, hashedField, hashedGroup.
  now rewrite !(sortedById_view cmp projectField), !(sortedById_view cmp projectGroup), F, G.
Qed.

Lemma mapM_readElement_returns {A B : Type} (project : A -> B) (l : list (option A)) :
  (exists r, mapM (readElement project) l = Returned r) <-> forallb isSome l = true.
Proof.
  induction l as [|[a|] l IH]; simpl.
  - split; [reflexivity|now eexists].
  - rewrite <- IH. split; intros [r H].
    + destruct (mapM (readElement project) l) as [r'|]; [now eexists|discriminate].
    + rewrite H. simpl. now eexists.
  - split; [intros [r H]; discriminate H|discriminate].
Qed.

Lemma sortedById_returns {A B : Type} (localeCompare : string -> string -> Z)
  (project : A -> B) (ident : B -> string) (what : string) (s : Slot (option A)) :
  (exists r, sortedById localeCompare what (readElement project) ident s = Returned r)
  <-> readable s = true.
Proof.
  unfold sortedById. destruct s as [| | |l]; simpl.
  - split; [reflexivity|now eexists].
  - split; [reflexivity|now eexists].
  - split; [intros [r H]; discriminate H|discriminate].
  - rewrite <- (mapM_readElement_returns project). split; intros [r H].
    + destruct (mapM (readElement project) l) as [r'|]; [now eexists|discriminate].
    + rewrite H. simpl. now eexists.
Qed.

Lemma sortedIds_returns {A : Type} (project : A -> jsopt string) (what : string)
  (s : Slot (option A)) :
  (exists r, sortedIds what project s = Returned r) <-> quickReadable s = true.
Proof.
  unfold sortedIds. destruct s as [| | |l]; simpl.
  - split; [reflexivity|now eexists].
  - split; [intros [r H]; discriminate H|discriminate].
  - split; [intros [r H]; discriminate H|discriminate].
  - rewrite <- (mapM_readElement_returns project). split; intros [r H].
    + destruct (mapM (readElement project) l) as [r'|]; [now eexists|discriminate].
    + rewrite H. simpl. now eexists.
Qed.

Lemma quickReadable_readable {A : Type} (s : Slot (option A)) :
  quickReadable s = true -> readable s = true.
Proof.
  now destruct s.
Qed.

(** X11.  The two fingerprints do not fail on the same inputs.  For a
    result that is an object, [generateHash] resolves exactly when
    [fields] and [resourceGroups] each hold a falsy value (nothing, 0, the
    empty string, false) or an array without null or undefined element;
    [generateQuickHash] resolves with a digest rather than the empty
    string exactly when each holds nothing (undefined or null) or such an
    array.  So a quick fingerprint that is delivered comes with a primary
    digest, and [fields] 0 gives a primary digest without a quick one. *)
Theorem fingerprints_need_well_formed_lists :
  forall (localeCompare : string -> string -> Z) (fd : FormData),
    ((exists h, generateHash localeCompare (Some fd) = Resolved h)
     <-> readable (fields fd) && readable (resourceGroups fd) = true)
    /\ (generateQuickHash (Some fd) <> Resolved ""
        <-> quickReadable (fields fd) && quickReadable (resourceGroups fd) = true)
    /\ (generateQuickHash (Some fd) <> Resolved "" ->
        exists h, generateHash localeCompare (Some fd) = Resolved h)
    /\ (exists h,
          generateHash localeCompare
            (Some {| formHierarchyCollectionId := None; fields := Falsy;
                     resourceGroups := Missing |}) = Resolved h)
    /\ generateQuickHash
         (Some {| formHierarchyCollectionId := None; fields := Falsy;
                  resourceGroups := Missing |}) = Resolved "".
Proof.
  intros cmp fd.
  assert (P : (exists h, generateHash cmp (Some fd) = Resolved h)
              <-> readable (fields fd) && readable (resourceGroups fd) = true).
  { rewrite andb_true_iff.
    rewrite <- (sortedById_returns cmp projectField hf_id "(formData.fields || []).map").
    rewrite <- (sortedById_returns cmp projectGroup hg_id
                  "(formData.resourceGroups || []).map").
    unfold generateHash, generateHash_body, structureHash, hashedField, hashedGroup.
    destruct (sortedById cmp _ (readElement projectField) hf_id (fields fd)) as [hfs|e];
      simpl.
    - destruct (sortedById cmp _ (readElement projectGroup) hg_id (resourceGroups fd))
        as [hgs|e]; simpl.
      + split; [intros _; split; now eexists|intros _; now eexists].
      + split; [intros [h H]; discriminate H|intros [_ [r H]]; discriminate H].
    - split; [intros [h H]; discriminate H|intros [[r H] _]; discriminate H]. }
  assert (Q : generateQuickHash (Some fd) <> Resolved ""
              <-> quickReadable (fields fd) && quickReadable (resourceGroups fd) = true).
  { rewrite andb_true_iff.
    rewrite <- (sortedIds_returns f_id "formData.fields?.map").
    rewrite <- (sortedIds_returns g_id "formData.resourceGroups?.map").
    unfold generateQuickHash, generateQuickHash_body.
    destruct (sortedIds _ f_id (fields fd)) as [fs|e]; simpl.
    - destruct (sortedIds _ _ (resourceGroups fd)) as [gs|e]; simpl.
      + split; [intros _; split; now eexists|].
        intros _ H. injection H as H.
        pose proof (sha256Hex_length
                      (jsonQuick (formHierarchyCollectionId fd) (fieldCount (fields fd))
                         fs gs)) as L.
        rewrite H in L. discriminate L.
      + split; [intros H; now elim H|intros [_ [r H]]; discriminate H].
    - split; [intros H; now elim H|intros [[r H] _]; discriminate H]. }
  split; [exact P|]. split; [exact Q|]. split; [|split].
  - intros H. apply P. apply Q in H. apply andb_true_iff in H. destruct H as [H1 H2].
    apply andb_true_iff. split; now apply quickReadable_readable.
  - eexists. reflexivity.
  - reflexivity.
Qed.

(** X12.  A fingerprint that is delivered is a SHA-256 digest in lowercase
    hexadecimal: whatever [generateHash] resolves with has 64 characters
    among 0-9 and a-f, and so has whatever [generateQuickHash] resolves
    with, unless it is the empty string. *)
Theorem fingerprints_are_lowercase_hex :
  forall (localeCompare : string -> string -> Z) (formData : option FormData) (h : string),
    (generateHash localeCompare formData = Resolved h ->
     String.length h = 64 /\ allLowerHex h = true)
    /\ (generateQuickHash formData = Resolved h -> h <> "" ->
        String.length h = 64 /\ allLowerHex h = true).
Proof.
  intros cmp formData h. split.
  - unfold generateHash, generateHash_body.
    destruct (structureHash cmp formData) as [sh|]; simpl; [|discriminate].
    intros H. injection H as <-. split; [apply sha256Hex_length|apply sha256Hex_lower].
  - unfold generateQuickHash, generateQuickHash_body.
    destruct formData as [fd|]; [|intros H N; injection H as <-; now elim N].
    destruct (sortedIds _ _ (fields fd)); simpl;
      [|intros H N; injection H as <-; now elim N].
    destruct (sortedIds _ _ (resourceGroups fd)); simpl;
      [|intros H N; injection H as <-; now elim N].
    intros H _. injection H as <-. split; [apply sha256Hex_length|apply sha256Hex_lower].
Qed.

End HashInputs.

Section QuickHashOrder.
Import Js Schema HashGenerator SchemaInvariants Scenarios.

Lemma compareCodeUnits_antisym (a b : string) :
  (compareCodeUnits a b <= 0)%Z -> (compareCodeUnits b a <= 0)%Z -> a = b.
Proof.
  rewrite !compareCodeUnits_le. intros [E|L1] [E'|L2]; auto.
  exfalso. apply (String_as_OT.lt_not_eq a a); [|reflexivity].
  now apply String_as_OT.lt_trans with b.
Qed.

Lemma filter_perm {A : Type} (f : A -> bool) (l1 l2 : list A) :
  Permutation l1 l2 -> Permutation (filter f l1) (filter f l2).
Proof.
  induction 1 as [|x l1 l2 P IH|x y l|l1 l2 l3 P1 IH1 P2 IH2]; simpl.
  - apply perm_nil.
  - destruct (f x); [now apply perm_skip|exact IH].
  - destruct (f x), (f y); try apply Permutation_refl. apply perm_swap.
  - now apply perm_trans with (filter f l2).
Qed.

Lemma undefined_perm (l1 l2 : list (jsopt string)) :
  Permutation l1 l2 -> filter isUndefined l1 = filter isUndefined l2.
Proof.
  induction 1 as [|[| |x] l1 l2 P IH|[| |x] [| |y] l|l1 l2 l3 P1 IH1 P2 IH2]; simpl;
    try reflexivity; try congruence.
Qed.

(** Without [null] among them, the ids are sorted into one order whatever
    the order in which they come. *)
Lemma defaultSort_perm (l1 l2 : list (jsopt string)) :
  Permutation l1 l2 -> (forall x, In x l1 -> x <> Null) ->
  defaultSort l1 = defaultSort l2.
Proof.
  intros P N. unfold defaultSort. rewrite (undefined_perm l1 l2 P). f_equal.
  apply sort_of_permutation.
  - intros a b. apply compareCodeUnits_total.
  - intros a b c. apply compareCodeUnits_trans.
  - now apply filter_perm.
  - intros a b Ia Ib H1 H2.
    apply filter_In in Ia. destruct Ia as [Ia Ua].
    apply filter_In in Ib. destruct Ib as [Ib Ub].
    pose proof (N a Ia) as Na. pose proof (N b Ib) as Nb.
    destruct a as [| |a]; [discriminate Ua|now elim Na|].
    destruct b as [| |b]; [discriminate Ub|now elim Nb|].
    f_equal. now apply compareCodeUnits_antisym.
Qed.

Lemma sortedIds_same_elements {A : Type} (project : A -> jsopt string) (what : string)
  (s1 s2 : Slot (option A)) :
  SameElements s1 s2 -> noNullId project s1 ->
  (forall r, sortedIds what project s1 = Returned r -> sortedIds what project s2 = Returned r)
  /\ (forall e, sortedIds what project s1 = Threw e ->
      exists e', sortedIds what project s2 = Threw e').
Proof.
  intros S N. destruct S as [| | |l1 l2 P]; unfold sortedIds.
  - split; [auto|intros e H; now exists e].
  - split; [auto|intros e H; now exists e].
  - split; [auto|intros e H; now exists e].
  - split.
    + intros r H.
      destruct (mapM (readElement project) l1) as [r1|e] eqn:E1; [|discriminate].
      simpl in H. injection H as <-.
      destruct (mapM_perm _ l1 l2 r1 P E1) as [r2 [E2 P2]].
      rewrite E2. simpl. f_equal. symmetry. apply defaultSort_perm; [exact P2|].
      intros x Ix. destruct (mapM_In _ _ _ x E1 Ix) as [[a|] [Ia Fa]]; [|discriminate].
      simpl in Fa. injection Fa as <-. now apply (N l1).
    + intros e H.
      destruct (mapM (readElement project) l1) as [r1|e1] eqn:E1; [discriminate|].
      destruct (mapM_perm_threw _ l1 l2 e1 P E1) as [e' E2].
      exists e'. now rewrite E2.
Qed.

Lemma fieldCount_same_elements {A : Type} (s1 s2 : Slot A) :
  SameElements s1 s2 -> fieldCount s1 = fieldCount s2.
Proof.
  intros [| | |l1 l2 P]; simpl; try reflexivity. now apply Permutation_length.
Qed.

(** X13.  The quick fingerprint does not depend on the order of [fields]
    or of [resourceGroups] as long as no id is null: two results with the
    same formHierarchyCollectionId and the same elements in any order,
    none of them with the id null, have the same quick fingerprint (the
    empty string when it fails), also where ids repeat and the strict
    digest tells the orders apart.  (An id null is sorted as the text
    null and then written null: next to a field called null the order of
    the input shows.) *)
Theorem generateQuickHash_order_independent :
  forall fd1 fd2 : FormData,
    formHierarchyCollectionId fd1 = formHierarchyCollectionId fd2 ->
    SameElements (fields fd1) (fields fd2) ->
    SameElements (resourceGroups fd1) (resourceGroups fd2) ->
    noNullId f_id (fields fd1) ->
    noNullId g_id (resourceGroups fd1) ->
    generateQuickHash (Some fd1) = generateQuickHash (Some fd2).
Proof.
  intros fd1 fd2 I SF SG NF NG.
  destruct (sortedIds_same_elements f_id "formData.fields?.map" _ _ SF NF) as [FR FT].
  destruct (sortedIds_same_elements g_id "formData.resourceGroups?.map" _ _ SG NG)
    as [GR GT].
  unfold generateQuickHash, generateQuickHash_body.
  destruct (sortedIds "formData.fields?.map" f_id (fields fd1)) as [fs|e] eqn:E1.
  - rewrite (FR fs eq_refl). simpl.
    destruct (sortedIds "formData.resourceGroups?.map" _ (resourceGroups fd1))
      as [gs|e] eqn:E2.
    + rewrite (GR gs eq_refl). simpl.
      now rewrite I, (fieldCount_same_elements _ _ SF).
    + destruct (GT e eq_refl) as [e' ->]. reflexivity.
  - destruct (FT e eq_refl) as [e' ->]. reflexivity.
Qed.

(** The theorem at two results whose groups repeat an id and come in two
    orders. *)
Lemma generateQuickHash_order_independent_witness :
  generateQuickHash (Some tiedGroups) = generateQuickHash (Some tiedGroupsSwapped)
  /\ generateHash compareCodeUnits (Some tiedGroups)
     <> generateHash compareCodeUnits (Some tiedGroupsSwapped).
Proof.
  split.
  - apply (generateQuickHash_order_independent tiedGroups tiedGroupsSwapped).
    + reflexivity.
    + apply same_array, Permutation_refl.
    + vm_compute. apply same_array, perm_swap.
    + intros l x E Ix. injection E as <-.
      destruct Ix as [Ix|[]]. injection Ix as <-. discriminate.
    + intros l x E Ix. vm_compute in E. injection E as <-.
      destruct Ix as [Ix|[Ix|[]]]; injection Ix as <-; discriminate.
  - vm_compute. intros H; discriminate H.
Defined.

(** With an id null next to a field called null the order of the input
    shows in the quick fingerprint. *)
Lemma null_id_keeps_input_order :
  generateQuickHash (Some nullAndText) <> generateQuickHash (Some textAndNull).
Proof.
  vm_compute. intros H; discriminate H.
Qed.

End QuickHashOrder.

(* ================================================================== *)
(** ** Properties of the agency pattern and of the company cache        *)
(* ================================================================== *)

Section AgencyPattern.
Import Js Url.

Lemma stripPrefixCI_sound (lit s rest : string) :
  stripPrefixCI lit s = Some rest ->
  exists l, s = (l ++ rest)%string /\ toLowerCase l = toLowerCase lit.
Proof.
  revert s. induction lit as [|a lit IH]; intros s H.
  - destruct s; simpl in H; injection H as <-; now exists "".
  - destruct s as [|b s]; simpl in H; [discriminate|].
    destruct (Ascii.eqb (lower_ascii a) (lower_ascii b)) eqn:E; [|discriminate].
    apply Ascii.eqb_eq in E. destruct (IH s H) as [l [-> L]].
    exists (String b l). split; [reflexivity|]. simpl. now rewrite L, E.
Qed.

Lemma stripPrefixCI_complete (lit l rest : string) :
  toLowerCase l = toLowerCase lit -> stripPrefixCI lit (l ++ rest) = Some rest.
Proof.
  revert l. induction lit as [|a lit IH]; intros l H.
  - destruct l; [|discriminate H]. now destruct rest.
  - destruct l as [|b l]; [discriminate H|]. simpl in H. injection H as Hb Hl.
    simpl. rewrite Hb, Ascii.eqb_refl. now apply IH.
Qed.

Lemma untilSlash_sound (s run rest : string) :
  untilSlash s = Some (run, rest) ->
  s = (run ++ "/" ++ rest)%string /\ slashFree run = true.
Proof.
  revert run. induction s as [|c s IH]; intros run H; simpl in H; [discriminate|].
  destruct (Ascii.eqb c "/") eqn:E.
  - injection H as <- <-. apply Ascii.eqb_eq in E. now subst.
  - destruct (untilSlash s) as [[run' rest']|]; [|discriminate].
    injection H as <- <-. destruct (IH run' eq_refl) as [-> F].
    split; [reflexivity|]. unfold slashFree. simpl. rewrite E. exact F.
Qed.

Lemma untilSlash_complete (run rest : string) :
  slashFree run = true -> untilSlash (run ++ "/" ++ rest) = Some (run, rest).
Proof.
  induction run as [|c run IH]; intros F.
  - reflexivity.
  - unfold slashFree in F. simpl in F. apply andb_true_iff in F. destruct F as [C F].
    specialize (IH F). simpl in IH |- *.
    apply negb_true_iff in C. now rewrite C, IH.
Qed.

Lemma agencyAt_sound (s code : string) :
  agencyAt s = Some code ->
  code <> "" /\ slashFree code = true
  /\ exists lit post, s = (lit ++ code ++ "/" ++ post)%string
                      /\ toLowerCase lit = "/runform/agency".
Proof.
  unfold agencyAt. intros H.
  destruct (stripPrefixCI "/RunForm/Agency" s) as [rest|] eqn:P; [|discriminate].
  destruct (untilSlash rest) as [[run post]|] eqn:U; [|discriminate].
  destruct (run =? "")%string eqn:E; [discriminate|]. injection H as <-.
  apply String.eqb_neq in E.
  destruct (stripPrefixCI_sound _ _ _ P) as [lit [-> L]].
  destruct (untilSlash_sound _ _ _ U) as [-> F].
  split; [exact E|]. split; [exact F|]. now exists lit, post.
Qed.

Lemma agencyAt_complete (lit code post : string) :
  toLowerCase lit = "/runform/agency" -> code <> "" -> slashFree code = true ->
  agencyAt (lit ++ code ++ "/" ++ post) = Some code.
Proof.
  intros L N F. unfold agencyAt.
  rewrite (stripPrefixCI_complete "/RunForm/Agency" lit _ L).
  rewrite (untilSlash_complete code post F).
  apply String.eqb_neq in N. now rewrite N.
Qed.

Lemma firstAgency_cons (c : ascii) (s : string) :
  firstAgency (String c s)
  = match agencyAt (String c s) with
    | Some code => Some code
    | None => firstAgency s
    end.
Proof.
  reflexivity.
Qed.

Lemma firstAgency_sound (s code : string) :
  firstAgency s = Some code ->
  exists pre rest, s = (pre ++ rest)%string /\ agencyAt rest = Some code.
Proof.
  induction s as [|c s IH]; intros H.
  - vm_compute in H. discriminate H.
  - rewrite firstAgency_cons in H.
    destruct (agencyAt (String c s)) as [code'|] eqn:E.
    + exists "", (String c s). split; [reflexivity|]. now rewrite E.
    + destruct (IH H) as [pre [rest [-> A]]].
      now exists (String c pre), rest.
Qed.

Lemma firstAgency_complete (pre rest code : string) :
  agencyAt rest = Some code -> exists code', firstAgency (pre ++ rest) = Some code'.
Proof.
  intros A. induction pre as [|c pre IH].
  - exists code. destruct rest as [|c rest].
    + vm_compute in A. discriminate A.
    + change ("" ++ String c rest)%string with (String c rest).
      rewrite firstAgency_cons. now rewrite A.
  - change (String c pre ++ rest)%string with (String c (pre ++ rest)%string).
    rewrite firstAgency_cons.
    destruct (agencyAt (String c (pre ++ rest))) as [code'|]; [now exists code'|exact IH].
Qed.

(** X14.  [extractAgencyCode] returns a code exactly for the URLs that
    contain [/RunForm/Agency] (in any letter case) followed by at least one
    character other than a slash and then a slash.  The code it returns
    is such a run of characters: never empty, never holding a slash, and
    ended by the first slash after the literal; when the URL starts with
    the literal the code is the run that follows. *)
Theorem extractAgencyCode_spec :
  forall url : string,
    (forall code, extractAgencyCode url = Some code ->
       code <> "" /\ slashFree code = true
       /\ exists pre lit post,
            url = (pre ++ lit ++ code ++ "/" ++ post)%string
            /\ toLowerCase lit = "/runform/agency")
    /\ (forall pre lit code post,
          url = (pre ++ lit ++ code ++ "/" ++ post)%string ->
          toLowerCase lit = "/runform/agency" -> code <> "" -> slashFree code = true ->
          (exists code', extractAgencyCode url = Some code')
          /\ (pre = "" -> extractAgencyCode url = Some code)).
Proof.
  intros url. split.
  - intros code H. unfold extractAgencyCode in H.
    destruct (firstAgency_sound _ _ H) as [pre [rest [-> A]]].
    destruct (agencyAt_sound _ _ A) as [N [F [lit [post [-> L]]]]].
    split; [exact N|]. split; [exact F|]. now exists pre, lit, post.
  - intros pre lit code post -> L N F.
    pose proof (agencyAt_complete lit code post L N F) as A. split.
    + now apply firstAgency_complete with code.
    + intros ->. unfold extractAgencyCode.
      change ("" ++ lit ++ code ++ "/" ++ post)%string
        with (lit ++ code ++ "/" ++ post)%string.
      revert A. destruct (lit ++ code ++ "/" ++ post)%string as [|c s]; intros A.
      * vm_compute in A. discriminate A.
      * rewrite firstAgency_cons. now rewrite A.
Qed.

Lemma extractAgencyCode_spec_witness :
  extractAgencyCode "https://x.example/runform/agencyNorth7/Form/12" = Some "North7"
  /\ exists code', extractAgencyCode "/RUNFORM/AGENCYa/" = Some code'.
Proof.
  split; [reflexivity|].
  apply (proj2 (extractAgencyCode_spec "/RUNFORM/AGENCYa/") "" "/RUNFORM/AGENCY" "a" "");
    [reflexivity|reflexivity|intros H; discriminate H|reflexivity].
Defined.

End AgencyPattern.

Section CacheStorage.
Import Js Url CompanyCache.

Context {Data : Type}.

Lemma lookup_remove (key : string) (keys : list string) (st : Storage Data) :
  lookup key (remove keys st)
  = if existsb (String.eqb key) keys then None else lookup key st.
Proof.
  induction st as [|[k v] st IH]; simpl.
  - now destruct (existsb (String.eqb key) keys).
  - destruct (existsb (String.eqb k) keys) eqn:E; simpl.
    + rewrite IH. destruct (k =? key)%string eqn:K; [|reflexivity].
      apply String.eqb_eq in K. subst k. now rewrite E.
    + destruct (k =? key)%string eqn:K; [|exact IH].
      apply String.eqb_eq in K. subst k. now rewrite E.
Qed.

Lemma lookup_store (key key' : string) (v : Stored Data) (st : Storage Data) :
  lookup key' (store key v st) = if (key =? key')%string then Some v else lookup key' st.
Proof.
  unfold store. simpl. destruct (key =? key')%string eqn:K; [reflexivity|].
  rewrite lookup_remove. simpl. rewrite String.eqb_sym, K. reflexivity.
Qed.

Lemma remove_remove (keys : list string) (st : Storage Data) :
  remove keys (remove keys st) = remove keys st.
Proof.
  unfold remove. induction st as [|[k v] st IH]; simpl; [reflexivity|].
  destruct (existsb (String.eqb k) keys) eqn:E; simpl; [exact IH|].
  rewrite E. simpl. now rewrite IH.
Qed.

Lemma remove_store (key : string) (v : Stored Data) (st : Storage Data) :
  remove [key] (store key v st) = remove [key] st.
Proof.
  unfold store.
  change (remove [key] ((key, v) :: remove [key] st))
    with (if negb (existsb (String.eqb key) [key])
          then (key, v) :: remove [key] (remove [key] st)
          else remove [key] (remove [key] st)).
  simpl. rewrite String.eqb_refl. simpl. apply remove_remove.
Qed.

Lemma extractAgencyCode_nonempty (url code : string) :
  extractAgencyCode url = Some code -> code <> "".
Proof.
  intros H. unfold extractAgencyCode in H.
  destruct (firstAgency_sound _ _ H) as [pre [rest [_ A]]].
  now destruct (agencyAt_sound _ _ A) as [N _].
Qed.

Lemma getCacheKey_agency (url code : string) :
  extractAgencyCode url = Some code ->
  getCacheKey url = Returned ("company_agency_" ++ code)%string.
Proof.
  intros H. unfold getCacheKey. rewrite H. simpl.
  pose proof (extractAgencyCode_nonempty _ _ H) as N.
  apply String.eqb_neq in N. now rewrite N.
Qed.

Lemma getCacheKey_prefix (url key : string) :
  getCacheKey url = Returned key -> prefix "company_" key = true.
Proof.
  unfold getCacheKey. destruct (truthyS (extractAgencyCode url)).
  - intros H. injection H as <-. reflexivity.
  - destruct (btoa url) as [b|e]; simpl; [|discriminate].
    intros H. injection H as <-. now destruct (substring 0 10 b).
Qed.

Lemma set_then_get (u1 u2 key : string) (data : Data) (t0 t1 : Z) (st : Storage Data) :
  getCacheKey u1 = Returned key -> getCacheKey u2 = Returned key ->
  set u1 data t0 st = Returned (store key (Cached data t0) st)
  /\ get u2 t1 (store key (Cached data t0) st)
     = Returned (if (t1 - t0 >? CACHE_DURATION)%Z then (Null, remove [key] st)
                 else (Val data, store key (Cached data t0) st)).
Proof.
  intros K1 K2. unfold set, get. rewrite K1, K2. cbn [bind]. split; [reflexivity|].
  rewrite lookup_store, String.eqb_refl.
  destruct (t1 - t0 >? CACHE_DURATION)%Z; [|reflexivity].
  now rewrite remove_store.
Qed.

(** X15.  An entry that [set] stores for one URL is what [get] returns
    for every URL with the same agency code, as long as the clock has not
    advanced by more than five minutes (300000 ms exactly is still
    served); after that [get] returns [null] and removes the entry. *)
Theorem cache_round_trip :
  forall (u1 u2 code : string) (data : Data) (t0 t1 : Z) (st : Storage Data),
    extractAgencyCode u1 = Some code -> extractAgencyCode u2 = Some code ->
    exists st1,
      set u1 data t0 st = Returned st1
      /\ get u2 t1 st1
         = Returned (if (t1 - t0 <=? 300000)%Z then (Val data, st1)
                     else (Null, remove ["company_agency_" ++ code]%string st)).
Proof.
  intros u1 u2 code data t0 t1 st C1 C2.
  destruct (set_then_get u1 u2 _ data t0 t1 st
              (getCacheKey_agency _ _ C1) (getCacheKey_agency _ _ C2)) as [S G].
  eexists. split; [exact S|]. rewrite G.
  change CACHE_DURATION with 300000%Z.
  rewrite Z.gtb_ltb, Z.ltb_antisym. now destruct (t1 - t0 <=? 300000)%Z.
Qed.

Lemma existsb_company_keys (key : string) (st : Storage Data) :
  existsb (String.eqb key) (filter (prefix "company_") (map fst st))
  = prefix "company_" key && match lookup key st with Some _ => true | None => false end.
Proof.
  induction st as [|[k v] st IH]; simpl.
  - now rewrite andb_false_r.
  - destruct (prefix "company_" k) eqn:P; simpl.
    + rewrite IH. rewrite (String.eqb_sym key k).
      destruct (k =? key)%string eqn:K; simpl; [|reflexivity].
      apply String.eqb_eq in K. subst k. now rewrite P.
    + rewrite IH. destruct (k =? key)%string eqn:K; [|reflexivity].
      apply String.eqb_eq in K. subst k. now rewrite P.
Qed.

(** X16.  [clear()] without a URL, and [clear('')] alike, removes every
    key of the storage area that starts with [company_] and keeps every
    other key with its value; after it [get] finds nothing, at any time
    and for every URL for which it can make a cache key: it returns null
    and leaves the storage as it is.  For the other URLs (no agency code
    and a character outside Latin-1) [get] throws as it does on any
    storage. *)
Theorem clear_empties_the_cache :
  forall (url : option string) (st : Storage Data),
    truthyS url = false ->
    exists st',
      clear url st = Returned st'
      /\ (forall key, lookup key st'
                      = if prefix "company_" key then None else lookup key st)
      /\ (forall u now,
            get u now st' = match getCacheKey u with
                            | Returned _ => Returned (Null, st')
                            | Threw e => Threw e
                            end).
Proof.
  intros url st U. unfold clear. rewrite U. eexists. split; [reflexivity|].
  assert (L : forall key,
             lookup key (remove (filter (prefix "company_") (map fst st)) st)
             = if prefix "company_" key then None else lookup key st).
  { intros key. rewrite lookup_remove, existsb_company_keys.
    destruct (prefix "company_" key); simpl; [|reflexivity].
    now destruct (lookup key st). }
  split; [exact L|].
  intros u now. unfold get. destruct (getCacheKey u) as [key|e] eqn:K; [|reflexivity].
  simpl. now rewrite L, (getCacheKey_prefix _ _ K).
Qed.

Lemma latin1_ascii_app (p r : string) :
  isAscii p = true ->
  latin1 (p ++ r)
  = option_map (app (map nat_of_ascii (list_ascii_of_string p))) (latin1 r).
Proof.
  induction p as [|c p IH]; intros A.
  - simpl. now destruct (latin1 r).
  - unfold isAscii in A. simpl in A. apply andb_true_iff in A. destruct A as [C A].
    change (String c p ++ r)%string with (String c (p ++ r)%string).
    cbn [latin1]. rewrite C, (IH A). now destruct (latin1 r).
Qed.

Lemma base64_first_ten (a b c d e f g h : nat) (r1 r2 : list nat) :
  substring 0 10 (base64 (a :: b :: c :: d :: e :: f :: g :: h :: r1))
  = substring 0 10 (base64 (a :: b :: c :: d :: e :: f :: g :: h :: r2)).
Proof.
  destruct r1 as [|x r1], r2 as [|y r2]; reflexivity.
Qed.

(** X17.  For a URL without agency code the cache key is made of the
    first ten base64 characters of the URL, so two such URLs that begin
    with the same eight ASCII characters have the same key: an entry
    stored for one of them is served for the other. *)
Theorem fallback_key_reads_eight_characters :
  forall (p r1 r2 : string) (data : Data) (t0 t1 : Z) (st : Storage Data),
    String.length p = 8 -> isAscii p = true ->
    latin1 r1 <> None -> latin1 r2 <> None ->
    extractAgencyCode (p ++ r1) = None -> extractAgencyCode (p ++ r2) = None ->
    (t1 - t0 <= CACHE_DURATION)%Z ->
    getCacheKey (p ++ r1) = getCacheKey (p ++ r2)
    /\ exists st1,
         set (p ++ r1) data t0 st = Returned st1
         /\ get (p ++ r2) t1 st1 = Returned (Val data, st1).
Proof.
  intros p r1 r2 data t0 t1 st Len A L1 L2 N1 N2 T.
  assert (K : exists key, getCacheKey (p ++ r1) = Returned key
                          /\ getCacheKey (p ++ r2) = Returned key).
  { unfold getCacheKey, btoa. rewrite N1, N2. simpl.
    rewrite !(latin1_ascii_app p _ A).
    destruct (latin1 r1) as [b1|]; [|now elim L1].
    destruct (latin1 r2) as [b2|]; [|now elim L2]. simpl.
    destruct p as [|c1 [|c2 [|c3 [|c4 [|c5 [|c6 [|c7 [|c8 [|c9 p]]]]]]]]];
      try discriminate Len.
    cbn [list_ascii_of_string map app].
    rewrite (base64_first_ten _ _ _ _ _ _ _ _ b1 b2). eexists. split; reflexivity. }
  destruct K as [key [K1 K2]]. split; [now rewrite K1, K2|].
  destruct (set_then_get _ _ key data t0 t1 st K1 K2) as [S G].
  eexists. split; [exact S|]. rewrite G.
  destruct (t1 - t0 >? CACHE_DURATION)%Z eqn:E; [|reflexivity].
  apply Z.gtb_lt in E. lia.
Qed.

End CacheStorage.

Section CacheWitnesses.
Import Js Url CompanyCache Samples.

Lemma cache_round_trip_witness :
  exists st1,
    set "https://a.example/RunForm/AgencyN7/Form/1" northCompany 0 [] = Returned st1
    /\ get "/runform/agencyN7/" 300000 st1 = Returned (Val northCompany, st1).
Proof.
  destruct (cache_round_trip "https://a.example/RunForm/AgencyN7/Form/1"
              "/runform/agencyN7/" "N7" northCompany 0 300000 [] eq_refl eq_refl)
    as [st1 [S G]].
  exists st1. split; [exact S|exact G].
Defined.

Lemma fallback_key_reads_eight_characters_witness :
  getCacheKey ("https://" ++ "a.example/form") = getCacheKey ("https://" ++ "b.example/x")
  /\ exists st1,
       set ("https://" ++ "a.example/form") northCompany 0 [] = Returned st1
       /\ get ("https://" ++ "b.example/x") 1000 st1 = Returned (Val northCompany, st1).
Proof.
  apply (fallback_key_reads_eight_characters "https://" "a.example/form" "b.example/x"
           northCompany 0 1000 []);
    try reflexivity; try (intros H; discriminate H).
Defined.

Lemma clear_empties_the_cache_witness :
  exists st',
    clear (Some "") [("company_agency_N7", Cached northCompany 0);
                     ("imagetrend_detected_4", Flag true)]
    = Returned st'
    /\ lookup "imagetrend_detected_4" st' = Some (Flag true)
    /\ lookup "company_agency_N7" st' = None
    /\ get "https://a.example/RunForm/AgencyN7/Form/1" 1 st' = Returned (Null, st').
Proof.
  destruct (clear_empties_the_cache (Some "")
              [("company_agency_N7", Cached northCompany 0);
               ("imagetrend_detected_4", Flag true)]
              eq_refl) as [st' [C [L G]]].
  exists st'. split; [exact C|].
  split; [rewrite L; reflexivity|]. split; [rewrite L; reflexivity|].
  rewrite G. reflexivity.
Defined.

End CacheWitnesses.

Section HashWitnesses.
Import Js Schema HashGenerator Cases.

Lemma generateHash_sees_projection_only_witness :
  generateHash compareCodeUnits (Some labelledResult)
  = generateHash compareCodeUnits (Some unlabelledResult).
Proof.
  apply (generateHash_sees_projection_only compareCodeUnits labelledResult unlabelledResult);
    reflexivity.
Defined.

Lemma fingerprints_are_lowercase_hex_witness :
  String.length "86daaa59f82c3c7c802566d338f6373cd876bba7af98892603137ff26f82f1d2" = 64
  /\ allLowerHex "86daaa59f82c3c7c802566d338f6373cd876bba7af98892603137ff26f82f1d2" = true.
Proof.
  apply (proj1 (fingerprints_are_lowercase_hex compareCodeUnits (Some unlabelledResult) _)).
  vm_compute. reflexivity.
Defined.

End HashWitnesses.

(* ================================================================== *)
(** ** Properties of the company session and of the token storage       *)
(* ================================================================== *)

Section Sessions.
Import Js Url CompanySessionManager.

(** X18.  Right after [setActiveSession] for one URL, [isCurrentAgency]
    answers true for a URL exactly when the session is not older than
    thirty minutes and both URLs carry the same agency code, letter case
    included.  A URL without agency code is never the current agency,
    not even the URL the session was established from. *)
Theorem isCurrentAgency_after_setActiveSession :
  forall (company_id company_name u1 u2 : string) (now1 now2 now : Z) (st : SessionStore),
    fst (isCurrentAgency u2 now (setActiveSession company_id company_name u1 now1 now2 st))
    = true
    <-> ((now - now2 <= 1800000)%Z
         /\ exists code, extractAgencyCode u1 = Some code /\ extractAgencyCode u2 = Some code).
Proof.
  intros cid cname u1 u2 now1 now2 now st.
  unfold isCurrentAgency, setActiveSession, getActiveSession. cbn [lastActivity agencyCode].
  change SESSION_TIMEOUT with 1800000%Z.
  destruct (now - now2 >? 1800000)%Z eqn:T; cbn [fst].
  - apply Z.gtb_lt in T. split; [discriminate|]. intros [L _]. lia.
  - assert (L : (now - now2 <= 1800000)%Z).
    { destruct (Z.gtb_spec (now - now2) 1800000); [discriminate|assumption]. }
    destruct (extractAgencyCode u2) as [c2|] eqn:C2.
    + destruct (extractAgencyCode u1) as [c1|] eqn:C1.
      * pose proof (extractAgencyCode_nonempty _ _ C1) as N1.
        apply String.eqb_neq in N1. unfold orS, truthyS. rewrite N1. cbn [negb toStr].
        split.
        -- intros E. apply String.eqb_eq in E. subst c2. split; [exact L|now exists c1].
        -- intros [_ [code [E1 E2]]]. injection E1 as <-. injection E2 as <-.
           apply String.eqb_refl.
      * cbn. pose proof (extractAgencyCode_nonempty _ _ C2) as N2.
        split.
        -- intros E. apply String.eqb_eq in E. now elim N2.
        -- intros [_ [code [E1 _]]]. discriminate E1.
    + split; [discriminate|]. intros [_ [code [_ E2]]]. discriminate E2.
Qed.

End Sessions.

Section TokenStorage.
Import Js SecureTokenStorage.

(** X19.  After a refresh that succeeded, the new access token is served
    from the store: every call up to five minutes before the new expiry
    (the time of the refresh plus [expires_in] seconds) returns it, leaves
    the store as it is and does not depend on the token endpoint. *)
Theorem refreshed_token_is_reused :
  forall (exchange exchange' : string -> option TokenResponse) (now later now' later' : Z)
         (st st1 : Tokens) (tok : string),
    truthyS (s_refresh_token st) = true ->
    truthyS (s_access_token st) = true ->
    (exists expiry, s_token_expiry st = Some expiry /\ expiry <> 0 /\ now > expiry - 300000)%Z ->
    getAccessToken exchange now later st = (Some tok, st1) ->
    tok <> "" ->
    (forall tokens, exchange (toStr (s_refresh_token st)) = Some tokens ->
                    now' <= later + expires_in tokens * 1000 - 300000)%Z ->
    getAccessToken exchange' now' later' st1 = (Some tok, st1).
Proof.
  intros ex ex' now later now' later' st st1 tok R A [expiry [E [NZ X]]] G N F.
  unfold getAccessToken in G. rewrite A, E in G. cbn [truthyZ] in G.
  apply Z.eqb_neq in NZ. rewrite NZ in G.
  assert (X' : (now >? expiry - 300000)%Z = true) by (apply Z.gtb_lt; lia).
  rewrite X' in G. cbn [negb andb] in G.
  unfold refreshAccessToken in G. rewrite R in G.
  destruct (ex (toStr (s_refresh_token st))) as [tokens|] eqn:Ex; [|discriminate G].
  injection G as <- <-. specialize (F tokens eq_refl).
  unfold getAccessToken, storeTokens. cbn [s_access_token s_token_expiry truthyS].
  apply String.eqb_neq in N. rewrite N. cbn [negb truthyZ].
  destruct (later + expires_in tokens * 1000 =? 0)%Z; cbn [negb andb]; [reflexivity|].
  destruct (now' >? later + expires_in tokens * 1000 - 300000)%Z eqn:T; [|reflexivity].
  apply Z.gtb_lt in T. lia.
Qed.

(** X20.  When the access token is due for refresh and the token endpoint
    fails, [getAccessToken] returns [null] and empties the store, and from
    then on every call returns [null], at any time and whatever the
    endpoint answers.  Without a refresh token the call returns [null]
    too, but leaves the store, the expired access token included, as it
    is. *)
Theorem failed_refresh_logs_out :
  forall (exchange : string -> option TokenResponse) (now later : Z) (st : Tokens),
    truthyS (s_access_token st) = true ->
    (exists expiry, s_token_expiry st = Some expiry /\ expiry <> 0 /\ now > expiry - 300000)%Z ->
    (truthyS (s_refresh_token st) = true ->
     exchange (toStr (s_refresh_token st)) = None ->
     getAccessToken exchange now later st = (None, clearTokens st)
     /\ forall exchange' now' later',
          getAccessToken exchange' now' later' (clearTokens st) = (None, clearTokens st)
          /\ isAuthenticated exchange' now' later' (clearTokens st) = (false, clearTokens st))
    /\ (truthyS (s_refresh_token st) = false ->
        getAccessToken exchange now later st = (None, st)).
Proof.
  intros ex now later st A [expiry [E [NZ X]]].
  assert (X' : (now >? expiry - 300000)%Z = true) by (apply Z.gtb_lt; lia).
  apply Z.eqb_neq in NZ.
  split.
  - intros R Ex. split.
    + unfold getAccessToken. rewrite A, E. cbn [truthyZ]. rewrite NZ, X'. cbn [negb andb].
      unfold refreshAccessToken. now rewrite R, Ex.
    + intros ex' now' later'. split; reflexivity.
  - intros R. unfold getAccessToken. rewrite A, E. cbn [truthyZ]. rewrite NZ, X'.
    cbn [negb andb]. unfold refreshAccessToken. now rewrite R.
Qed.

(** X21.  Whatever the store, the time and the token endpoint, a token
    that [getAccessToken] returns is the access token the store holds
    afterwards, and its recorded expiry is either unset or zero, or at
    least five minutes ahead of the time of the call, or the one of a
    refresh made by this call. *)
Theorem returned_token_is_the_stored_one :
  forall (exchange : string -> option TokenResponse) (now later : Z) (st st1 : Tokens)
         (tok : string),
    getAccessToken exchange now later st = (Some tok, st1) ->
    s_access_token st1 = Some tok
    /\ match s_token_expiry st1 with
       | None => True
       | Some expiry =>
           expiry = 0%Z \/ (now <= expiry - 300000)%Z
           \/ exists tokens, exchange (toStr (s_refresh_token st)) = Some tokens
                             /\ expiry = (later + expires_in tokens * 1000)%Z
       end.
Proof.
  intros ex now later st st1 tok G. unfold getAccessToken in G.
  destruct (truthyS (s_access_token st)) eqn:A; [|discriminate G].
  destruct (s_token_expiry st) as [expiry|] eqn:E; cbn [truthyZ andb] in G.
  - destruct (expiry =? 0)%Z eqn:Z0; cbn [negb andb] in G.
    + injection G as G <-. rewrite E. split; [exact G|]. left. now apply Z.eqb_eq.
    + destruct (now >? expiry - 300000)%Z eqn:X.
      * unfold refreshAccessToken in G.
        destruct (truthyS (s_refresh_token st)); [|discriminate G].
        destruct (ex (toStr (s_refresh_token st))) as [tokens|] eqn:Ex; [|discriminate G].
        injection G as <- <-. split; [reflexivity|]. cbn. right. right. now exists tokens.
      * injection G as G <-. rewrite E. split; [exact G|]. right. left.
        destruct (Z.gtb_spec now (expiry - 300000)); [discriminate X|assumption].
  - injection G as G <-. now rewrite E.
Qed.

End TokenStorage.

Section TokenWitnesses.
Import Js SecureTokenStorage Samples.

Lemma refreshed_token_is_reused_witness :
  getAccessToken endpointDown 4000000 4000001 (storeTokens newTokens 900001 expiringTokens)
  = (Some "new", storeTokens newTokens 900001 expiringTokens).
Proof.
  apply (refreshed_token_is_reused endpointUp endpointDown 900000 900001 4000000 4000001
           expiringTokens _ "new").
  - reflexivity.
  - reflexivity.
  - exists 1000000%Z. split; [reflexivity|]. split; [intros H; discriminate H|reflexivity].
  - reflexivity.
  - intros H; discriminate H.
  - intros tokens H. injection H as <-. intros H; discriminate H.
Defined.

Lemma failed_refresh_logs_out_witness :
  getAccessToken endpointDown 900000 900001 expiringTokens = (None, clearTokens expiringTokens).
Proof.
  assert (X : exists expiry : Z,
             s_token_expiry expiringTokens = Some expiry
             /\ expiry <> 0%Z /\ (900000 > expiry - 300000)%Z).
  { exists 1000000%Z. split; [reflexivity|]. split; [intros H; discriminate H|reflexivity]. }
  apply (proj1 (failed_refresh_logs_out endpointDown 900000 900001 expiringTokens eq_refl X)).
  - reflexivity.
  - reflexivity.
Defined.

Lemma returned_token_is_the_stored_one_witness :
  s_access_token (storeTokens newTokens 900001 expiringTokens) = Some "new".
Proof.
  apply (proj1 (returned_token_is_the_stored_one endpointUp 900000 900001 expiringTokens
                  (storeTokens newTokens 900001 expiringTokens) "new" eq_refl)).
Defined.

End TokenWitnesses.

(* ================================================================== *)
(** ** Properties of the API client                                     *)
(* ================================================================== *)

Section Requests.
Import Js Url ApiClient ClientInvariants.

Variable env : Env.

Lemma getAccessToken_frame (w w1 : World) (token : option string) :
  getAccessToken env w = (token, w1) ->
  cache w1 = cache w /\ sent w1 = sent w /\ reads w < reads w1 <= 3 + reads w.
Proof.
  unfold getAccessToken. cbv zeta.
  destruct (SecureTokenStorage.getAccessToken _ _ _ (tokens w)) as [t st].
  intros H. injection H as _ <-. cbn [cache sent reads].
  split; [reflexivity|]. split; [reflexivity|].
  unfold SecureTokenStorage.readings.
  repeat match goal with
         | |- context [if ?b then _ else _] => destruct b
         end; lia.
Qed.

(** A token that is not due is returned as it is, after the reading of the
    log and, with an expiry, the one of the test. *)
Lemma getAccessToken_fresh (w : World) :
  Fresh (tokens w) (clock env (1 + reads w)) ->
  getAccessToken env w
  = (SecureTokenStorage.s_access_token (tokens w), later (quiet (tokens w)) w).
Proof.
  intros [A E].
  unfold getAccessToken, SecureTokenStorage.getAccessToken, SecureTokenStorage.readings,
    quiet, later.
  cbv zeta. rewrite A.
  destruct (SecureTokenStorage.s_token_expiry (tokens w)) as [expiry|];
    cbn [truthyZ andb]; [|reflexivity].
  destruct E as [->|E]; [reflexivity|].
  destruct (expiry =? 0)%Z; cbn [negb andb]; [reflexivity|].
  destruct (clock env (1 + reads w) >? expiry - 300000)%Z eqn:X; [|reflexivity].
  apply Z.gtb_lt in X. lia.
Qed.

Lemma truthyS_toStr (o : option string) : truthyS o = true -> toStr o <> "".
Proof.
  destruct o as [s|]; simpl; [|discriminate].
  intros H E. subst s. discriminate H.
Qed.

(** X22.  [makeRequest] sends nothing without an access token: it rejects
    exactly when [getAccessToken] yields none, with 'Not authenticated'
    and before any request.  Otherwise it resolves, after one request or
    two, each for the endpoint followed by the path, with the given
    method and a non-empty bearer token; the company cache is not
    touched. *)
Theorem makeRequest_sends_with_token :
  forall (path method : string) (w w' : World) (r : Completion Json),
    makeRequest env path method w = (r, w') ->
    cache w' = cache w
    /\ (exists extra,
          sent w' = sent w ++ extra /\ List.length extra <= 2
          /\ Forall (WellFormed env path method) extra
          /\ (truthyS (fst (getAccessToken env w)) = true ->
              extra <> [] /\ exists response, r = Returned response)
          /\ (truthyS (fst (getAccessToken env w)) = false ->
              extra = [] /\ r = Threw (Error "Not authenticated"))).
Proof.
  intros path method w w' r. unfold makeRequest.
  destruct (getAccessToken env w) as [token w1] eqn:G1. cbn [fst].
  destruct (getAccessToken_frame _ _ _ G1) as [C1 [S1 _]].
  destruct (truthyS token) eqn:T; cbn [negb].
  - pose proof (truthyS_toStr _ T) as N.
    set (url := (toStr (API_ENDPOINT env) ++ path)%string).
    assert (Q : WellFormed env path method (mkRequest url method (toStr token))).
    { now repeat split. }
    unfold send at 1.
    destruct (fetch env (sent w1) (mkRequest url method (toStr token)))
      as [error|status body]; cbv beta iota.
    + intros H. injection H as <- <-. simpl cache; simpl sent. split; [exact C1|].
      exists [mkRequest url method (toStr token)]. rewrite S1.
      repeat split; auto; try discriminate. now eexists.
    + destruct (status =? 401)%nat.
      * match goal with
        | |- context [getAccessToken env ?x] =>
            destruct (getAccessToken env x) as [newToken w3] eqn:G2
        end; cbv beta iota.
        destruct (getAccessToken_frame _ _ _ G2) as [C3 [S3 _]].
        simpl in C3, S3.
        destruct (truthyS newToken) eqn:T2.
        -- pose proof (truthyS_toStr _ T2) as N2.
           assert (Q2 : WellFormed env path method (mkRequest url method (toStr newToken))).
           { now repeat split. }
           unfold send.
           assert (E : (sent w3 ++ [mkRequest url method (toStr newToken)])
                       = sent w ++ [mkRequest url method (toStr token);
                                    mkRequest url method (toStr newToken)]).
           { rewrite S3, S1, <- app_assoc. reflexivity. }
           destruct (fetch env (sent w3) (mkRequest url method (toStr newToken)))
             as [error|retryStatus retryBody]; cbv beta iota.
           ++ intros H. injection H as <- <-. simpl cache; simpl sent.
              split; [congruence|]. eexists. split; [exact E|].
              repeat split; auto; try discriminate. now eexists.
           ++ destruct (ok retryStatus); cbn [negb].
              ** destruct retryBody as [raw|error]; intros H; injection H as <- <-;
                   simpl cache; simpl sent; (split; [congruence|]); eexists; (split; [exact E|]);
                   repeat split; auto; try discriminate; now eexists.
              ** intros H. injection H as <- <-. simpl cache; simpl sent.
                 split; [congruence|]. eexists. split; [exact E|].
                 repeat split; auto; try discriminate. now eexists.
        -- intros H. injection H as <- <-. split; [congruence|].
           exists [mkRequest url method (toStr token)]. rewrite S3, S1.
           repeat split; auto; try discriminate. now eexists.
      * destruct (ok status); cbn [negb].
        -- destruct body as [data|error]; intros H; injection H as <- <-;
             simpl cache; simpl sent; (split; [exact C1|]);
             exists [mkRequest url method (toStr token)]; rewrite S1;
             repeat split; auto; try discriminate; now eexists.
        -- intros H. injection H as <- <-. simpl cache; simpl sent. split; [exact C1|].
           exists [mkRequest url method (toStr token)]. rewrite S1.
           repeat split; auto; try discriminate. now eexists.
  - intros H. injection H as <- <-. split; [exact C1|].
    exists []. rewrite S1, app_nil_r. repeat split; auto; try discriminate.
Qed.

Lemma later_later (n m : nat) (w : World) : later n (later m w) = later (n + m) w.
Proof.
  unfold later. simpl. now rewrite Nat.add_assoc.
Qed.

(** What [makeRequest] does with a stored token that needs no refresh,
    by the answer to its first request. *)
Lemma makeRequest_fresh (path method : string) (w : World) :
  Fresh (tokens w) (clock env (1 + reads w)) ->
  let q := mkRequest (toStr (API_ENDPOINT env) ++ path) method
             (toStr (SecureTokenStorage.s_access_token (tokens w))) in
  let w2 := mkWorld (tokens w) (cache w) (sent w ++ [q]) (quiet (tokens w) + reads w) in
  makeRequest env path method w
  = match fetch env (sent w) q with
    | Failed error => (Returned (failure (message error)), w2)
    | Answered status body =>
        if (status =? 401)%nat then
          let (newToken, w3) := getAccessToken env w2 in
          if truthyS newToken then
            let (retryResponse, w4) :=
              send env (mkRequest (toStr (API_ENDPOINT env) ++ path) method (toStr newToken))
                w3 in
            match retryResponse with
            | Failed error => (Returned (failure (message error)), w4)
            | Answered retryStatus retryBody =>
                if negb (ok retryStatus)
                then (Returned (failure (requestFailed retryStatus)), w4)
                else match retryBody with
                     | Returned raw => (Returned raw, w4)
                     | Threw error => (Returned (failure (message error)), w4)
                     end
            end
          else (Returned (failure "Authentication expired"), w3)
        else if negb (ok status) then (Returned (failure (requestFailed status)), w2)
        else match body with
             | Returned data => (Returned (success data), w2)
             | Threw error => (Returned (failure (message error)), w2)
             end
    end.
Proof.
  intros F q w2. unfold makeRequest. rewrite (getAccessToken_fresh w F).
  destruct F as [A _]. rewrite A. reflexivity.
Qed.

(** X23.  A 401 answer does not refresh a token that is not due for
    refresh: when the stored token needs no refresh at the two readings of
    the clock that [getAccessToken] tests (the reading after the one of
    its log, in the first call and in the call that follows the 401),
    [makeRequest] repeats the request once, with the same token.  What it
    then returns for an ok answer is the bare body of that answer, not
    wrapped into [{success: true, data}]; any other outcome of the
    repetition is reported as [{success: false, error}].  Without a
    stored expiry the clock was read twice, with one four times. *)
Theorem unauthorized_is_retried_with_the_same_token :
  forall (path method : string) (w : World) (body : Completion Json),
    let q := mkRequest (toStr (API_ENDPOINT env) ++ path) method
               (toStr (SecureTokenStorage.s_access_token (tokens w))) in
    Fresh (tokens w) (clock env (1 + reads w)) ->
    Fresh (tokens w) (clock env (1 + (quiet (tokens w) + reads w))) ->
    fetch env (sent w) q = Answered 401 body ->
    makeRequest env path method w
    = (Returned
         match fetch env (sent w ++ [q]) q with
         | Failed error => failure (message error)
         | Answered status (Returned raw) =>
             if ok status then raw else failure (requestFailed status)
         | Answered status (Threw error) =>
             if ok status then failure (message error)
             else failure (requestFailed status)
         end,
       mkWorld (tokens w) (cache w) (sent w ++ [q; q])
         (quiet (tokens w) + (quiet (tokens w) + reads w))).
Proof.
  intros path method w body q F1 F2 A.
  rewrite (makeRequest_fresh path method w F1). fold q. rewrite A. cbv beta iota.
  change (401 =? 401)%nat with true. cbv beta iota.
  set (w2 := mkWorld (tokens w) (cache w) (sent w ++ [q]) (quiet (tokens w) + reads w)).
  rewrite (getAccessToken_fresh w2 F2).
  destruct F1 as [T _]. change (tokens w2) with (tokens w). rewrite T.
  unfold send, later. simpl tokens. simpl cache. simpl sent. simpl reads.
  rewrite <- app_assoc. simpl app. subst w2 q.
  match goal with
  | |- context [fetch env ?l ?r] =>
      destruct (fetch env l r) as [error|status [raw|error]]
  end; [reflexivity| |]; now destruct (ok status).
Qed.

End Requests.

Section Lookups.
Import Js Url ApiClient ClientInvariants.

Variable env : Env.

Lemma getCacheKey_throws (url : string) :
  (exists e, CompanyCache.getCacheKey url = Threw e)
  <-> (extractAgencyCode url = None /\ latin1 url = None).
Proof.
  unfold CompanyCache.getCacheKey, btoa.
  destruct (extractAgencyCode url) as [code|] eqn:C.
  - pose proof (extractAgencyCode_nonempty _ _ C) as N. apply String.eqb_neq in N.
    simpl. rewrite N. simpl. split; [intros [e H]; discriminate H|intros [H _]; discriminate H].
  - simpl. destruct (latin1 url); simpl.
    + split; [intros [e H]; discriminate H|intros [_ H]; discriminate H].
    + split; [now split|intros _; now eexists].
Qed.

(** X24.  [lookupCompanyByURL] rejects exactly for the URLs that have no
    agency code and hold a character outside Latin-1 (where [btoa]
    throws while the cache key is made); every failure of the request and
    of the authentication is returned as a response.
    [getExtractionHistory] never rejects. *)
Theorem lookup_rejects_only_outside_latin1 :
  forall (url : string) (w : World),
    ((exists e, fst (lookupCompanyByURL env url w) = Threw e)
     <-> (extractAgencyCode url = None /\ latin1 url = None))
    /\ exists response, fst (getExtractionHistory env url w) = Returned response.
Proof.
  intros url w. split.
  - rewrite <- getCacheKey_throws.
    unfold lookupCompanyByURL, cacheGet, CompanyCache.get.
    destruct (CompanyCache.getCacheKey url) as [key|e0]; cbn [bind].
    + split; [|intros [e H]; discriminate H].
      assert (R : forall (cached : jsopt Json) (w1 : World),
                 ~ exists e,
                     fst (if truthy (valueOf cached)
                          then (Returned (success (valueOf cached)), w1)
                          else if negb (truthyS (extractAgencyCode url))
                          then (Returned
                                  (failure "Invalid ImageTrend URL - no agency code found"),
                                w1)
                          else let (tried, w2) :=
                                 lookupByAgency env
                                   (toStr (orS (API_LOOKUP_PATH env)
                                             (Some "/api/v1/admin/vendor-forms/lookup")))
                                   url (toStr (extractAgencyCode url)) w1 in
                               match tried with
                               | Returned response => (Returned response, w2)
                               | Threw error => (Returned (lookupFailed error), w2)
                               end) = Threw e).
      { intros cached w1 [e H].
        destruct (truthy (valueOf cached)); [discriminate H|].
        destruct (negb (truthyS (extractAgencyCode url))); [discriminate H|].
        destruct (lookupByAgency env _ url _ w1) as [[response|error] w2]; discriminate H. }
      intros H. exfalso. revert H.
      destruct (CompanyCache.lookup key (cache w)) as [[data cached_at|b|s]|].
      * destruct (clock env (reads w) - cached_at >? CompanyCache.CACHE_DURATION)%Z;
          apply R.
      * apply R.
      * apply R.
      * apply R.
    + split; [intros _; now eexists|intros _; now eexists].
  - unfold getExtractionHistory.
    destruct (makeRequest env _ "GET" w) as [[response|e] w1]; now eexists.
Qed.

(** A miss leaves the world as it is: the clock is not read. *)
Lemma cacheGet_miss (url code : string) (w : World) :
  extractAgencyCode url = Some code ->
  CompanyCache.lookup ("company_agency_" ++ code)%string (cache w) = None ->
  cacheGet env url w = (Returned Null, w).
Proof.
  intros C L. unfold cacheGet, CompanyCache.get, CompanyCache.readsClock.
  rewrite (getCacheKey_agency _ _ C). cbn [bind]. rewrite L. now destruct w.
Qed.

Lemma truthyS_agency (url code : string) :
  extractAgencyCode url = Some code -> truthyS (extractAgencyCode url) = true.
Proof.
  intros C. rewrite C. simpl.
  pose proof (extractAgencyCode_nonempty _ _ C) as N.
  apply String.eqb_neq in N. now rewrite N.
Qed.

(** X25.  When the cache has no entry and the stored token needs no
    refresh (at the reading of the clock that [getAccessToken] tests, the
    one after the reading of its log), an answer to the lookup whose
    status is neither 2xx nor 401 (404 included) makes
    [lookupCompanyByURL] resolve with
    [{success: false, error: 'API request failed: <status>'}], and a failed
    [fetch] with the message of its error: the messages of the [catch]
    block ('No company found for this ImageTrend URL', 'Network error -
    please check your connection') are not used.  One request was sent,
    for the agency code, nothing was cached, and the clock was read by
    [getAccessToken] only (the miss of the cache reads no clock). *)
Theorem lookup_reports_the_status :
  forall (url code : string) (w : World),
    let q := mkRequest (toStr (API_ENDPOINT env) ++ lookupPathFor env code) "GET"
               (toStr (SecureTokenStorage.s_access_token (tokens w))) in
    extractAgencyCode url = Some code ->
    CompanyCache.lookup ("company_agency_" ++ code)%string (cache w) = None ->
    Fresh (tokens w) (clock env (1 + reads w)) ->
    (forall error,
       fetch env (sent w) q = Failed error ->
       lookupCompanyByURL env url w
       = (Returned (failure (message error)),
          mkWorld (tokens w) (cache w) (sent w ++ [q]) (quiet (tokens w) + reads w)))
    /\ (forall status body,
          fetch env (sent w) q = Answered status body ->
          ok status = false -> status <> 401 ->
          lookupCompanyByURL env url w
          = (Returned (failure (requestFailed status)),
             mkWorld (tokens w) (cache w) (sent w ++ [q]) (quiet (tokens w) + reads w))).
Proof.
  intros url code w q C L F.
  assert (M : forall outcome,
             fetch env (sent w) q = outcome ->
             match outcome with
             | Failed _ => True
             | Answered status _ => ok status = false /\ status <> 401
             end ->
             lookupCompanyByURL env url w
             = (Returned (failure match outcome with
                                  | Failed error => message error
                                  | Answered status _ => requestFailed status
                                  end),
                mkWorld (tokens w) (cache w) (sent w ++ [q])
                  (quiet (tokens w) + reads w))).
  { intros outcome A O. unfold lookupCompanyByURL.
    rewrite (cacheGet_miss url code w C L). cbv beta iota.
    change (truthy (valueOf Null)) with false. cbv beta iota.
    rewrite (truthyS_agency _ _ C). cbv beta iota. change (negb true) with false.
    cbv beta iota. rewrite C. cbn [toStr]. unfold lookupByAgency.
    fold (lookupPathFor env code).
    rewrite (makeRequest_fresh env (lookupPathFor env code) "GET" w F).
    fold q. rewrite A.
    destruct outcome as [error|status body].
    - reflexivity.
    - destruct O as [O1 O2]. apply Nat.eqb_neq in O2. rewrite O2, O1. reflexivity. }
  split.
  - intros error A. exact (M _ A I).
  - intros status body A O1 O2. exact (M _ A (conj O1 O2)).
Qed.

(** X26.  A lookup that went to the server and came back with a truthy
    [success] and [data] is remembered: the next lookup for any URL with
    the same agency code, made while the clock has advanced by at most
    five minutes, resolves with [{success: true, data}] for that data
    without reading a token or sending a request. *)
Theorem lookup_is_served_from_the_cache :
  forall (url url' code : string) (w w1 : World) (response flag data : Json),
    lookupCompanyByURL env url w = (Returned response, w1) ->
    sent w1 <> sent w ->
    getProp "success" response = Returned flag -> truthy flag = true ->
    getProp "data" response = Returned data -> truthy data = true ->
    extractAgencyCode url = Some code -> extractAgencyCode url' = Some code ->
    (clock env (reads w1) - clock env (pred (reads w1)) <= 300000)%Z ->
    lookupCompanyByURL env url' w1 = (Returned (success data), later 1 w1).
Proof.
  intros url url' code w w1 response flag data H NS PF TF PD TD C C' T.
  unfold lookupCompanyByURL in H.
  destruct (cacheGet env url w) as [[cached|e] w0] eqn:G; [|discriminate H].
  assert (S0 : sent w0 = sent w).
  { unfold cacheGet in G.
    destruct (CompanyCache.get url (clock env (reads w)) (cache w)) as [[c st]|e];
      injection G as _ <-; reflexivity. }
  destruct (truthy (valueOf cached)).
  { injection H as _ <-. now elim NS. }
  rewrite (truthyS_agency _ _ C) in H. change (negb true) with false in H.
  cbv beta iota in H. rewrite C in H. cbn [toStr] in H.
  unfold lookupByAgency in H.
  destruct (makeRequest env _ "GET" w0) as [[made|e] w2].
  - destruct (getProp "success" made) as [flag'|e] eqn:PF'.
    + destruct (truthy flag') eqn:TF'.
      * destruct (getProp "data" made) as [data'|e] eqn:PD'.
        -- destruct (truthy data') eqn:TD'.
           ++ unfold cacheSet in H. unfold CompanyCache.set in H.
              rewrite (getCacheKey_agency _ _ C) in H. cbn [bind] in H.
              injection H as <- <-.
              rewrite PD' in PD. injection PD as <-.
              unfold lookupCompanyByURL, cacheGet, CompanyCache.get,
                CompanyCache.readsClock.
              rewrite (getCacheKey_agency _ _ C'). cbn [bind].
              cbn [cache reads]. cbn [reads Nat.pred] in T.
              rewrite lookup_store, String.eqb_refl.
              change CompanyCache.CACHE_DURATION with 300000%Z.
              destruct (clock env (S (reads w2)) - clock env (reads w2) >? 300000)%Z eqn:X.
              { apply Z.gtb_lt in X. lia. }
              cbn [valueOf]. rewrite TD'. reflexivity.
           ++ injection H as <- <-. rewrite PD' in PD. injection PD as <-. congruence.
        -- injection H as <- <-. unfold lookupFailed in PF.
           destruct (includes "404" (message e));
             [|destruct (includes "network" (message e))];
             simpl in PF; injection PF as <-; discriminate TF.
      * injection H as <- <-. rewrite PF' in PF. injection PF as <-. congruence.
    + injection H as <- <-. unfold lookupFailed in PF.
      destruct (includes "404" (message e)); [|destruct (includes "network" (message e))];
        simpl in PF; injection PF as <-; discriminate TF.
  - injection H as <- <-. unfold lookupFailed in PF.
    destruct (includes "404" (message e)); [|destruct (includes "network" (message e))];
      simpl in PF; injection PF as <-; discriminate TF.
Qed.

End Lookups.

Section ClientWitnesses.
Import Js Url ApiClient ClientInvariants Samples.

Lemma makeRequest_sends_with_token_witness :
  cache (snd (makeRequest found "/x" "GET" emptyWorld)) = cache emptyWorld.
Proof.
  apply (proj1 (makeRequest_sends_with_token found "/x" "GET" emptyWorld _ _
                  (surjective_pairing (makeRequest found "/x" "GET" emptyWorld)))).
Defined.

(** The theorem at a server that answers 401 once, for a token without
    expiry (the clock is read twice) and for one that expires far ahead
    (the clock is read four times). *)
Lemma unauthorized_is_retried_with_the_same_token_witness :
  makeRequest unauthorizedOnce "/x" "GET" emptyWorld
  = (Returned northJson,
     mkWorld freshTokens []
       [mkRequest "undefined/x" "GET" "tok"; mkRequest "undefined/x" "GET" "tok"] 2)
  /\ makeRequest unauthorizedOnce "/x" "GET" expiringWorld
     = (Returned northJson,
        mkWorld expiringTokens []
          [mkRequest "undefined/x" "GET" "old"; mkRequest "undefined/x" "GET" "old"] 4).
Proof.
  split.
  - rewrite (unauthorized_is_retried_with_the_same_token unauthorizedOnce "/x" "GET"
               emptyWorld (Returned JNull)).
    + reflexivity.
    + split; [reflexivity|exact I].
    + split; [reflexivity|exact I].
    + reflexivity.
  - rewrite (unauthorized_is_retried_with_the_same_token unauthorizedOnce "/x" "GET"
               expiringWorld (Returned JNull)).
    + reflexivity.
    + split; [reflexivity|]. right. vm_compute. intros H; discriminate H.
    + split; [reflexivity|]. right. vm_compute. intros H; discriminate H.
    + reflexivity.
Defined.

(** The theorem at a server that answers 404: the clock is read once, by
    [getAccessToken]. *)
Lemma lookup_reports_the_status_witness :
  lookupCompanyByURL notFound "https://a.example/RunForm/AgencyN7/Form/1" emptyWorld
  = (Returned (failure "API request failed: 404"),
     mkWorld freshTokens []
       [mkRequest "undefined/api/v1/admin/vendor-forms/lookup?agency=N7" "GET" "tok"] 1).
Proof.
  rewrite (proj2 (lookup_reports_the_status notFound
                    "https://a.example/RunForm/AgencyN7/Form/1" "N7" emptyWorld
                    eq_refl eq_refl (conj eq_refl I))
             404 (Returned JNull) eq_refl eq_refl).
  - reflexivity.
  - intros H; discriminate H.
Defined.

Lemma lookup_is_served_from_the_cache_witness :
  lookupCompanyByURL found "/runform/agencyN7/"
    (snd (lookupCompanyByURL found "https://a.example/RunForm/AgencyN7/Form/1" emptyWorld))
  = (Returned (success northJson),
     later 1
       (snd (lookupCompanyByURL found "https://a.example/RunForm/AgencyN7/Form/1"
               emptyWorld))).
Proof.
  apply (lookup_is_served_from_the_cache found
           "https://a.example/RunForm/AgencyN7/Form/1" "/runform/agencyN7/" "N7"
           emptyWorld _ (success northJson) (JBool true) northJson).
  - reflexivity.
  - intros H; discriminate H.
  - reflexivity.
  - reflexivity.
  - reflexivity.
  - reflexivity.
  - reflexivity.
  - reflexivity.
  - intros H; discriminate H.
Defined.

End ClientWitnesses.

(* ================================================================== *)
(** ** Properties of the code challenge                                 *)
(* ================================================================== *)

Section CodeChallenge.
Import Js Url Pkce HashGenerator.

Lemma latin1_fromCharCode (bytes : list nat) :
  Forall (fun b => b < 256) bytes -> latin1 (fromCharCode bytes) = Some bytes.
Proof.
  induction 1 as [|b bytes B _ IH]; [reflexivity|].
  cbn [fromCharCode]. unfold charOfCode.
  destruct (b <? 128)%nat eqn:L1.
  - apply Nat.ltb_lt in L1. cbn [append latin1].
    rewrite nat_ascii_embedding by lia.
    apply Nat.ltb_lt in L1. now rewrite L1, IH.
  - apply Nat.ltb_ge in L1. destruct (b <? 192)%nat eqn:L2.
    + apply Nat.ltb_lt in L2. cbn [append latin1].
      rewrite (nat_ascii_embedding 194) by lia.
      change (194 <? 128)%nat with false. cbv beta iota.
      rewrite nat_ascii_embedding by lia.
      change (194 =? 194)%nat with true. cbv beta iota. now rewrite IH.
    + apply Nat.ltb_ge in L2. cbn [append latin1].
      rewrite (nat_ascii_embedding 195) by lia.
      change (195 <? 128)%nat with false. cbv beta iota.
      rewrite nat_ascii_embedding by lia.
      change (195 =? 194)%nat with false. change (195 =? 195)%nat with true. cbv beta iota.
      rewrite IH. simpl. f_equal. f_equal. lia.
Qed.

Lemma digest_bytes (msg : list Z) :
  Forall (fun b => b < 256) (map Z.to_nat (Sha256.digest msg)).
Proof.
  unfold Sha256.digest. apply Forall_map, Forall_flat_map, Forall_forall.
  intros h _. unfold Sha256.be_bytes. apply Forall_map, Forall_forall. intros i _.
  pose proof (Z.mod_pos_bound (Z.shiftr h (8 * Z.of_nat i)) 256 eq_refl) as B. lia.
Qed.

#[local] Abbreviation urlForm s :=
  (removeAll "=" (replaceAll "/" "_" (replaceAll "+" "-" s))).

Lemma urlForm_char (n : nat) (s : string) :
  n < 64 ->
  exists c, urlForm (String (base64Char n) s) = String c (urlForm s) /\ safeChar c = true.
Proof.
  intros H.
  do 64 (destruct n as [|n]; [eexists; split; reflexivity|]).
  lia.
Qed.

Lemma urlForm_pad (s : string) : urlForm (String pad64 s) = urlForm s.
Proof.
  reflexivity.
Qed.

Lemma quarter_bound (a : nat) : a < 256 -> a / 4 < 64.
Proof.
  intros H. apply Nat.Div0.div_lt_upper_bound. lia.
Qed.

Lemma base64_shape (n : nat) (bytes : list nat) :
  List.length bytes <= n -> Forall (fun b => b < 256) bytes ->
  urlSafe (urlForm (base64 bytes)) = true
  /\ String.length (urlForm (base64 bytes)) = (4 * List.length bytes + 2) / 3.
Proof.
  revert bytes. induction n as [|n IH]; intros bytes L B.
  - destruct bytes; [split; reflexivity|simpl in L; lia].
  - destruct bytes as [|a [|b [|c rest]]].
    + split; reflexivity.
    + inversion B as [|? ? Ba _]; subst.
      assert (I1 : a / 4 < 64) by now apply quarter_bound.
      assert (I2 : a mod 4 * 16 < 64).
      { pose proof (Nat.mod_upper_bound a 4). lia. }
      cbn [base64].
      destruct (urlForm_char _ (String (base64Char (a mod 4 * 16))
                                  (String pad64 (String pad64 EmptyString))) I1)
        as [c1 [-> S1]].
      destruct (urlForm_char _ (String pad64 (String pad64 EmptyString)) I2)
        as [c2 [-> S2]].
      rewrite !urlForm_pad. unfold urlSafe. cbn [list_ascii_of_string forallb].
      rewrite S1, S2. split; reflexivity.
    + inversion B as [|? ? Ba B']; subst. inversion B' as [|? ? Bb _]; subst.
      assert (I1 : a / 4 < 64) by now apply quarter_bound.
      assert (I2 : a mod 4 * 16 + b / 16 < 64).
      { pose proof (Nat.mod_upper_bound a 4).
        assert (b / 16 < 16) by (apply Nat.Div0.div_lt_upper_bound; lia). lia. }
      assert (I3 : b mod 16 * 4 < 64).
      { pose proof (Nat.mod_upper_bound b 16). lia. }
      cbn [base64].
      destruct (urlForm_char _ (String (base64Char (a mod 4 * 16 + b / 16))
                                  (String (base64Char (b mod 16 * 4))
                                     (String pad64 EmptyString))) I1) as [c1 [-> S1]].
      destruct (urlForm_char _ (String (base64Char (b mod 16 * 4))
                                  (String pad64 EmptyString)) I2) as [c2 [-> S2]].
      destruct (urlForm_char _ (String pad64 EmptyString) I3) as [c3 [-> S3]].
      rewrite !urlForm_pad. unfold urlSafe. cbn [list_ascii_of_string forallb].
      rewrite S1, S2, S3. split; reflexivity.
    + inversion B as [|? ? Ba B']; subst. inversion B' as [|? ? Bb B'']; subst.
      inversion B'' as [|? ? Bc Br]; subst.
      assert (I1 : a / 4 < 64) by now apply quarter_bound.
      assert (I2 : a mod 4 * 16 + b / 16 < 64).
      { pose proof (Nat.mod_upper_bound a 4).
        assert (b / 16 < 16) by (apply Nat.Div0.div_lt_upper_bound; lia). lia. }
      assert (I3 : b mod 16 * 4 + c / 64 < 64).
      { pose proof (Nat.mod_upper_bound b 16).
        assert (c / 64 < 4) by (apply Nat.Div0.div_lt_upper_bound; lia). lia. }
      assert (I4 : c mod 64 < 64) by (apply Nat.mod_upper_bound; lia).
      assert (Lr : List.length rest <= n) by (simpl in L; lia).
      destruct (IH rest Lr Br) as [Sr Nr].
      cbn [base64].
      destruct (urlForm_char _ (String (base64Char (a mod 4 * 16 + b / 16))
                                  (String (base64Char (b mod 16 * 4 + c / 64))
                                     (String (base64Char (c mod 64)) (base64 rest)))) I1)
        as [c1 [-> S1]].
      destruct (urlForm_char _ (String (base64Char (b mod 16 * 4 + c / 64))
                                  (String (base64Char (c mod 64)) (base64 rest))) I2)
        as [c2 [-> S2]].
      destruct (urlForm_char _ (String (base64Char (c mod 64)) (base64 rest)) I3)
        as [c3 [-> S3]].
      destruct (urlForm_char _ (base64 rest) I4) as [c4 [-> S4]].
      split.
      * unfold urlSafe in *. cbn [list_ascii_of_string forallb].
        now rewrite S1, S2, S3, S4, Sr.
      * cbn [String.length List.length]. rewrite Nr.
        replace (4 * S (S (S (List.length rest))) + 2)
          with (4 * List.length rest + 2 + 4 * 3) by lia.
        rewrite Nat.div_add by lia. lia.
Qed.

(** X27.  [generateCodeChallenge] always resolves, with a string of 43
    characters, all among the letters, the digits, [-] and [_] (the
    unpadded base64url form of the SHA-256 digest of the verifier),
    whatever the verifier. *)
Theorem generateCodeChallenge_shape :
  forall codeVerifier : string,
    exists challenge,
      generateCodeChallenge codeVerifier = Returned challenge
      /\ String.length challenge = 43
      /\ urlSafe challenge = true.
Proof.
  intros v. unfold generateCodeChallenge, btoa.
  rewrite (latin1_fromCharCode _ (digest_bytes (encode v))). cbn [bind].
  eexists. split; [reflexivity|].
  destruct (base64_shape 32 (map Z.to_nat (Sha256.digest (encode v)))) as [S L].
  - now rewrite length_map, digest_length.
  - apply digest_bytes.
  - split; [|exact S]. rewrite L, length_map, digest_length. reflexivity.
Qed.

End CodeChallenge.

(* ================================================================== *)
(** ** Properties of the retry loop                                     *)
(* ================================================================== *)

Section Retries.
Import Js Retry.

Context {A : Type}.
Variable fn : nat -> Completion A.
Variable maxAttempts : nat.
Variable delay : Z.
Variable backoff : bool.
Variable onRetry : option (nat -> Exn -> Completion unit).
Hypothesis onRetry_quiet : quiet onRetry.

#[local] Abbreviation attemptFrom := (Retry.attemptFrom fn maxAttempts delay backoff onRetry).
#[local] Abbreviation waitTime := (Retry.waitTime delay backoff).

Lemma onRetry_returns (attempt : nat) (error : Exn) :
  match onRetry with
  | Some callback => callback attempt error
  | None => Returned tt
  end = Returned tt.
Proof.
  destruct onRetry as [callback|] eqn:E; [|reflexivity].
  now apply (onRetry_quiet callback).
Qed.

Lemma attemptFrom_succeeds (k : nat) (value : A) :
  fn k = Returned value ->
  (forall i, i < k -> exists error, fn i = Threw error) ->
  forall gap j lastError waits,
    k < maxAttempts -> k = gap + j ->
    attemptFrom (maxAttempts - j) (S j) lastError waits
    = (Succeeded value, waits ++ map waitTime (seq (S j) gap)).
Proof.
  intros R F gap. induction gap as [|gap IH]; intros j lastError waits K E.
  - simpl in E. subst j.
    destruct (maxAttempts - k) as [|remaining] eqn:M; [lia|].
    cbn [Retry.attemptFrom]. replace (S k - 1) with k by lia.
    rewrite R. now rewrite app_nil_r.
  - destruct (maxAttempts - j) as [|remaining] eqn:M; [lia|].
    cbn [Retry.attemptFrom]. replace (S j - 1) with j by lia.
    destruct (F j) as [error Fj]; [lia|]. rewrite Fj.
    assert (L : (S j <? maxAttempts)%nat = true) by (apply Nat.ltb_lt; lia).
    rewrite L, onRetry_returns.
    replace remaining with (maxAttempts - S j) by lia.
    rewrite (IH (S j) (Some error) (waits ++ [waitTime (S j)])) by lia.
    rewrite <- app_assoc. reflexivity.
Qed.

Lemma attemptFrom_gives_up (err : nat -> Exn) :
  (forall i, i < maxAttempts -> fn i = Threw (err i)) ->
  forall gap j lastError waits,
    maxAttempts = gap + j ->
    attemptFrom gap (S j) lastError waits
    = (GaveUp match gap with
              | 0 => lastError
              | S _ => Some (err (maxAttempts - 1))
              end,
       waits ++ map waitTime (seq (S j) (gap - 1))).
Proof.
  intros F gap. induction gap as [|gap IH]; intros j lastError waits E.
  - simpl. now rewrite app_nil_r.
  - cbn [Retry.attemptFrom]. replace (S j - 1) with j by lia.
    rewrite (F j) by lia.
    destruct (S j <? maxAttempts)%nat eqn:L.
    + apply Nat.ltb_lt in L. rewrite onRetry_returns.
      rewrite (IH (S j) (Some (err j)) (waits ++ [waitTime (S j)])) by lia.
      destruct gap as [|gap]; [lia|].
      rewrite <- app_assoc. simpl. now rewrite Nat.sub_0_r.
    + apply Nat.ltb_ge in L. assert (gap = 0) by lia. subst gap.
      replace (maxAttempts - 1) with j by lia. simpl. now rewrite app_nil_r.
Qed.

Lemma total_app (l1 l2 : list Z) : (total (l1 ++ l2) = total l1 + total l2)%Z.
Proof.
  unfold total. induction l1 as [|x l1 IH]; simpl; [reflexivity|]. rewrite IH. lia.
Qed.

Lemma waitTime_S (k : nat) :
  waitTime (S k) = if backoff then (delay * 2 ^ Z.of_nat k)%Z else delay.
Proof.
  unfold Retry.waitTime. now replace (S k - 1) with k by lia.
Qed.

Lemma total_waits (k : nat) :
  total (map waitTime (seq 1 k))
  = if backoff then (delay * (2 ^ Z.of_nat k - 1))%Z else (delay * Z.of_nat k)%Z.
Proof.
  induction k as [|k IH].
  - simpl. destruct backoff; lia.
  - rewrite seq_S, map_app, total_app, IH. change (1 + k) with (S k).
    cbn [map]. unfold total. cbn [fold_right]. rewrite waitTime_S.
    destruct backoff; [|lia].
    replace (Z.of_nat (S k)) with (Z.of_nat k + 1)%Z by lia.
    rewrite Z.pow_add_r by lia. lia.
Qed.

(** X28.  [withRetry] calls [fn] until it succeeds, at most [maxAttempts]
    times.  When the first success is the call after [k] failures
    ([k < maxAttempts]) it returns that value after [k] waits, which add
    up to [delay * (2^k - 1)] with backoff and to [delay * k] without.
    When all [maxAttempts] calls fail it throws the error of the last
    call, after [maxAttempts - 1] waits (none follows the last failure);
    with [maxAttempts = 0] it throws [undefined] without calling [fn]. *)
Theorem withRetry_outcome :
  (forall k value,
      k < maxAttempts -> fn k = Returned value ->
      (forall i, i < k -> exists error, fn i = Threw error) ->
      withRetry fn maxAttempts delay backoff onRetry
      = (Succeeded value, map waitTime (seq 1 k))
      /\ total (map waitTime (seq 1 k))
         = if backoff then (delay * (2 ^ Z.of_nat k - 1))%Z else (delay * Z.of_nat k)%Z)
  /\ (forall err : nat -> Exn,
        (forall i, i < maxAttempts -> fn i = Threw (err i)) ->
        withRetry fn maxAttempts delay backoff onRetry
        = (GaveUp match maxAttempts with
                  | 0 => None
                  | S last => Some (err last)
                  end,
           map waitTime (seq 1 (maxAttempts - 1)))).
Proof.
  split.
  - intros k value K R F. split; [|apply total_waits].
    unfold withRetry.
    pose proof (attemptFrom_succeeds k value R F k 0 None [] K) as H.
    rewrite Nat.sub_0_r in H. apply H. lia.
  - intros err F. unfold withRetry.
    rewrite (attemptFrom_gives_up err F maxAttempts 0 None []) by lia.
    destruct maxAttempts as [|last]; [reflexivity|].
    simpl. now rewrite Nat.sub_0_r.
Qed.

End Retries.

Section RetryWitness.
Import Js Retry.

Lemma withRetry_outcome_witness :
  withRetry (fun calls => if (calls <? 2)%nat then Threw (Error "busy") else Returned calls)
    3 1000 true None
  = (Succeeded 2, [1000; 2000]%Z).
Proof.
  apply (proj1 (withRetry_outcome
                  (fun calls => if (calls <? 2)%nat then Threw (Error "busy") else Returned calls)
                  3 1000 true None
                  (fun callback attempt error H =>
                     match H in _ = o return match o with
                                             | Some _ => _
                                             | None => True
                                             end with
                     | eq_refl => I
                     end)) 2 2).
  - repeat constructor.
  - reflexivity.
  - intros i H. exists (Error "busy").
    destruct i as [|[|i]]; [reflexivity|reflexivity|].
    exfalso. apply (Nat.lt_irrefl 2). apply Nat.le_lt_trans with (S (S i)); [|exact H].
    repeat apply le_n_S. apply Nat.le_0_l.
Defined.

End RetryWitness.

(* ================================================================== *)
(** ** Separation of the cache entries                                  *)
(* ================================================================== *)

Section CacheSeparation.
Import Js Url CompanyCache ClientInvariants.

Context {Data : Type}.

Lemma base64Char_not_underscore (n : nat) : base64Char n <> "_"%char.
Proof.
  do 64 (destruct n as [|n]; [intros H; discriminate H|]).
  intros H; discriminate H.
Qed.

Lemma base64_get (bytes : list nat) (i : nat) :
  String.get i (base64 bytes) <> Some "_"%char.
Proof.
  revert bytes i.
  assert (P : forall n (bytes : list nat) i,
             List.length bytes <= n -> String.get i (base64 bytes) <> Some "_"%char).
  { induction n as [|n IH]; intros bytes i L.
    - destruct bytes; [now destruct i|simpl in L; lia].
    - destruct bytes as [|a [|b [|c rest]]].
      + now destruct i.
      + cbn [base64].
        destruct i as [|[|[|[|i]]]]; cbn [String.get]; intros H;
          try (injection H as H; now apply base64Char_not_underscore in H);
          discriminate H.
      + cbn [base64].
        destruct i as [|[|[|[|i]]]]; cbn [String.get]; intros H;
          try (injection H as H; now apply base64Char_not_underscore in H);
          discriminate H.
      + cbn [base64].
        destruct i as [|[|[|[|i]]]]; cbn [String.get];
          try (intros H; injection H as H; now apply base64Char_not_underscore in H).
        apply IH. simpl in L. lia. }
  intros bytes i. now apply (P (List.length bytes)).
Qed.

Lemma get_substring (s : string) (m i : nat) (c : ascii) :
  String.get i (substring 0 m s) = Some c -> String.get i s = Some c.
Proof.
  revert m i. induction s as [|x s IH]; intros m i H.
  - destruct m; simpl in H; now destruct i.
  - destruct m as [|m]; [now destruct i|].
    cbn [substring] in H. destruct i as [|i]; [exact H|].
    cbn [String.get] in *. now apply (IH m).
Qed.

Lemma getCacheKey_separates (u1 u2 c1 key : string) :
  extractAgencyCode u1 = Some c1 -> extractAgencyCode u2 <> Some c1 ->
  getCacheKey u2 = Returned key -> key <> ("company_agency_" ++ c1)%string.
Proof.
  intros C1 C2 K E. subst key.
  destruct (extractAgencyCode u2) as [c2|] eqn:E2.
  - rewrite (getCacheKey_agency _ _ E2) in K. injection K as K.
    subst c2. now elim C2.
  - unfold getCacheKey, btoa in K. rewrite E2 in K. cbn [truthyS] in K.
    destruct (latin1 u2) as [bytes|]; [|discriminate K]. cbn [bind] in K.
    injection K as K.
    assert (G : String.get 6 (substring 0 10 (base64 bytes)) = Some "_"%char).
    { now rewrite K. }
    apply get_substring in G. now apply base64_get in G.
Qed.

(** X29.  The entries of different agencies are kept apart: storing a
    company for a URL with an agency code changes nothing of what [get]
    answers for a URL with another agency code or with none, whose key,
    made of base64 characters, is never the key of an agency. *)
Theorem agencies_do_not_share_entries :
  forall (u1 u2 c1 : string) (data : Data) (t0 t : Z) (st st1 : Storage Data),
    extractAgencyCode u1 = Some c1 -> extractAgencyCode u2 <> Some c1 ->
    set u1 data t0 st = Returned st1 ->
    answer (get u2 t st1) = answer (get u2 t st).
Proof.
  intros u1 u2 c1 data t0 t st st1 C1 C2 S.
  unfold set in S. rewrite (getCacheKey_agency _ _ C1) in S. cbn [bind] in S.
  injection S as <-. unfold get.
  destruct (getCacheKey u2) as [key|e] eqn:K; cbn [bind]; [|reflexivity].
  pose proof (getCacheKey_separates u1 u2 c1 key C1 C2 K) as N.
  rewrite lookup_store.
  match goal with
  | |- context [(?k =? key)%string] => destruct (k =? key)%string eqn:E
  end.
  - apply String.eqb_eq in E. elim N. now rewrite <- E.
  - destruct (lookup key st) as [[d at_|b|s]|]; try reflexivity.
    cbv zeta. now destruct (t - at_ >? CACHE_DURATION)%Z.
Qed.

End CacheSeparation.

Section CacheSeparationWitness.
Import Js Url CompanyCache ClientInvariants Samples.

Lemma agencies_do_not_share_entries_witness :
  answer (get "https://b.example/other" 5
            (store "company_agency_N7" (Cached northCompany 0) []))
  = answer (get "https://b.example/other" 5 []).
Proof.
  apply (agencies_do_not_share_entries "/RunForm/AgencyN7/" "https://b.example/other" "N7"
           northCompany 0 5 []).
  - reflexivity.
  - intros H; discriminate H.
  - reflexivity.
Defined.

End CacheSeparationWitness.
